(** * Device-tier-adaptive animation scheduling of the portfolio scripts

    A shallow embedding of [js/3d-portfolio.js] (capability detector,
    throttled animation-frame helper, matrix-rain / neural-network /
    glitch-text drivers, terminal, typewriter, counters, card tilt,
    navbar, cursor glow, project filter, download button) and of the
    older immediately-invoked script (particle background, cursor glow,
    typing headline, navbar).

    Conventions.
    - Host integers ([hardwareConcurrency], [innerWidth], canvas sizes)
      are [N]; [deviceMemory] and animation-frame timestamps are exact
      rationals [Q].
    - Where rounding decides what is stated (the speed cap of the
      particle field, the counters, the glitch timer) the arithmetic is
      binary64: a double is the rational it denotes and every operation
      rounds to nearest, ties to even; [Math.hypot], which the language
      leaves to the host, is a parameter.
    - The geometry of [NeuralNetwork.draw] (positions, impulses,
      connection lines) is carried out over the real numbers [R], with
      [Math.hypot a b] as [sqrt (a*a + b*b)].
    - A JavaScript division whose divisor is zero would yield
      [Infinity]/[NaN]; it is modelled as the failure [None] of a checked
      division, so that "never divides by zero" is a theorem, not an
      assumption.
    - [Math.random] is a stream of numbers consumed in call order.
    - Timers run in order of their due time, and in scheduling order
      when due together.
    - The DOM is a finite map from anchors (element ids, selectors) to
      elements, together with the size of every [querySelectorAll]
      collection; a dereference of [null] raises [TypeError]. *)

From stdpp Require Import gmap strings list.
From Stdlib Require Import NArith ZArith QArith Qabs Qminmax Qpower Qround Reals Lra Lia Psatz.

Local Open Scope string_scope.

(** ** Device capability detector *)

Module Capability.

(** What the host exposes to the detector. [None] stands for a property
    the host does not report ([undefined]). *)
Record Host := {
  hardwareConcurrency : option N;
  deviceMemory : option Q;
  innerWidth : N;
  innerHeight : N;
  prefersReducedMotion : bool
}.

(** [a || d] on numbers: [undefined] and [0] are falsy. *)
Definition orN (a : option N) (d : N) : N :=
  match a with
  | Some n => if (n =? 0)%N then d else n
  | None => d
  end.

Definition orQ (a : option Q) (d : Q) : Q :=
  match a with
  | Some q => if Qeq_bool q 0 then d else q
  | None => d
  end.

Definition Qltb (a b : Q) : bool := negb (Qle_bool b a).

Record DeviceT := {
  isLow : bool;
  isMid : bool;
  isHigh : bool;
  mobile : bool;
  reduced : bool;
  cores : N;
  mem : Q
}.

Definition Device (h : Host) : DeviceT :=
  let cores := orN (hardwareConcurrency h) 2 in
  let mem := orQ (deviceMemory h) 1 in
  let mobile := (innerWidth h <? 768)%N in
  let reduced := prefersReducedMotion h in
  let isLow := reduced || (cores <=? 2)%N || Qltb mem 2 || (mobile && (cores <=? 4)%N) in
  let isMid := negb isLow && ((cores <=? 4)%N || Qltb mem 4 || mobile) in
  let isHigh := negb isLow && negb isMid in
  {| isLow := isLow; isMid := isMid; isHigh := isHigh;
     mobile := mobile; reduced := reduced; cores := cores; mem := mem |}.

(** The classification rule as the specification words it:
    evaluated in order, first match wins. *)
Inductive Tier := Low | Mid | High.

Definition spec_tier (cores : N) (mem : Q) (width : N) (reducedMotion : bool) : Tier :=
  if reducedMotion || (cores <=? 2)%N || Qltb mem 2 || ((width <? 768)%N && (cores <=? 4)%N)
  then Low
  else if (cores <=? 4)%N || Qltb mem 4 || (width <? 768)%N
  then Mid
  else High.

Definition tier_eqb (a b : Tier) : bool :=
  match a, b with
  | Low, Low | Mid, Mid | High, High => true
  | _, _ => false
  end.

End Capability.

(** ** Frame-rate throttle helper *)

Module Throttle.

(** The closure state of [createThrottledRAF]: the constant [interval]
    and the mutable [last]. *)
Record Loop := { interval : Q; last : Q }.

Definition createThrottledRAF (targetFPS : Q) : Loop :=
  {| interval := 1000 / targetFPS; last := 0 |}.

(** One native tick: [loop now]. The boolean tells whether [fn] ran. *)
Definition loop (st : Loop) (now : Q) : Loop * bool :=
  if Qle_bool (interval st) (now - last st)
  then ({| interval := interval st; last := now |}, true)
  else (st, false).

(** The host calls [loop] once per native tick, in timestamp order. *)
Fixpoint run (st : Loop) (ticks : list Q) : list bool :=
  match ticks with
  | [] => []
  | now :: rest => let '(st', fired) := loop st now in fired :: run st' rest
  end.

(** The state in which the ticks leave the loop. *)
Fixpoint final (st : Loop) (ticks : list Q) : Loop :=
  match ticks with
  | [] => st
  | now :: rest => final (fst (loop st now)) rest
  end.

(** Timestamps at which [fn] was invoked. *)
Fixpoint invocations (st : Loop) (ticks : list Q) : list Q :=
  match ticks with
  | [] => []
  | now :: rest =>
      let '(st', fired) := loop st now in
      if fired then now :: invocations st' rest else invocations st' rest
  end.

(** Consecutive elements of a list are at least [d] apart. *)
Fixpoint spaced (d : Q) (l : list Q) : Prop :=
  match l with
  | a :: (b :: _) as tl => (d <= b - a)%Q /\ spaced d tl
  | _ => True
  end.

Fixpoint increasing (l : list Q) : Prop :=
  match l with
  | a :: (b :: _) as tl => (a < b)%Q /\ increasing tl
  | _ => True
  end.

(** "With native ticks at least [1000/targetFPS] apart, the callback
    fires on every native tick", as a statement about [run]. *)
Definition fires_on_every_spaced_tick : Prop :=
  forall (fps : Q) (ticks : list Q),
    (0 < fps)%Q -> increasing ticks -> spaced (1000 / fps) ticks ->
    run (createThrottledRAF fps) ticks = repeat true (length ticks).

End Throttle.

(** ** Binary64 arithmetic *)

Module Binary64.
Local Open Scope Q_scope.

(** A finite double is the rational number it denotes. Every
    arithmetic operation of the language returns the double nearest to
    the exact result, the one with the even significand when two are
    equally near; the significand has 53 bits and the exponent of the
    last place is at least -1074. Results of magnitude 2^1024 or more,
    which would be [Infinity], are outside this model. *)

Definition pow2 (e : Z) : Q := 2 ^ e.

(** The integer part of the binary logarithm of a positive [q]. *)
Definition ilog2 (q : Q) : Z :=
  let k := (Z.log2 (Qnum q) - Z.log2 (Zpos (Qden q)))%Z in
  if Qle_bool (pow2 k) q then k else (k - 1)%Z.

(** The integer nearest to [q], the even one of two equally near. *)
Definition nearest_even (q : Q) : Z :=
  let f := Qfloor q in
  match Qcompare (q - inject_Z f) (1 # 2) with
  | Lt => f
  | Gt => (f + 1)%Z
  | Eq => if Z.even f then f else (f + 1)%Z
  end.

(** The exponent of the unit in the last place of the doubles around [q]. *)
Definition ulp_exponent (q : Q) : Z := Z.max (ilog2 (Qabs q) - 52) (-1074).

Definition round64 (q : Q) : Q :=
  if Qeq_bool q 0 then 0
  else let e := ulp_exponent q in
       inject_Z (nearest_even (q / pow2 e)) * pow2 e.


(** [a + b], [a - b], [a * b], [a / b] on doubles. Every division
    below sits under a guard that makes its divisor positive. *)
Definition add (a b : Q) : Q := round64 (a + b).
Definition sub (a b : Q) : Q := round64 (a - b).
Definition mul (a b : Q) : Q := round64 (a * b).
Definition div (a b : Q) : Q := round64 (a / b).

(** [Math.sqrt]: the double nearest to the square root of [s]. The
    root is taken to [k] fractional bits, more than the result holds,
    and half a bit is added when it is not exact, which shows rounding
    on which side of a tie the root lies. *)
Definition sqrt64 (s : Q) : Q :=
  if Qle_bool s 0 then 0
  else
    let k := Z.max 0 (64 - ilog2 s / 2) in
    let t := s * pow2 (2 * k) in
    let r := Z.sqrt (Qfloor t) in
    let sticky := if Qeq_bool (inject_Z (r * r)) t then 0%Z else 1%Z in
    round64 (inject_Z (2 * r + sticky) * pow2 (- k - 1)).

(** A [Math.hypot] as good as a host can make it: the double nearest
    to the square root of the exact sum of squares. *)
Definition hypot64 (a b : Q) : Q := sqrt64 (a * a + b * b).

End Binary64.

(** ** Neural-network particle field *)

Module Field.
Import Capability.
Local Open Scope R_scope.

Record Node := {
  x : R; y : R;
  vx : R; vy : R;
  r : R;
  pulse : R;
  color : option string
}.

(** [this.mouse] *)
Record Pointer := { mx : R; my : R }.

Record Canvas := { width : N; height : N }.

Record Net := { canvas : Canvas; nodes : list Node; mouse : Pointer }.

Definition NR (n : N) : R := IZR (Z.of_N n).

Definition hypot (a b : R) : R := sqrt (a * a + b * b).

Definition Rltb (a b : R) : bool := if Rlt_dec a b then true else false.
Definition Rgtb (a b : R) : bool := Rltb b a.

(** Checked division: [None] where JavaScript would divide by zero. *)
Definition divide (a b : R) : option R :=
  if Req_dec_T b 0 then None else Some (a / b).

Definition with_pos (x' y' pulse' : R) (n : Node) : Node :=
  {| x := x'; y := y'; vx := vx n; vy := vy n;
     r := r n; pulse := pulse'; color := color n |}.

Definition with_vel (vx' vy' : R) (n : Node) : Node :=
  {| x := x n; y := y n; vx := vx'; vy := vy';
     r := r n; pulse := pulse n; color := color n |}.

Definition sentinel : Pointer := {| mx := -9999; my := -9999 |}.

Definition mouseInf (dev : DeviceT) : R := if isMid dev then 120 else 160.

(** [n.x += n.vx; n.y += n.vy; n.pulse += 0.018] *)
Definition advance (n : Node) : Node :=
  with_pos (x n + vx n) (y n + vy n) (pulse n + 0.018) n.

(** The "Mouse repulsion" block. *)
Definition repel (dev : DeviceT) (m : Pointer) (n : Node) : option Node :=
  let mdx := x n - mx m in
  let mdy := y n - my m in
  let md := hypot mdx mdy in
  if Rltb md (mouseInf dev) && Rgtb md 0 then
    q ← divide (mouseInf dev - md) (mouseInf dev);
    let force := q * 0.7 in
    ux ← divide mdx md;
    uy ← divide mdy md;
    Some (with_vel (vx n + ux * force) (vy n + uy * force) n)
  else Some n.

(** [if (speed > 1.4) { n.vx *= 1.4 / speed; n.vy *= 1.4 / speed; }] *)
Definition limit (n : Node) : option Node :=
  let speed := hypot (vx n) (vy n) in
  if Rgtb speed 1.4 then
    k ← divide 1.4 speed;
    k' ← divide 1.4 speed;
    Some (with_vel (vx n * k) (vy n * k') n)
  else Some n.

(** Reflection at the canvas edges, then clamping of the position. *)
Definition bounce (cv : Canvas) (n : Node) : Node :=
  let vx' := if Rltb (x n) 0 || Rgtb (x n) (NR (width cv)) then vx n * -1 else vx n in
  let vy' := if Rltb (y n) 0 || Rgtb (y n) (NR (height cv)) then vy n * -1 else vy n in
  {| x := Rmax 0 (Rmin (NR (width cv)) (x n));
     y := Rmax 0 (Rmin (NR (height cv)) (y n));
     vx := vx'; vy := vy';
     r := r n; pulse := pulse n; color := color n |}.

(** The body of [for (const n of this.nodes)] in [draw], without the
    canvas painting, which does not touch the node. *)
Definition draw_node (dev : DeviceT) (cv : Canvas) (m : Pointer) (n : Node) : option Node :=
  n1 ← repel dev m (advance n);
  n2 ← limit n1;
  Some (bounce cv n2).

Definition draw (dev : DeviceT) (st : Net) : option Net :=
  ns ← mapM (draw_node dev (canvas st) (mouse st)) (nodes st);
  Some {| canvas := canvas st; nodes := ns; mouse := mouse st |}.

(** [Math.random]: a stream of numbers, consumed front to back. *)
Definition Rng := nat -> R.

Definition Math_random (g : Rng) : R * Rng := (g O, fun i => g (S i)).

Definition Math_floor (a : R) : Z := Int_part a.

Definition colors : list string := ["#00ff41"; "#00f5d4"; "#7c5cfc"].

(** The callback of [Array.from] in [spawnNodes]: one fresh node. *)
Definition spawnNode (dev : DeviceT) (cv : Canvas) (g : Rng) : Node * Rng :=
  let '(r1, g) := Math_random g in
  let '(r2, g) := Math_random g in
  let '(r3, g) := Math_random g in
  let '(r4, g) := Math_random g in
  let '(r5, g) := Math_random g in
  let '(r6, g) := Math_random g in
  let '(r7, g) := Math_random g in
  ({| x := r1 * NR (width cv);
      y := r2 * NR (height cv);
      vx := (r3 - 0.5) * (if isMid dev then 0.25 else 0.35);
      vy := (r4 - 0.5) * (if isMid dev then 0.25 else 0.35);
      r := r5 * 1.5 + 0.8;
      pulse := r6 * PI * 2;
      color := colors !! Z.to_nat (Math_floor (r7 * NR (N.of_nat (length colors)))) |}, g).

(** [Array.from({ length: count }, f)] with a callback drawing from [g]. *)
Fixpoint Array_from {A : Type} (count : nat) (f : Rng -> A * Rng) (g : Rng) : list A * Rng :=
  match count with
  | O => ([], g)
  | S k => let '(a, g1) := f g in
           let '(rest, g2) := Array_from k f g1 in
           (a :: rest, g2)
  end.

Definition node_count (dev : DeviceT) (innerWidth innerHeight : N) : N :=
  let area := (innerWidth * innerHeight)%N in
  let density := if isMid dev then 28000%N else 12000%N in
  N.min (area / density) (if isMid dev then 40 else 90).

Definition spawnNodes (dev : DeviceT) (h : Host) (cv : Canvas) (g : Rng) : list Node * Rng :=
  let count := node_count dev (innerWidth h) (innerHeight h) in
  Array_from (N.to_nat count) (spawnNode dev cv) g.

(** [resize()]: the canvas takes the window's size. *)
Definition resize (h : Host) : Canvas :=
  {| width := innerWidth h; height := innerHeight h |}.

(** What the listeners of [bindEvents] and the throttled frame do to
    the field. [Resized] is the debounced resize callback, running
    against the window [h] with the generator [g]. *)
Inductive Event :=
| Frame
| MouseMove (clientX clientY : R)
| MouseLeave
| TouchMove (clientX clientY : R)
| Resized (h : Host) (g : Rng).

Definition handle (dev : DeviceT) (st : Net) (e : Event) : option Net :=
  match e with
  | Frame => draw dev st
  | MouseMove cx cy =>
      if mobile dev then Some st
      else Some {| canvas := canvas st; nodes := nodes st; mouse := {| mx := cx; my := cy |} |}
  | MouseLeave =>
      if mobile dev then Some st
      else Some {| canvas := canvas st; nodes := nodes st; mouse := sentinel |}
  | TouchMove cx cy =>
      if mobile dev
      then Some {| canvas := canvas st; nodes := nodes st; mouse := {| mx := cx; my := cy |} |}
      else Some st
  | Resized h g =>
      let cv := resize h in
      Some {| canvas := cv; nodes := fst (spawnNodes dev h cv g); mouse := mouse st |}
  end.

Fixpoint handle_all (dev : DeviceT) (st : Net) (es : list Event) : option Net :=
  match es with
  | [] => Some st
  | e :: rest => st' ← handle dev st e; handle_all dev st' rest
  end.

Definition speed (n : Node) : R := hypot (vx n) (vy n).

(** The strength of the impulse for a pointer at distance [md]. *)
Definition force (dev : DeviceT) (md : R) : R :=
  (mouseInf dev - md) / mouseInf dev * 0.7.


Definition in_bounds (cv : Canvas) (n : Node) : Prop :=
  0 <= x n <= NR (width cv) /\ 0 <= y n <= NR (height cv).

(** [Math.random] returns numbers in [0, 1). *)
Definition unit_range (g : Rng) : Prop := forall i, 0 <= g i < 1.

(** A node that lies inside the canvas and respects the speed cap. *)
Definition settled (cv : Canvas) (n : Node) : Prop :=
  in_bounds cv n /\ speed n <= 1.4.

(** Sample data for the worked instances below. *)
Definition desktop : Host :=
  {| hardwareConcurrency := Some 8%N; deviceMemory := Some 8%Q;
     innerWidth := 1024; innerHeight := 768; prefersReducedMotion := false |}.

Definition still (x0 y0 : R) : Node :=
  {| x := x0; y := y0; vx := 0; vy := 0; r := 1; pulse := 0; color := None |}.

End Field.

(** ** The page: DOM anchors and registered schedules *)

Module Dom.
Import Capability.

Record Element := {
  display : string;           (* style.display *)
  styleLeft : option Q;       (* style.left in px, if set *)
  styleTop : option Q;        (* style.top in px, if set *)
  classList : gset string;
  textContent : string;
  dataText : option string;   (* dataset.text *)
  canvasWidth : N;
  canvasHeight : N
}.

(** Everything a script leaves registered with the host. *)
Inductive Handle :=
| Listener (target type : string)
| ThrottledFrame (callback : string) (l : Throttle.Loop)
| FrameLoop (callback : string)
| Interval (callback : string) (ms : N)
| Timeout (callback : string) (ms : N)
| Observer (selector : string).

Record Page := {
  window : Host;
  scrollY : Q;
  dom : gmap string Element;
  matches : gmap string nat;   (* elements a [querySelectorAll] selector matches *)
  handles : list Handle;
  random : Field.Rng
}.

(** The result of code that may dereference [null]: a value, or an
    uncaught [TypeError] together with the page as it was when the
    exception left the script. *)
Inductive Outcome (A : Type) :=
| Ok (a : A)
| TypeError (thrownAt : Page).
Arguments Ok {A} a.
Arguments TypeError {A} thrownAt.

Definition bind {A B : Type} (m : Outcome A) (k : A -> Outcome B) : Outcome B :=
  match m with
  | Ok a => k a
  | TypeError p => TypeError p
  end.

(** [document.getElementById] / [document.querySelector]: a reference
    to the element, or [null]. References are the anchors themselves,
    so two lookups of one anchor alias the same element. *)
Definition getElement (anchor : string) (p : Page) : option string :=
  match dom p !! anchor with
  | Some _ => Some anchor
  | None => None
  end.

Definition with_dom (d : gmap string Element) (p : Page) : Page :=
  {| window := window p; scrollY := scrollY p; dom := d; matches := matches p;
     handles := handles p; random := random p |}.

Definition with_random (g : Field.Rng) (p : Page) : Page :=
  {| window := window p; scrollY := scrollY p; dom := dom p; matches := matches p;
     handles := handles p; random := g |}.

Definition register (h : Handle) (p : Page) : Page :=
  {| window := window p; scrollY := scrollY p; dom := dom p; matches := matches p;
     handles := handles p ++ [h]; random := random p |}.

(** [document.querySelectorAll(selector)]: the collection is known by
    its size, zero for a selector that matches nothing. *)
Definition querySelectorAll (selector : string) (p : Page) : nat :=
  default 0%nat (matches p !! selector).

(** [collection.forEach(el => <register h for el>)]: one registration
    per element of the collection, none when it is empty. *)
Definition forEach_register (selector : string) (h : Handle) (p : Page) : Page :=
  Nat.iter (querySelectorAll selector p) (register h) p.

(** A page with the collections given by their sizes. *)
Definition with_matches (m : gmap string nat) (p : Page) : Page :=
  {| window := window p; scrollY := scrollY p; dom := dom p; matches := m;
     handles := handles p; random := random p |}.

Definition set_display (v : string) (e : Element) : Element :=
  {| display := v; styleLeft := styleLeft e; styleTop := styleTop e;
     classList := classList e; textContent := textContent e;
     dataText := dataText e; canvasWidth := canvasWidth e; canvasHeight := canvasHeight e |}.

Definition set_size (w h : N) (e : Element) : Element :=
  {| display := display e; styleLeft := styleLeft e; styleTop := styleTop e;
     classList := classList e; textContent := textContent e;
     dataText := dataText e; canvasWidth := w; canvasHeight := h |}.

Definition set_text (t : string) (e : Element) : Element :=
  {| display := display e; styleLeft := styleLeft e; styleTop := styleTop e;
     classList := classList e; textContent := t;
     dataText := dataText e; canvasWidth := canvasWidth e; canvasHeight := canvasHeight e |}.

(** [classList.toggle(name, force)] *)
Definition toggle_class (name : string) (force : bool) (e : Element) : Element :=
  {| display := display e; styleLeft := styleLeft e; styleTop := styleTop e;
     classList := if force then {[name]} ∪ classList e else classList e ∖ {[name]};
     textContent := textContent e;
     dataText := dataText e; canvasWidth := canvasWidth e; canvasHeight := canvasHeight e |}.

(** [style.left = l + 'px'; style.top = t + 'px'] *)
Definition place (l t : Q) (e : Element) : Element :=
  {| display := display e; styleLeft := Some l; styleTop := Some t;
     classList := classList e; textContent := textContent e;
     dataText := dataText e; canvasWidth := canvasWidth e; canvasHeight := canvasHeight e |}.

Definition update (anchor : string) (f : Element -> Element) (p : Page) : Page :=
  with_dom (alter f anchor (dom p)) p.

(** Sample pages for the worked instances below: freshly parsed
    elements under the given anchors, nothing registered yet. *)
Definition blank : Element :=
  {| display := ""; styleLeft := None; styleTop := None;
     classList := ∅; textContent := ""; dataText := None;
     canvasWidth := 300; canvasHeight := 150 |}.

Definition page_of (anchors : list string) (h : Host) : Page :=
  {| window := h; scrollY := 0;
     dom := list_to_map ((fun a => (a, blank)) <$> anchors);
     matches := ∅;
     handles := []; random := fun _ => 0%R |}.

(** A targeted visual element is out of sight: not in the document, or
    removed from rendering with [display: none]. *)
Definition absent_or_hidden (anchor : string) (p : Page) : Prop :=
  match dom p !! anchor with
  | None => True
  | Some e => display e = "none"
  end.

End Dom.

(** ** Effect drivers of [js/3d-portfolio.js] *)

Module Drivers.
Import Capability Dom.
Local Open Scope R_scope.

(** *** Matrix rain *)

Inductive MatrixRainT :=
| MR_skipped      (* returned at the tier guard: no field was set *)
| MR_noCanvas     (* [this.canvas] is [null], nothing else was set *)
| MR_running (fontSize : N) (speed opacity : R) (cols : N) (drops : list R).

(** [resize()]: size the canvas to the window and restart the drops. *)
Definition MatrixRain_resize (fontSize : N) (p : Page) : (N * list R) * Page :=
  let w := innerWidth (window p) in
  let h := innerHeight (window p) in
  let p1 := update "matrix-canvas" (set_size w h) p in
  let cols := (w / fontSize)%N in
  let '(drops, g) :=
    Field.Array_from (N.to_nat cols)
      (fun g => let '(a, g') := Field.Math_random g in (a * -100, g')) (random p1) in
  ((cols, drops), with_random g p1).

Definition MatrixRain_new (dev : DeviceT) (p : Page) : MatrixRainT * Page :=
  if isLow dev then (MR_skipped, p)
  else
    match getElement "matrix-canvas" p with
    | None => (MR_noCanvas, p)
    | Some _ =>
        let fontSize := if mobile dev then 11%N else 13%N in
        let speed := if isMid dev then 0.3 else 0.45 in
        let opacity := if isMid dev then 0.04 else 0.055 in
        let '((cols, drops), p1) := MatrixRain_resize fontSize p in
        let p2 := register (Listener "window" "resize") p1 in
        let fps := if isMid dev then 24%Q else 30%Q in
        (MR_running fontSize speed opacity cols drops,
         register (ThrottledFrame "MatrixRain.draw" (Throttle.createThrottledRAF fps)) p2)
    end.

(** *** Neural network *)

Inductive NeuralNetworkT :=
| NN_skipped
| NN_noCanvas
| NN_running (net : Field.Net).

Definition NeuralNetwork_bindEvents (dev : DeviceT) (p : Page) : Page :=
  let p1 := register (Listener "window" "resize") p in
  if negb (mobile dev)
  then register (Listener "window" "mouseleave") (register (Listener "window" "mousemove") p1)
  else register (Listener "window" "touchmove") p1.

Definition NeuralNetwork_new (dev : DeviceT) (p : Page) : NeuralNetworkT * Page :=
  if isLow dev then
    match getElement "neural-canvas" p with
    | Some c => (NN_skipped, update c (set_display "none") p)
    | None => (NN_skipped, p)
    end
  else
    match getElement "neural-canvas" p with
    | None => (NN_noCanvas, p)
    | Some c =>
        let cv := Field.resize (window p) in
        let p1 := update c (set_size (Field.width cv) (Field.height cv)) p in
        let '(nodes, g) := Field.spawnNodes dev (window p1) cv (random p1) in
        let p2 := NeuralNetwork_bindEvents dev (with_random g p1) in
        let fps := if isMid dev then 30%Q else 60%Q in
        (NN_running {| Field.canvas := cv; Field.nodes := nodes; Field.mouse := Field.sentinel |},
         register (ThrottledFrame "NeuralNetwork.draw" (Throttle.createThrottledRAF fps)) p2)
    end.

(** *** Glitch text *)

Inductive GlitchTextT :=
| GT_skipped
| GT_noTarget
| GT_running (original : string) (glitching : bool).

Definition GlitchText_new (dev : DeviceT) (p : Page) : GlitchTextT * Page :=
  if reduced dev then (GT_skipped, p)
  else
    match dom p !! ".glitch-name" with
    | None => (GT_noTarget, p)
    | Some t =>
        let original :=
          match dataText t with
          | Some d => if String.eqb d "" then textContent t else d
          | None => textContent t
          end in
        let interval := if isLow dev then 8000%N else if isMid dev then 6000%N else 4000%N in
        (GT_running original false,
         register (Interval "GlitchText.triggerGlitch" interval) p)
    end.

(** The "slightly deferred" block of the [DOMContentLoaded] handler. *)
Definition deferred_init (dev : DeviceT) (p : Page)
  : (MatrixRainT * NeuralNetworkT * GlitchTextT) * Page :=
  let '(mr, p1) := MatrixRain_new dev p in
  let '(nn, p2) := NeuralNetwork_new dev p1 in
  let '(gt, p3) := GlitchText_new dev p2 in
  ((mr, nn, gt), p3).

(** "Constructing the motion drivers under reduced motion leaves every
    targeted canvas absent or hidden", as a statement about
    [deferred_init]. *)
Definition reduced_motion_hides_canvases : Prop :=
  forall (h : Host) (p : Page),
    prefersReducedMotion h = true ->
    let p' := snd (deferred_init (Device h) p) in
    absent_or_hidden "matrix-canvas" p' /\ absent_or_hidden "neural-canvas" p'.

Definition calm : Host :=
  {| hardwareConcurrency := Some 8%N; deviceMemory := Some 8%Q;
     innerWidth := 1024; innerHeight := 768; prefersReducedMotion := true |}.

(** *** Scanlines, back-to-top: guarded lookups *)

Definition ScanlineEffect_new (dev : DeviceT) (p : Page) : Page :=
  if isLow dev then p
  else
    match getElement ".scanlines" p with
    | None => p
    | Some _ => register (Interval "ScanlineEffect.flicker" 2400) p
    end.

Definition BackToTop_new (p : Page) : Page :=
  match getElement "backToTop" p with
  | None => p
  | Some _ => register (Listener "window" "scroll") p
  end.

(** *** Navbar *)

Record NavbarT := {
  nav : option string;
  toggle : option string;
  menu : option string;
  ticking : bool
}.

(** The constructor and [init()]. [this.toggle?.addEventListener] is
    skipped on [null]; [this.links.forEach] registers one click
    listener per [.nav-link] element; the scroll and document listeners
    are registered whatever the lookups returned. *)
Definition Navbar_new (p : Page) : NavbarT * Page :=
  let nb := {| nav := getElement "navbar" p;
               toggle := getElement "navToggle" p;
               menu := getElement "navMenu" p;
               ticking := false |} in
  let p1 := register (Listener "window" "scroll") p in
  let p2 := match toggle nb with
            | Some t => register (Listener t "click") p1
            | None => p1
            end in
  let p3 := forEach_register ".nav-link" (Listener ".nav-link" "click") p2 in
  (nb, register (Listener "document" "click") p3).

(** The scroll listener: request one frame unless one is pending.
    The boolean tells whether a frame callback was requested. *)
Definition Navbar_onScroll (nb : NavbarT) : NavbarT * bool :=
  if negb (ticking nb)
  then ({| nav := nav nb; toggle := toggle nb; menu := menu nb; ticking := true |}, true)
  else (nb, false).

(** The frame callback requested by the scroll listener.
    [updateActive] only re-marks the [.nav-link] collection, which is
    not part of the page state. *)
Definition Navbar_onFrame (nb : NavbarT) (p : Page) : Outcome (NavbarT * Page) :=
  match nav nb with
  | None => TypeError p
  | Some n =>
      let p1 := update n (toggle_class "scrolled" (Qltb 50 (scrollY p))) p in
      Ok ({| nav := nav nb; toggle := toggle nb; menu := menu nb; ticking := false |}, p1)
  end.

End Drivers.

(** ** The older immediately-invoked script (particle background first) *)

Module Legacy.
Import Capability Dom.
Local Open Scope R_scope.

Record Particle := {
  x : R; y : R;
  size : R;
  speedX : R; speedY : R;
  opacity : R
}.

(** [new Particle()], that is [reset()], against the canvas size. *)
Definition Particle_new (w h : N) (g : Field.Rng) : Particle * Field.Rng :=
  let '(r1, g) := Field.Math_random g in
  let '(r2, g) := Field.Math_random g in
  let '(r3, g) := Field.Math_random g in
  let '(r4, g) := Field.Math_random g in
  let '(r5, g) := Field.Math_random g in
  let '(r6, g) := Field.Math_random g in
  ({| x := r1 * Field.NR w; y := r2 * Field.NR h;
      size := r3 * 1.5 + 0.5;
      speedX := (r4 - 0.5) * 0.3; speedY := (r5 - 0.5) * 0.3;
      opacity := r6 * 0.5 + 0.1 |}, g).

Definition Particle_update (w h : N) (q : Particle) : Particle :=
  let x' := x q + speedX q in
  let y' := y q + speedY q in
  {| x := x'; y := y'; size := size q;
     speedX := if Field.Rltb x' 0 || Field.Rgtb x' (Field.NR w) then speedX q * -1 else speedX q;
     speedY := if Field.Rltb y' 0 || Field.Rgtb y' (Field.NR h) then speedY q * -1 else speedY q;
     opacity := opacity q |}.

(** The particle-background section. [canvas.getContext] is called on
    the result of the lookup without a check. *)
Definition particleBackground (p : Page) : Outcome (list Particle * Page) :=
  match getElement "particleCanvas" p with
  | None => TypeError p
  | Some canvas =>
      let p1 := register (Listener "window" "resize") p in
      (* initParticles() *)
      let w := innerWidth (window p1) in
      let h := innerHeight (window p1) in
      let p2 := update canvas (set_size w h) p1 in
      let count := N.min ((w * h) / 15000) 80 in
      let '(particles, g) := Field.Array_from (N.to_nat count) (Particle_new w h) (random p2) in
      (* animateParticles() *)
      let particles' := map (Particle_update w h) particles in
      Ok (particles', register (FrameLoop "animateParticles") (with_random g p2))
  end.

(** The cursor-glow section up to the end of the first
    [updateCursorGlow()] call: the glow has not moved from the origin,
    and the style write is guarded by [if (cursorGlow)]. *)
Definition cursorGlow (p : Page) : Outcome Page :=
  let p1 := register (Listener "document" "mousemove") p in
  let p2 := match getElement "cursorGlow" p1 with
            | Some glow => update glow (place 0 0) p1
            | None => p1
            end in
  Ok (register (FrameLoop "updateCursorGlow") p2).

Definition roles : list string := ["Engineer"; "YouTuber"; "Developer"; "Analyst"].

(** The typing section up to the end of the first [typeRole()] call,
    which writes [heroRole.textContent] without a check. *)
Definition typing (p : Page) : Outcome Page :=
  match getElement "heroRole" p with
  | None => TypeError p
  | Some heroRole =>
      let currentRole := default "" (roles !! 0%nat) in
      let p1 := update heroRole (set_text (String.substring 0 1 currentRole)) p in
      Ok (register (Timeout "typeRole" 120) p1)
  end.

(** The navbar section: [navToggle.addEventListener] is called without
    a check; the link and hash-anchor listeners are added per element
    of their collections. *)
Definition navbar (p : Page) : Outcome Page :=
  let p1 := register (Listener "window" "scroll") p in
  match getElement "navToggle" p1 with
  | None => TypeError p1
  | Some navToggle =>
      let p2 := register (Listener navToggle "click") p1 in
      let p3 := forEach_register ".nav-link" (Listener ".nav-link" "click") p2 in
      Ok (forEach_register "a[href^='#']" (Listener "a[href^='#']" "click") p3)
  end.

(** [card.addEventListener('mousemove', ...)] and
    [card.addEventListener('mouseleave', ...)] for each element of a
    collection, in document order. *)
Definition forEach_hover (selector : string) (p : Page) : Page :=
  Nat.iter (querySelectorAll selector p)
    (fun q => register (Listener selector "mouseleave")
                (register (Listener selector "mousemove") q)) p.

(** Scroll reveal, counters, skill bars, tilt and magnetic buttons:
    all over [querySelectorAll] collections, which may be empty. An
    observer watches the elements it was given by [observe(el)], one
    call per element. *)
Definition collections (p : Page) : Outcome Page :=
  let p1 := forEach_register "[data-animate]" (Observer "[data-animate]") p in
  let counters := ".counter-number, .stat-number, .count-number" in
  let p2 := forEach_register counters (Observer counters) p1 in
  let p3 := forEach_register ".skill-progress" (Observer ".skill-progress") p2 in
  let p4 := forEach_hover ".project-card" p3 in
  Ok (forEach_hover ".btn" p4).

(** The body of the immediately-invoked function, top to bottom. *)
Definition main (p : Page) : Outcome (list Particle * Page) :=
  bind (particleBackground p) (fun '(particles, p1) =>
  bind (cursorGlow p1) (fun p2 =>
  bind (typing p2) (fun p3 =>
  bind (navbar p3) (fun p4 =>
  bind (collections p4) (fun p5 =>
  Ok (particles, p5)))))).

(** Sample pages: every anchor the script looks up by id, with and
    without the particle canvas, in a 100 x 100 window. *)
Definition small : Host :=
  {| hardwareConcurrency := Some 8%N; deviceMemory := Some 8%Q;
     innerWidth := 100; innerHeight := 100; prefersReducedMotion := false |}.

Definition other_anchors : list string :=
  ["cursorGlow"; "heroRole"; "navbar"; "navToggle"; "navMenu"; "backToTop"].

Definition page_without_canvas : Page := page_of other_anchors small.
Definition page_with_canvas : Page := page_of ("particleCanvas" :: other_anchors) small.

(** The same page with two navigation links, that are hash anchors as
    well, one revealed block and one project card. *)
Definition page_with_links : Page :=
  with_matches
    (list_to_map [(".nav-link", 2%nat); ("a[href^='#']", 2%nat);
                  ("[data-animate]", 1%nat); (".project-card", 1%nat)])
    page_with_canvas.

End Legacy.

(** ** Matrix rain: the per-frame update *)

Module Rain.
Import Capability Field Dom Drivers.
Local Open Scope R_scope.

(** [this.chars]: the glyph alphabet, one entry per character. *)
Definition chars : list string :=
  ["0"; "1"; "ア"; "イ"; "ウ"; "エ"; "オ"; "A"; "B"; "C"; "D"; "E"; "F";
   "{"; "}"; "["; "]"; "<"; ">"; "/"; ";"; ":"; "="; "+"; "-"; "*"; "&"].

(** One [fillText] call: the character (or [undefined]), where it is
    painted and the alpha of its fill style. *)
Record Glyph := { glyph : option string; gx : R; gy : R; alpha : R }.

(** The body of the [for] loop of [draw] for column [i]. The random
    test of the restart is only evaluated once the glyph is below the
    canvas ([&&] short-circuits). *)
Definition draw_column (fontSize : N) (speed : R) (height : N)
    (i : nat) (drop : R) (g : Rng) : (R * Glyph) * Rng :=
  let '(r1, g) := Math_random g in
  let char := chars !! Z.to_nat (Math_floor (r1 * NR (N.of_nat (length chars)))) in
  let y := drop * NR fontSize in
  let '(r2, g) := Math_random g in
  let painted := {| glyph := char; gx := INR i * NR fontSize; gy := y;
                    alpha := r2 * 0.3 + 0.06 |} in
  if Rgtb y (NR height) then
    let '(r3, g) := Math_random g in
    let drop' := if Rgtb r3 0.975 then 0 else drop in
    ((drop' + speed, painted), g)
  else ((drop + speed, painted), g).

(** The loop over [this.drops], from column [i] on. *)
Fixpoint draw_from (fontSize : N) (speed : R) (height : N)
    (i : nat) (drops : list R) (g : Rng) : (list R * list Glyph) * Rng :=
  match drops with
  | [] => (([], []), g)
  | d :: rest =>
      let '((d', painted), g1) := draw_column fontSize speed height i d g in
      let '((rest', glyphs), g2) := draw_from fontSize speed height (S i) rest g1 in
      ((d' :: rest', painted :: glyphs), g2)
  end.

(** The rule one column follows in one frame. *)
Definition column_rule (fontSize : N) (speed : R) (height : N) (old new : R) : Prop :=
  new = old + speed \/ (NR height < old * NR fontSize /\ new = 0 + speed).

End Rain.

(** ** Neural network: the connection lines of a frame *)

Module Links.
Import Capability Field.
Local Open Scope R_scope.

Definition maxDist (dev : DeviceT) : R := if isMid dev then 100 else 120.

(** A stroked line: between nodes [i] and [j], or from node [i] to the
    pointer. *)
Inductive Stroke :=
| Link (i j : nat) (opacity lineWidth : R)
| MouseLine (i : nat) (opacity lineWidth : R).

Definition distance (a b : Node) : R := hypot (x a - x b) (y a - y b).

(** The inner loop: node [a] of index [i] against the nodes from index
    [j] on. *)
Fixpoint links_from (dev : DeviceT) (i : nat) (a : Node) (j : nat) (rest : list Node)
    : list Stroke :=
  match rest with
  | [] => []
  | b :: rest' =>
      let d := distance a b in
      let here :=
        if Rltb d (maxDist dev)
        then let op := (1 - d / maxDist dev) * 0.45 in [Link i j op (op * 1.2)]
        else [] in
      (here ++ links_from dev i a (S j) rest')%list
  end.

(** "Mouse lines — high-end only" for node [a] of index [i]. *)
Definition mouse_line (dev : DeviceT) (m : Pointer) (i : nat) (a : Node) : list Stroke :=
  if isHigh dev then
    let md := hypot (x a - mx m) (y a - my m) in
    if Rltb md (mouseInf dev)
    then let op := (1 - md / mouseInf dev) * 0.75 in [MouseLine i op (op * 2)]
    else []
  else [].

(** The outer loop, from index [i] on. *)
Fixpoint strokes_from (dev : DeviceT) (m : Pointer) (i : nat) (ns : list Node) : list Stroke :=
  match ns with
  | [] => []
  | a :: rest =>
      (links_from dev i a (S i) rest ++ mouse_line dev m i a
         ++ strokes_from dev m (S i) rest)%list
  end.

(** "Draw connections": every stroke of one frame, in paint order. *)
Definition strokes (dev : DeviceT) (st : Net) : list Stroke :=
  strokes_from dev (mouse st) 0 (nodes st).

Definition is_link (s : Stroke) : bool :=
  match s with Link _ _ _ _ => true | MouseLine _ _ _ => false end.

End Links.

(** ** Neural network: what a fresh node looks like *)

Module Spawn.
Import Capability Field.
Local Open Scope R_scope.

(** The ranges [spawnNodes] draws a node's fields from. *)
Definition well_formed (cv : Canvas) (n : Node) : Prop :=
  in_bounds cv n
  /\ -0.175 <= vx n <= 0.175 /\ -0.175 <= vy n <= 0.175
  /\ 0.8 <= r n < 2.3
  /\ 0 <= pulse n < 2 * PI
  /\ exists c, color n = Some c /\ In c colors.

End Spawn.

(** ** Typewriter headline *)

Module Typing.

(** A text is its sequence of UTF-16 code units. *)
Abbreviation Text := (list N).

(** [this.idx], [this.c], [this.del] *)
Record TypeWriterT := { idx : nat; c : Z; del : bool }.

(** [s.substring(0, k)]: a negative [k] counts as 0, a [k] beyond the
    end as the length. *)
Definition substring0 (k : Z) (s : Text) : Text := firstn (Z.to_nat k) s.

(** One call of [type()]: the new fields, the text written to the
    element and the delay passed to [setTimeout]. [None] is the
    [TypeError] of [cur.substring] on an [undefined] text. *)
Definition type (texts : list Text) (st : TypeWriterT) : option (TypeWriterT * (Text * N)) :=
  match texts !! idx st with
  | None => None
  | Some cur =>
      let shown := substring0 (c st) cur in
      let c1 := if del st then (c st - 1)%Z else (c st + 1)%Z in
      let d := if del st then 45%N else 85%N in
      if negb (del st) && (c1 =? Z.of_nat (length cur) + 1)%Z
      then Some ({| idx := idx st; c := c1; del := true |}, (shown, 2400%N))
      else if del st && (c1 =? 0)%Z
      then Some ({| idx := (idx st + 1) mod length texts; c := c1; del := false |},
                 (shown, 500%N))
      else Some ({| idx := idx st; c := c1; del := del st |}, (shown, d))
  end.

(** [k] consecutive calls, each scheduled by the previous one. *)
Fixpoint types (texts : list Text) (k : nat) (st : TypeWriterT)
    : option (TypeWriterT * list (Text * N)) :=
  match k with
  | O => Some (st, [])
  | S k' =>
      match type texts st with
      | None => None
      | Some (st1, out) =>
          match types texts k' st1 with
          | None => None
          | Some (st2, outs) => Some (st2, out :: outs)
          end
      end
  end.

(** The constructor's state. *)
Definition start : TypeWriterT := {| idx := 0; c := 0; del := false |}.

(** The fields stay where [type()] can handle them. *)
Definition in_range (texts : list Text) (st : TypeWriterT) : Prop :=
  exists cur, texts !! idx st = Some cur
    /\ if del st then (1 <= c st <= Z.of_nat (length cur) + 1)%Z
       else (0 <= c st <= Z.of_nat (length cur))%Z.

(** What one full round on the text [cur] writes and waits: the
    prefixes of growing length, then the prefixes of shrinking length. *)
Definition typing_phase (cur : Text) : list (Text * N) :=
  map (fun k => (firstn k cur, if (k =? length cur)%nat then 2400%N else 85%N))
      (seq 0 (S (length cur))).

Definition deleting_phase (cur : Text) : list (Text * N) :=
  map (fun k => (firstn k cur, if (k =? 1)%nat then 500%N else 45%N))
      (rev (seq 1 (S (length cur)))).

End Typing.

(** ** Navbar: the menu toggle *)

Module Menu.
Import Drivers.

(** The classes and the style the click handlers touch:
    [toggle.classList] has "active", [menu.classList] has "open",
    [document.body.style.overflow]. *)
Record MenuState := { toggleActive : bool; menuOpen : bool; bodyOverflow : string }.

(** Where a click lands. *)
Inductive Click := OnToggle | OnLink | InsideMenu | Elsewhere.

(** A dispatch that ran to the end, or one during which a listener
    threw; the state is the one after all listeners. *)
Inductive Result :=
| Done (s : MenuState)
| Threw (s : MenuState).

Definition has (ref : option string) : bool :=
  match ref with Some _ => true | None => false end.

(** The listener on the toggle. [this.menu.classList] is not guarded. *)
Definition onToggleClick (nb : NavbarT) (s : MenuState) : Result :=
  let s1 := {| toggleActive := negb (toggleActive s); menuOpen := menuOpen s;
               bodyOverflow := bodyOverflow s |} in
  if has (menu nb) then
    let opened := negb (menuOpen s1) in
    Done {| toggleActive := toggleActive s1; menuOpen := opened;
            bodyOverflow := if opened then "hidden" else "" |}
  else Threw s1.

(** What the link listener and the outside-click branch both do. *)
Definition close (nb : NavbarT) (s : MenuState) : MenuState :=
  {| toggleActive := if has (toggle nb) then false else toggleActive s;
     menuOpen := if has (menu nb) then false else menuOpen s;
     bodyOverflow := "" |}.

(** The listener on [document]; [inMenu] and [inToggle] tell whether
    the element contains the click target. *)
Definition onDocumentClick (nb : NavbarT) (inMenu inToggle : bool) (s : MenuState)
    : MenuState :=
  if (has (menu nb) && menuOpen s) && negb inMenu && negb (has (toggle nb) && inToggle)
  then close nb s
  else s.

(** One click: the listener on the target, then the one on [document]
    as the event bubbles. An exception in the first does not stop the
    second. *)
Definition click (nb : NavbarT) (e : Click) (s : MenuState) : Result :=
  match e with
  | OnToggle =>
      if has (toggle nb) then
        match onToggleClick nb s with
        | Done s1 => Done (onDocumentClick nb false true s1)
        | Threw s1 => Threw (onDocumentClick nb false true s1)
        end
      else Done (onDocumentClick nb false true s)
  | OnLink => Done (onDocumentClick nb (has (menu nb)) false (close nb s))
  | InsideMenu => Done (onDocumentClick nb true false s)
  | Elsewhere => Done (onDocumentClick nb false false s)
  end.

Definition state_of (r : Result) : MenuState :=
  match r with Done s | Threw s => s end.

(** Clicks one after the other; exceptions are reported and forgotten. *)
Definition clicks (nb : NavbarT) (es : list Click) (s : MenuState) : MenuState :=
  fold_left (fun s e => state_of (click nb e s)) es s.

Definition closed : MenuState :=
  {| toggleActive := false; menuOpen := false; bodyOverflow := "" |}.

(** Toggle, menu and page scroll lock agree. *)
Definition consistent (s : MenuState) : Prop :=
  toggleActive s = menuOpen s
  /\ bodyOverflow s = if menuOpen s then "hidden" else "".

End Menu.

(** ** Project filter *)

Module Filter.

Record Button := { filter : option string; active : bool }.
Record Card := { category : option string; hidden : bool }.

(** [a === b] on values that are a string or [undefined]. *)
Definition strict_eq (a b : option string) : bool :=
  match a, b with
  | Some s, Some t => String.eqb s t
  | None, None => true
  | _, _ => false
  end.

Definition shows (f : option string) (card : Card) : bool :=
  strict_eq f (Some "all") || strict_eq (category card) f.

(** The click listener of button [i]. A button that does not exist has
    no listener. *)
Definition click (i : nat) (btns : list Button) (cards : list Card)
    : list Button * list Card :=
  match btns !! i with
  | None => (btns, cards)
  | Some btn =>
      (imap (fun j b => {| filter := filter b; active := (j =? i)%nat |}) btns,
       map (fun card => {| category := category card;
                           hidden := negb (shows (filter btn) card) |}) cards)
  end.

End Filter.

(** ** Card tilt *)

Module Tilt.

(** [getBoundingClientRect()] *)
Record Rect := { left : Q; top : Q; width : Q; height : Q }.

(** Checked division on rationals: [None] where JavaScript would divide
    by zero. *)
Definition divide (a b : Q) : option Q :=
  if Qeq_bool b 0 then None else Some (a / b).

(** The offsets [dx], [dy] of the pointer from the centre, in half
    widths and half heights. *)
Definition offsets (r : Rect) (clientX clientY : Q) : option (Q * Q) :=
  dx ← divide (clientX - left r - width r / 2) (width r / 2);
  dy ← divide (clientY - top r - height r / 2) (height r / 2);
  Some (dx, dy).

(** [CardTilt]: the angles of [rotateX] and [rotateY], in degrees. *)
Definition CardTilt_mousemove (r : Rect) (clientX clientY : Q) : option (Q * Q) :=
  '(dx, dy) ← offsets r clientX clientY;
  Some (- dy * 7, dx * 7).

(** [AboutTilt]: the angles of [rotateY] and [rotateX], in degrees. *)
Definition AboutTilt_mousemove (r : Rect) (clientX clientY : Q) : option (Q * Q) :=
  '(dx, dy) ← offsets r clientX clientY;
  Some (dx * 12, - dy * 9).

Definition inside (r : Rect) (clientX clientY : Q) : Prop :=
  (left r <= clientX <= left r + width r /\ top r <= clientY <= top r + height r)%Q.

End Tilt.

(** ** Cursor glow *)

Module Cursor.
Import Capability Dom.

(** [gx], [gy]: the pointer; [gax], [gay]: the glow; [dx], [dy]: the dot. *)
Record CursorGlowT := { gx : Q; gy : Q; gax : Q; gay : Q; dx : Q; dy : Q }.

Definition lag (dev : DeviceT) : Q := if isMid dev then 0.18 else 0.12.

(** The arithmetic of one [loop()] call. *)
Definition loop (dev : DeviceT) (s : CursorGlowT) : CursorGlowT :=
  {| gx := gx s; gy := gy s;
     gax := gax s + (gx s - gax s) * lag dev;
     gay := gay s + (gy s - gay s) * lag dev;
     dx := dx s; dy := dy s |}.

Definition mousemove (clientX clientY : Q) (s : CursorGlowT) : CursorGlowT :=
  {| gx := clientX; gy := clientY; gax := gax s; gay := gay s;
     dx := clientX; dy := clientY |}.

Definition without (anchor : string) (p : Page) : Page :=
  with_dom (delete anchor (dom p)) p.

(** What one [loop()] call writes to the document: the dot, if there
    is one, goes to ([dx], [dy]), and the glow, if there is one, to
    where [loop] has just moved it. *)
Definition paint (dev : DeviceT) (glow dot : option string) (s : CursorGlowT) (p : Page)
    : CursorGlowT * Page :=
  let p1 := match dot with
            | Some d => update d (place (dx s) (dy s)) p
            | None => p
            end in
  match glow with
  | Some g => let s' := loop dev s in (s', update g (place (gax s') (gay s')) p1)
  | None => (s, p1)
  end.

(** The constructor up to the end of its first [loop()] call.
    [hoverNone] is the result of the [(hover: none)] media query.
    Returns the instance if the effect started, and the value written
    to [body.style.cursor], if any. *)
Definition CursorGlow_new (dev : DeviceT) (hoverNone : bool) (p : Page)
    : (option CursorGlowT * option string) * Page :=
  let glow := getElement "cursorGlow" p in
  let dot := getElement "cursorDot" p in
  match glow with
  | Some _ =>
      if mobile dev || hoverNone
      then ((None, Some "auto"), without "cursorDot" (without "cursorGlow" p))
      else
        let fresh := {| gx := 0; gy := 0; gax := 0; gay := 0; dx := 0; dy := 0 |} in
        let p1 := register (Listener "window" "mousemove") p in
        let '(s, p2) := paint dev glow dot fresh p1 in
        ((Some s, None), register (FrameLoop "CursorGlow.loop") p2)
  | None => ((None, Some "auto"), without "cursorDot" (without "cursorGlow" p))
  end.

End Cursor.

(** ** Navbar: the active section *)

Module Sections.
Import Capability.

(** A [section[id]] element and a [.nav-link] element. *)
Record SectionT := { sid : string; offsetTop : Q }.
Record LinkT := { section : option string; active : bool }.

(** The [forEach] over the sections: the last one, in document order,
    whose top is at most 220 px below the scroll position. *)
Definition current (scrollY : Q) (sections : list SectionT) : string :=
  fold_left (fun cur s => if Qle_bool (offsetTop s - 220) scrollY then sid s else cur)
    sections "".

(** [updateActive()] *)
Definition updateActive (scrollY : Q) (sections : list SectionT) (links : list LinkT)
    : list LinkT :=
  let cur := current scrollY sections in
  map (fun l => {| section := section l;
                   active := Filter.strict_eq (section l) (Some cur) |}) links.

(** Tops in document order. *)
Fixpoint ascending (sections : list SectionT) : Prop :=
  match sections with
  | a :: (b :: _) as tl => (offsetTop a <= offsetTop b)%Q /\ ascending tl
  | _ => True
  end.

End Sections.

(** ** Scroll listeners throttled by one pending frame *)

Module Scrolling.
Import Dom Drivers.

(** What the host delivers to the navbar. *)
Inductive Event := Scroll | FrameFires.

(** The navbar with the number of frames it has requested so far and
    the number of frame callbacks that threw. A callback that throws
    leaves [ticking] as it was. *)
Record Trace := { navbar : NavbarT; page : Page; requested : nat; thrown : nat }.

Definition step (t : Trace) (e : Event) : Trace :=
  match e with
  | Scroll =>
      let '(nb, asked) := Navbar_onScroll (navbar t) in
      {| navbar := nb; page := page t;
         requested := if asked then S (requested t) else requested t;
         thrown := thrown t |}
  | FrameFires =>
      match Navbar_onFrame (navbar t) (page t) with
      | Ok (nb, p) => {| navbar := nb; page := p; requested := requested t; thrown := thrown t |}
      | TypeError _ =>
          {| navbar := navbar t; page := page t; requested := requested t;
             thrown := S (thrown t) |}
      end
  end.

Definition steps (t : Trace) (es : list Event) : Trace := fold_left step es t.

End Scrolling.

(** ** Counter animation *)

Module Counting.
Import Binary64.
Local Open Scope Q_scope.

(** [duration / 16], which is 125 *)
Definition steps : Q := div 2000 16.

(** One interval callback of [animate]: the new [cur], the number
    written to the element and whether the interval was cleared.
    [None] is [NaN], which [parseInt] returns for a missing or
    non-numeric [data-target]. [target / steps] and [cur + step] are
    binary64 operations; [Math.min] returns one of its arguments. *)
Definition tick (target : option Z) (cur : option Q) : (option Q * option Z) * bool :=
  match target, cur with
  | Some t, Some c =>
      let step := div (inject_Z t) steps in
      let c' := Qmin (add c step) (inject_Z t) in
      ((Some c', Some (Qfloor c')), Qle_bool (inject_Z t) c')
  | _, _ => ((None, None), false)
  end.

(** The interval, for at most [fuel] callbacks: the numbers written, in
    order, and whether the interval was cleared. *)
Fixpoint run (fuel : nat) (target : option Z) (cur : option Q) : list (option Z) * bool :=
  match fuel with
  | O => ([], false)
  | S fuel' =>
      let '((cur', shown), stop) := tick target cur in
      if stop then ([shown], true)
      else let '(rest, cleared) := run fuel' target cur' in (shown :: rest, cleared)
  end.

(** [animate(el)] for at most [fuel] callbacks. *)
Definition animate (fuel : nat) (target : option Z) : list (option Z) * bool :=
  run fuel target (Some 0).

(** What the [k]-th callback may write on the way to the target [t]:
    the integer part of k t / 125, or one less when k t / 125 is itself
    an integer, which the rounded sum may just miss. *)
Definition near_share (t : Z) (k : nat) (w : option Z) : Prop :=
  w = Some (Z.of_nat k * t / 125)%Z
  \/ (w = Some (Z.of_nat k * t / 125 - 1)%Z /\ ((Z.of_nat k * t) mod 125 = 0)%Z).

(** A running value that is where [j] exact additions of t / 125 would
    have put it, up to the rounding of [j] additions. *)
Definition on_track (t : Z) (j : nat) (c : Q) : Prop :=
  Qabs (c - inject_Z (Z.of_nat j) * (inject_Z t / 125))
  <= inject_Z (Z.of_nat j) * (129 * pow2 (-53) * (inject_Z t / 125)).

End Counting.

(** ** Glitch text: one glitch *)

Module Glitch.
Import Stdlib.Strings.Ascii Capability Field Binary64.

Definition chars : list ascii :=
  String.list_ascii_of_string
    "ABCDEFGHIJKLMNOPQRSTUVWXYZabcdefghijklmnopqrstuvwxyz0123456789@#$%^&*".

(** [this.original], [this.glitching], and the locals [iter] and [iv]
    of the running [triggerGlitch] call ([interval] tells whether [iv]
    is still set). *)
Record GlitchT := { original : list ascii; glitching : bool; iter : Q; interval : bool }.

(** The [map] callback over [original.split('')], from index [i] on,
    joined. A character picked outside the alphabet would be
    [undefined] and join as nothing. *)
Fixpoint scramble (i : nat) (iter : Q) (cs : list ascii) (g : Rng) : list ascii * Rng :=
  match cs with
  | [] => ([], g)
  | ch :: rest =>
      if Qltb (inject_Z (Z.of_nat i)) iter then
        let '(out, g') := scramble (S i) iter rest g in (ch :: out, g')
      else if Stdlib.Strings.Ascii.eqb ch " "%char then
        let '(out, g') := scramble (S i) iter rest g in (ch :: out, g')
      else
        let '(r, g1) := Math_random g in
        let pick := chars !! Z.to_nat (Math_floor (r * NR (N.of_nat (length chars)))) in
        let '(out, g') := scramble (S i) iter rest g1 in
        (match pick with Some picked => picked :: out | None => out end, g')
  end.

(** [triggerGlitch()] *)
Definition triggerGlitch (st : GlitchT) : GlitchT :=
  if glitching st then st
  else {| original := original st; glitching := true; iter := 0; interval := true |}.

(** One callback of the 28 ms interval: the new state and the text the
    element shows when the callback returns. [iter += 0.45] is a
    binary64 addition of the double 0.45. *)
Definition tick (st : GlitchT) (g : Rng) : (GlitchT * list ascii) * Rng :=
  let '(scrambled, g') := scramble 0 (iter st) (original st) g in
  if Qle_bool (inject_Z (Z.of_nat (length (original st)))) (iter st)
  then (({| original := original st; glitching := false;
            iter := add (iter st) (round64 0.45); interval := false |}, original st), g')
  else (({| original := original st; glitching := glitching st;
            iter := add (iter st) (round64 0.45); interval := interval st |}, scrambled), g').

(** [n] periods of the interval; a cleared interval calls nothing. *)
Fixpoint ticks (n : nat) (st : GlitchT) (g : Rng) : (GlitchT * list (list ascii)) * Rng :=
  match n with
  | O => ((st, []), g)
  | S n' =>
      if interval st then
        let '((st1, text), g1) := tick st g in
        let '((st2, texts), g2) := ticks n' st1 g1 in
        ((st2, text :: texts), g2)
      else ((st, []), g)
  end.

(** In exact arithmetic: the least [j] with 0.45 j >= len. *)
Definition frames (len : nat) : nat := (20 * len + 8) / 9.

(** The value of [iter] at the callback after [j] additions. *)
Definition iter_at (j : nat) : Q := Nat.iter j (fun s => add s (round64 0.45)) 0.

(** The number of scrambled texts of a glitch on [len] characters:
    the exact count, or one more when the rounded sum has not reached
    [len] by then. *)
Definition frames64 (len : nat) : nat :=
  if Qle_bool (inject_Z (Z.of_nat len)) (iter_at (frames len))
  then frames len else S (frames len).

(** What the [j]-th scrambled text keeps of the original [o]: its
    length, the characters at the positions below 0.45 j, and the
    spaces. *)
Definition keeps (o : list ascii) (j : nat) (txt : list ascii) : Prop :=
  length txt = length o
  /\ forall k ch, o !! k = Some ch ->
       ((20 * k < 9 * j)%nat \/ ch = " "%char) -> txt !! k = Some ch.

End Glitch.

(** ** Host timers *)

Module Timers.

(** Pending [setTimeout] callbacks, earliest first; callbacks due at the
    same time run in the order they were scheduled. *)
Fixpoint schedule {A : Type} (due : N) (a : A) (q : list (N * A)) : list (N * A) :=
  match q with
  | [] => [(due, a)]
  | (due', b) :: q' =>
      if (due' <=? due)%N then (due', b) :: schedule due a q' else (due, a) :: q
  end.

Fixpoint ordered {A : Type} (q : list (N * A)) : Prop :=
  match q with
  | (d1, _) :: ((d2, _) :: _) as tl => (d1 <= d2)%N /\ ordered tl
  | _ => True
  end.

End Timers.

(** ** Terminal *)

Module Terminal.

(** An entry of [this.queue]; [color] and [blink] may be left out. *)
Record Item := { text : string; color : option string; delay : N; blink : bool }.

(** What a timeout callback appends to the terminal. *)
Inductive Child :=
| Br
| Line (className color text : string).

Definition render (item : Item) : Child :=
  if String.eqb (text item) "" && negb (blink item) then Br
  else Line ("h-line" ++ (if blink item then " blink-cursor" else ""))
            (match color item with
             | Some c => if String.eqb c "" then "#00ff41" else c
             | None => "#00ff41"
             end)
            (text item).

(** [run()]: one timeout per entry, all scheduled in one go. *)
Definition run (queue : list Item) : list (N * Child) :=
  fold_left (fun q item => Timers.schedule (delay item) (render item) q) queue [].

(** The children of the terminal once the timeouts up to [t] ms have
    fired. *)
Definition shown_at (t : N) (queue : list Item) : list Child :=
  map snd (List.filter (fun e => (fst e <=? t)%N) (run queue)).

Fixpoint nondecreasing (queue : list Item) : Prop :=
  match queue with
  | a :: (b :: _) as tl => (delay a <= delay b)%N /\ nondecreasing tl
  | _ => True
  end.

End Terminal.

(** ** CV download button *)

Module Download.

(** The two timeouts of the click listener, each with the [orig] its
    closure captured. *)
Inductive Action :=
| ShowReady (orig : string)
| Restore (orig : string).

(** [btn.innerHTML] and the pending timeouts. *)
Record ButtonT := { innerHTML : string; pending : list (N * Action) }.

(** The host runs the earliest pending timeout. *)
Definition fire (ready : string) (b : ButtonT) : ButtonT :=
  match pending b with
  | [] => b
  | (due, ShowReady orig) :: rest =>
      {| innerHTML := ready;
         pending := Timers.schedule (due + 2000) (Restore orig) rest |}
  | (due, Restore orig) :: rest => {| innerHTML := orig; pending := rest |}
  end.

(** Run the timeouts that are due at time [t], at most [fuel] of them. *)
Fixpoint advance (ready : string) (fuel : nat) (t : N) (b : ButtonT) : ButtonT :=
  match fuel with
  | O => b
  | S fuel' =>
      match pending b with
      | (due, _) :: _ => if (due <=? t)%N then advance ready fuel' t (fire ready b) else b
      | [] => b
      end
  end.

(** Every pending timeout fires at most once more after itself. *)
Definition enough (b : ButtonT) : nat := 2 * length (pending b).

(** A click at time [t]: the timeouts due by then have run; the
    listener captures the markup, shows [preparing] and schedules the
    first timeout. *)
Definition click (preparing ready : string) (t : N) (b : ButtonT) : ButtonT :=
  let b1 := advance ready (enough b) t b in
  {| innerHTML := preparing;
     pending := Timers.schedule (t + 1200) (ShowReady (innerHTML b1)) (pending b1) |}.

(** The button once every pending timeout has run. *)
Fixpoint settle (ready : string) (fuel : nat) (b : ButtonT) : ButtonT :=
  match fuel with
  | O => b
  | S fuel' =>
      match pending b with
      | [] => b
      | _ :: _ => settle ready fuel' (fire ready b)
      end
  end.

Definition at_rest (ready : string) (b : ButtonT) : ButtonT := settle ready (enough b) b.

End Download.

(** ** The older script: how far a particle strays *)

Module Stray.
Local Open Scope R_scope.

(** A coordinate [a] with speed [s] on a canvas side of length [w]:
    inside, or at most one step outside and heading back. *)
Definition near (w reach a s : R) : Prop :=
  Rabs s = reach
  /\ ((0 <= a <= w)
      \/ (- reach <= a < 0 /\ 0 < s)
      \/ (w < a <= w + reach /\ s < 0)).

End Stray.

(** ** The older script: the typing headline *)

Module LegacyTyping.
Import Typing.

(** [roleIndex], [charIndex], [isDeleting], in the fields [idx], [c],
    [del]. One call of [typeRole()] on an existing [#heroRole]: the new
    variables, the text written and [typeDelay]. [None] is the
    [TypeError] of [currentRole.substring] on an [undefined] role. *)
Definition typeRole (roles : list Text) (st : TypeWriterT) : option (TypeWriterT * (Text * N)) :=
  match roles !! idx st with
  | None => None
  | Some currentRole =>
      let shown := if del st then substring0 (c st - 1) currentRole
                   else substring0 (c st + 1) currentRole in
      let c1 := if del st then (c st - 1)%Z else (c st + 1)%Z in
      let d := if del st then 50%N else 120%N in
      if negb (del st) && (c1 =? Z.of_nat (length currentRole))%Z
      then Some ({| idx := idx st; c := c1; del := true |}, (shown, 2500%N))
      else if del st && (c1 =? 0)%Z
      then Some ({| idx := (idx st + 1) mod length roles; c := c1; del := false |},
                 (shown, 300%N))
      else Some ({| idx := idx st; c := c1; del := del st |}, (shown, d))
  end.

(** [k] consecutive calls, each scheduled by the previous one. *)
Fixpoint typeRoles (roles : list Text) (k : nat) (st : TypeWriterT)
    : option (TypeWriterT * list (Text * N)) :=
  match k with
  | O => Some (st, [])
  | S k' =>
      match typeRole roles st with
      | None => None
      | Some (st1, out) =>
          match typeRoles roles k' st1 with
          | None => None
          | Some (st2, outs) => Some (st2, out :: outs)
          end
      end
  end.

(** What one round on the role [cur] writes and waits. *)
Definition growing (cur : Text) : list (Text * N) :=
  map (fun k => (firstn k cur, if (k =? length cur)%nat then 2500%N else 120%N))
      (seq 1 (length cur)).

Definition shrinking (cur : Text) : list (Text * N) :=
  map (fun k => (firstn k cur, if (k =? 0)%nat then 300%N else 50%N))
      (rev (seq 0 (length cur))).

End LegacyTyping.

(** ** The particle field in binary64 *)

Module Field64.
Import Capability Binary64.
Local Open Scope Q_scope.

(** The numeric fields of a node; the radius and the colour take no
    part in the motion. *)
Record Node := { x : Q; y : Q; vx : Q; vy : Q; pulse : Q }.
Record Pointer := { mx : Q; my : Q }.

Definition with_vel (vx' vy' : Q) (n : Node) : Node :=
  {| x := x n; y := y n; vx := vx'; vy := vy'; pulse := pulse n |}.

Definition mouseInf (dev : DeviceT) : Q := if isMid dev then 120 else 160.

Section Host.

(** [Math.hypot], which the language leaves to the host
    ("implementation-approximated"). *)
Variable hypot : Q -> Q -> Q.

(** [n.x += n.vx; n.y += n.vy; n.pulse += 0.018] *)
Definition advance (n : Node) : Node :=
  {| x := add (x n) (vx n); y := add (y n) (vy n); vx := vx n; vy := vy n;
     pulse := add (pulse n) (round64 0.018) |}.

(** The "Mouse repulsion" block. *)
Definition repel (dev : DeviceT) (m : Pointer) (n : Node) : Node :=
  let mdx := sub (x n) (mx m) in
  let mdy := sub (y n) (my m) in
  let md := hypot mdx mdy in
  if Qltb md (mouseInf dev) && Qltb 0 md then
    let force := mul (div (sub (mouseInf dev) md) (mouseInf dev)) (round64 0.7) in
    with_vel (add (vx n) (mul (div mdx md) force))
             (add (vy n) (mul (div mdy md) force)) n
  else n.

(** [if (speed > 1.4) { n.vx *= 1.4 / speed; n.vy *= 1.4 / speed; }] *)
Definition limit (n : Node) : Node :=
  let speed := hypot (vx n) (vy n) in
  if Qltb (round64 1.4) speed then
    with_vel (mul (vx n) (div (round64 1.4) speed))
             (mul (vy n) (div (round64 1.4) speed)) n
  else n.

(** Reflection at the canvas edges, then clamping of the position.
    Multiplying a double by -1 changes its sign and nothing else, and
    [Math.max] and [Math.min] return one of their arguments. *)
Definition bounce (w h : N) (n : Node) : Node :=
  let W := inject_Z (Z.of_N w) in
  let H := inject_Z (Z.of_N h) in
  {| x := Qmax 0 (Qmin W (x n));
     y := Qmax 0 (Qmin H (y n));
     vx := if Qltb (x n) 0 || Qltb W (x n) then - vx n else vx n;
     vy := if Qltb (y n) 0 || Qltb H (y n) then - vy n else vy n;
     pulse := pulse n |}.

(** The body of [for (const n of this.nodes)] in [draw]. *)
Definition draw_node (dev : DeviceT) (w h : N) (m : Pointer) (n : Node) : Node :=
  bounce w h (limit (repel dev m (advance n))).

(** The node loop of [draw]: every node of [this.nodes] in turn. *)
Definition draw (dev : DeviceT) (w h : N) (m : Pointer) (nodes : list Node) : list Node :=
  map (draw_node dev w h m) nodes.

End Host.

(** The squared magnitude of the velocity. *)
Definition speed2 (n : Node) : Q := vx n * vx n + vy n * vy n.

(** [Math.hypot] is implementation-approximated. A returned value [h]
    is accurate for the arguments [a] and [b] when it is a finite
    double within a relative 2^-50 (four units in the last place) of
    the square root of a*a + b*b. *)
Definition accurate (h a b : Q) : Prop :=
  0 <= h /\ h < pow2 1024
  /\ (1 - pow2 (-50)) * (1 - pow2 (-50)) * (a * a + b * b) <= h * h
  /\ h * h <= (1 + pow2 (-50)) * (1 + pow2 (-50)) * (a * a + b * b).

Definition cap : Q := 1.4.
Definition tol : Q := pow2 (-49).

(** "After a frame no velocity magnitude exceeds 1.4", as a statement
    about [draw_node] on any host with an accurate [Math.hypot]. *)
Definition speed_stays_within_cap : Prop :=
  forall (hypot : Q -> Q -> Q) (dev : DeviceT) (w h : N) (m : Pointer) (n : Node),
    let a := repel hypot dev m (advance n) in
    accurate (hypot (vx a) (vy a)) (vx a) (vy a) ->
    speed2 (draw_node hypot dev w h m n) <= cap * cap.

(** Sample data: a node at rest and a pointer nine pixels from it. *)
Definition resting : Node := {| x := 500; y := 300; vx := 0; vy := 0; pulse := 0 |}.
Definition nearby : Pointer := {| mx := 499; my := 291 |}.

End Field64.

(** ** Mouse repulsion within a frame *)

Module Repulsion.
Import Capability Field.
Local Open Scope R_scope.

(** What a frame with the pointer at [m] does to a node [n], giving
    [n']: the node is advanced to [a]; at a distance [d] from the
    pointer with [0 < d < mouseInf] its velocity receives
    [force dev d] times the unit vector from the pointer to the node,
    otherwise the repulsion step leaves it as it is; the result [n1]
    then goes through the speed cap and the edge handling. *)
Definition rule (dev : DeviceT) (cv : Canvas) (m : Pointer) (n n' : Node) : Prop :=
  let a := advance n in
  let d := hypot (x a - mx m) (y a - my m) in
  exists n1 n2,
    repel dev m a = Some n1 /\ limit n1 = Some n2 /\ n' = bounce cv n2
    /\ x n1 = x a /\ y n1 = y a
    /\ (0 < d < mouseInf dev ->
          vx n1 = vx a + (x a - mx m) / d * force dev d
          /\ vy n1 = vy a + (y a - my m) / d * force dev d
          /\ hypot (vx n1 - vx a) (vy n1 - vy a) = force dev d
          /\ 0 < force dev d < 0.7)
    /\ (~ (0 < d < mouseInf dev) -> n1 = a).

End Repulsion.

(** * Properties *)

(** ** Capability detector *)

Section CapabilityFacts.
Import Capability.

Lemma Qltb_lt a b : Qltb a b = true <-> (a < b)%Q.
Proof.
  unfold Qltb. rewrite negb_true_iff. split.
  - intros H. apply Qnot_le_lt. intros Hle.
    apply Qle_bool_iff in Hle. congruence.
  - intros H. destruct (Qle_bool b a) eqn:E; [|reflexivity].
    apply Qle_bool_iff in E. exfalso. exact (Qlt_not_le _ _ H E).
Qed.

Lemma reduced_motion_is_low (h : Host) :
  prefersReducedMotion h = true -> isLow (Device h) = true /\ reduced (Device h) = true.
Proof. intros H. unfold Device; simpl. rewrite H. split; reflexivity. Qed.

(** The flags are the three answers of the first-match-wins rule. *)
Lemma Device_refines_spec_tier (h : Host) :
  let d := Device h in
  let t := spec_tier (cores d) (mem d) (innerWidth h) (prefersReducedMotion h) in
  isLow d = tier_eqb t Low /\ isMid d = tier_eqb t Mid /\ isHigh d = tier_eqb t High.
Proof.
  unfold Device, spec_tier; simpl.
  destruct (prefersReducedMotion h), (orN (hardwareConcurrency h) 2 <=? 2)%N,
    (Qltb (orQ (deviceMemory h) 1) 2), (innerWidth h <? 768)%N,
    (orN (hardwareConcurrency h) 2 <=? 4)%N, (Qltb (orQ (deviceMemory h) 1) 4);
    simpl; repeat split; reflexivity.
Qed.

(** C1. The tier flags follow the first-match-wins rule on (cores,
    memory, narrow viewport, reduced motion): Low iff reduced motion or
    cores <= 2 or memory < 2 or (width < 768 and cores <= 4); Mid iff
    not Low and (cores <= 4 or memory < 4 or width < 768); High iff
    neither; cores default to 2 and memory to 1 when the host reports
    nothing. *)
Theorem device_tier_rule :
  forall (hc : option N) (dm : option Q) (w ht : N) (rm : bool),
    let h := {| hardwareConcurrency := hc; deviceMemory := dm;
                innerWidth := w; innerHeight := ht; prefersReducedMotion := rm |} in
    let d := Device h in
    (cores (Device {| hardwareConcurrency := None; deviceMemory := dm;
                      innerWidth := w; innerHeight := ht; prefersReducedMotion := rm |}) = 2%N)
    /\ (mem (Device {| hardwareConcurrency := hc; deviceMemory := None;
                       innerWidth := w; innerHeight := ht; prefersReducedMotion := rm |}) = 1%Q)
    /\ (forall c : positive,
          cores (Device {| hardwareConcurrency := Some (Npos c); deviceMemory := dm;
                           innerWidth := w; innerHeight := ht;
                           prefersReducedMotion := rm |}) = Npos c)
    /\ (forall a b : positive,
          mem (Device {| hardwareConcurrency := hc; deviceMemory := Some (Zpos a # b);
                         innerWidth := w; innerHeight := ht;
                         prefersReducedMotion := rm |}) = Zpos a # b)
    /\ (isLow d = true <->
          rm = true \/ (cores d <= 2)%N \/ (mem d < 2)%Q \/ ((w < 768)%N /\ (cores d <= 4)%N))
    /\ (isMid d = true <->
          isLow d = false /\ ((cores d <= 4)%N \/ (mem d < 4)%Q \/ (w < 768)%N))
    /\ (isHigh d = true <-> isLow d = false /\ isMid d = false).
Proof.
  intros hc dm w ht rm h d.
  split; [reflexivity|]. split; [reflexivity|].
  split. { intros c. reflexivity. }
  split. { intros a b. reflexivity. }
  assert (HL : isLow d = true <->
          rm = true \/ (cores d <= 2)%N \/ (mem d < 2)%Q \/ ((w < 768)%N /\ (cores d <= 4)%N)).
  { unfold d, Device; simpl.
    rewrite !orb_true_iff, andb_true_iff, N.leb_le, N.leb_le, N.ltb_lt, Qltb_lt.
    tauto. }
  split; [exact HL|].
  split.
  - unfold d, Device; simpl.
    rewrite andb_true_iff, negb_true_iff, !orb_true_iff, N.leb_le, N.ltb_lt, Qltb_lt.
    tauto.
  - unfold d, Device; simpl.
    rewrite andb_true_iff, !negb_true_iff. tauto.
Qed.

Lemma device_tier_rule_witness :
  let d := Device {| hardwareConcurrency := Some 8%N; deviceMemory := Some 8%Q;
                     innerWidth := 1920; innerHeight := 1080;
                     prefersReducedMotion := false |} in
  isLow d = false /\ isMid d = false /\ isHigh d = true.
Proof.
  pose proof (device_tier_rule (Some 8%N) (Some 8%Q) 1920 1080 false)
    as (_ & _ & _ & _ & _ & _ & HH).
  cbv zeta in HH. split; [reflexivity|]. split; [reflexivity|].
  apply HH. split; reflexivity.
Defined.

(** C9. Exactly one of [isLow], [isMid], [isHigh] is true, whatever the
    host reports. *)
Theorem device_tier_unique (h : Host) :
  let d := Device h in
  (isLow d = true /\ isMid d = false /\ isHigh d = false)
  \/ (isLow d = false /\ isMid d = true /\ isHigh d = false)
  \/ (isLow d = false /\ isMid d = false /\ isHigh d = true).
Proof.
  unfold Device; simpl.
  destruct (prefersReducedMotion h || (orN (hardwareConcurrency h) 2 <=? 2)%N
            || Qltb (orQ (deviceMemory h) 1) 2
            || (innerWidth h <? 768)%N && (orN (hardwareConcurrency h) 2 <=? 4)%N);
    simpl; [tauto|].
  destruct ((orN (hardwareConcurrency h) 2 <=? 4)%N
            || Qltb (orQ (deviceMemory h) 1) 4 || (innerWidth h <? 768)%N);
    simpl; tauto.
Qed.

End CapabilityFacts.

(** ** Throttled animation frames *)

Section ThrottleFacts.
Import Throttle.

Lemma loop_fires st now :
  snd (loop st now) = true <-> (interval st <= now - last st)%Q.
Proof.
  unfold loop. destruct (Qle_bool (interval st) (now - last st)) eqn:E; simpl.
  - apply Qle_bool_iff in E. tauto.
  - split; [discriminate|]. intros H. apply Qle_bool_iff in H. congruence.
Qed.

Lemma loop_baseline st now :
  last (fst (loop st now)) = (if snd (loop st now) then now else last st)
  /\ interval (fst (loop st now)) = interval st.
Proof.
  unfold loop. destruct (Qle_bool (interval st) (now - last st)); simpl; tauto.
Qed.

Lemma last_nonempty_default {A} (a : A) (l : list A) (d d' : A) :
  List.last (a :: l) d = List.last (a :: l) d'.
Proof.
  revert a. induction l as [|b l IH]; intros a; [reflexivity|].
  change (List.last (b :: l) d = List.last (b :: l) d'). apply IH.
Qed.

(** [last] is the timestamp of the most recent invocation, or the
    initial baseline when there was none. *)
Lemma final_last st ticks :
  last (final st ticks) = List.last (invocations st ticks) (last st).
Proof.
  revert st. induction ticks as [|now rest IH]; intros st; simpl; [reflexivity|].
  rewrite IH. unfold loop.
  destruct (Qle_bool (interval st) (now - last st)); simpl; [|reflexivity].
  destruct (invocations _ rest); [reflexivity|].
  apply last_nonempty_default.
Qed.

Lemma invocations_spaced_from st ticks :
  spaced (interval st) (last st :: invocations st ticks).
Proof.
  revert st. induction ticks as [|now rest IH]; intros st; simpl; [exact I|].
  unfold loop. destruct (Qle_bool (interval st) (now - last st)) eqn:E.
  - split; [apply Qle_bool_iff; exact E|].
    exact (IH {| interval := interval st; last := now |}).
  - exact (IH st).
Qed.

Lemma invocations_spaced st ticks :
  spaced (interval st) (invocations st ticks).
Proof.
  pose proof (invocations_spaced_from st ticks) as H. simpl in H.
  destruct (invocations st ticks); [exact I|]. tauto.
Qed.

(** Ticks spaced by the interval, the first one counted from the
    baseline, all fire. *)
Lemma run_all_fire st ticks :
  spaced (interval st) (last st :: ticks) ->
  run st ticks = repeat true (length ticks).
Proof.
  revert st. induction ticks as [|now rest IH]; intros st H; simpl; [reflexivity|].
  destruct H as [H1 H2].
  unfold loop. apply Qle_bool_iff in H1. rewrite H1. simpl. f_equal.
  apply IH. simpl. exact H2.
Qed.

Lemma final_interval st ticks : interval (final st ticks) = interval st.
Proof.
  revert st. induction ticks as [|now rest IH]; intros st; simpl; [reflexivity|].
  rewrite IH. apply loop_baseline.
Qed.

Lemma Qle_bool_since_origin d t : Qle_bool d (t - 0) = Qle_bool d t.
Proof.
  assert (E : (t - 0 == t)%Q) by ring.
  destruct (Qle_bool d t) eqn:H.
  - apply Qle_bool_iff. apply Qle_bool_iff in H. rewrite E. exact H.
  - destruct (Qle_bool d (t - 0)) eqn:H'; [|reflexivity].
    apply Qle_bool_iff in H'. rewrite E in H'. apply Qle_bool_iff in H'. congruence.
Qed.

(** With ticks spaced by the interval, only the very first tick can be
    skipped: it is measured against the initial baseline [0]. *)
Lemma run_spaced_from_origin fps t0 rest :
  (0 <= t0)%Q ->
  spaced (1000 / fps) (t0 :: rest) ->
  run (createThrottledRAF fps) (t0 :: rest)
  = Qle_bool (1000 / fps) t0 :: repeat true (length rest).
Proof.
  intros H0 Hsp. simpl. unfold loop. simpl.
  rewrite Qle_bool_since_origin.
  destruct (Qle_bool (1000 / fps) t0) eqn:E; f_equal.
  - apply run_all_fire. exact Hsp.
  - apply run_all_fire. simpl. destruct rest as [|t1 rest']; [exact I|].
    destruct Hsp as [H1 H2]. split; [|exact H2].
    simpl. apply Qle_trans with (t1 - t0)%Q; [exact H1|].
    unfold Qminus. apply Qplus_le_r. apply Qopp_le_compat. exact H0.
Qed.

(** C2, counterexample. At 30 fps a first native tick 5 ms after the
    time origin is skipped although the ticks are 35 ms apart: the
    baseline starts at [0], not at the first tick. *)
Lemma throttle_first_tick_skipped :
  increasing [5; 40]%Q
  /\ spaced (1000 / 30) [5; 40]%Q
  /\ run (createThrottledRAF 30) [5; 40]%Q = [false; true]
  /\ ~ fires_on_every_spaced_tick.
Proof.
  assert (Hi : increasing [5; 40]%Q) by (simpl; split; [reflexivity|exact I]).
  assert (Hs : spaced (1000 / 30) [5; 40]%Q) by (simpl; split; [discriminate|exact I]).
  split; [exact Hi|]. split; [exact Hs|]. split; [reflexivity|].
  intros H. specialize (H 30%Q [5; 40]%Q eq_refl Hi Hs). discriminate H.
Qed.

(** C2, amended. On any tick the callback runs exactly when the time
    since the baseline (the last invocation, or [0] before the first
    one) is at least [1000/targetFPS], and the tick then becomes the
    baseline; consecutive invocations are at least [1000/targetFPS]
    apart; with native ticks at least [1000/targetFPS] apart every tick
    fires, except that the first one fires only if its own timestamp is
    at least [1000/targetFPS]. *)
Theorem throttle_rate_limit (fps : Q) (ticks : list Q) :
  (0 < fps)%Q -> increasing ticks ->
  let st0 := createThrottledRAF fps in
  (forall (pre : list Q) (now : Q) (post : list Q), ticks = (pre ++ now :: post)%list ->
     let st := final st0 pre in
     last st = List.last (invocations st0 pre) 0
     /\ (snd (loop st now) = true <-> (1000 / fps <= now - last st)%Q)
     /\ last (fst (loop st now)) = (if snd (loop st now) then now else last st))
  /\ spaced (1000 / fps) (invocations st0 ticks)
  /\ (forall t0 rest, ticks = t0 :: rest -> (0 <= t0)%Q -> spaced (1000 / fps) ticks ->
        run st0 ticks = Qle_bool (1000 / fps) t0 :: repeat true (length rest)).
Proof.
  intros Hfps Hinc st0. split; [|split].
  - intros pre now post _ st. split; [|split].
    + unfold st. rewrite final_last. reflexivity.
    + rewrite loop_fires. unfold st. rewrite final_interval. reflexivity.
    + apply loop_baseline.
  - exact (invocations_spaced st0 ticks).
  - intros t0 rest -> H0 Hsp. apply run_spaced_from_origin; assumption.
Qed.

Lemma throttle_rate_limit_witness :
  spaced (1000 / 30) (invocations (createThrottledRAF 30) [5; 40; 50; 75]%Q)
  /\ run (createThrottledRAF 30) [5; 40; 75]%Q = [false; true; true].
Proof.
  assert (H1 : (0 < 30)%Q) by reflexivity.
  assert (H2 : increasing [5; 40; 50; 75]%Q) by (simpl; repeat split).
  assert (H3 : increasing [5; 40; 75]%Q) by (simpl; repeat split).
  split.
  - exact (proj1 (proj2 (throttle_rate_limit 30 [5; 40; 50; 75]%Q H1 H2))).
  - refine (proj2 (proj2 (throttle_rate_limit 30 [5; 40; 75]%Q H1 H3)) 5 [40; 75]%Q eq_refl _ _).
    + discriminate.
    + simpl. repeat split; discriminate.
Defined.

End ThrottleFacts.

(** ** Particle field: arithmetic *)

Section FieldArithmetic.
Import Capability Field.
Local Open Scope R_scope.

Lemma Rltb_true a b : Rltb a b = true <-> a < b.
Proof. unfold Rltb. destruct (Rlt_dec a b); split; intros; try tauto; discriminate. Qed.

Lemma Rltb_false a b : Rltb a b = false <-> b <= a.
Proof.
  unfold Rltb. destruct (Rlt_dec a b); split; intros H;
    try discriminate; try lra; reflexivity.
Qed.

Lemma NR_nonneg n : 0 <= NR n.
Proof. unfold NR. apply IZR_le. lia. Qed.

Lemma hypot_nonneg a b : 0 <= hypot a b.
Proof. apply sqrt_pos. Qed.

Lemma hypot_sqr a b : hypot a b * hypot a b = a * a + b * b.
Proof. unfold hypot. apply sqrt_def. nra. Qed.

Lemma hypot_zero a b : hypot a b = 0 <-> a = 0 /\ b = 0.
Proof.
  split.
  - intros H. pose proof (hypot_sqr a b) as E. rewrite H in E. split; nra.
  - intros [-> ->]. unfold hypot. replace (0 * 0 + 0 * 0) with 0 by ring. apply sqrt_0.
Qed.

Lemma hypot_scale a b k : 0 <= k -> hypot (a * k) (b * k) = k * hypot a b.
Proof.
  intros Hk. unfold hypot.
  replace (a * k * (a * k) + b * k * (b * k)) with (k * k * (a * a + b * b)) by ring.
  rewrite sqrt_mult by nra. rewrite sqrt_square by exact Hk. reflexivity.
Qed.

Lemma hypot_flip_l a b : hypot (a * -1) b = hypot a b.
Proof. unfold hypot. f_equal. ring. Qed.

Lemma hypot_flip_r a b : hypot a (b * -1) = hypot a b.
Proof. unfold hypot. f_equal. ring. Qed.

Lemma divide_nonzero a b : b <> 0 -> divide a b = Some (a / b).
Proof. intros H. unfold divide. destruct (Req_dec_T b 0); [contradiction|reflexivity]. Qed.

Lemma mouseInf_pos dev : 0 < mouseInf dev.
Proof. unfold mouseInf. destruct (isMid dev); lra. Qed.

Lemma mouseInf_le dev : mouseInf dev <= 160.
Proof. unfold mouseInf. destruct (isMid dev); lra. Qed.

(** *** Mouse repulsion *)

Lemma repel_guard dev m n :
  let md := hypot (x n - mx m) (y n - my m) in
  Rltb md (mouseInf dev) && Rgtb md 0 = true <-> 0 < md < mouseInf dev.
Proof.
  intros md. unfold Rgtb. rewrite andb_true_iff, !Rltb_true. tauto.
Qed.

Lemma repel_inside dev m n :
  let md := hypot (x n - mx m) (y n - my m) in
  0 < md < mouseInf dev ->
  repel dev m n
  = Some (with_vel (vx n + (x n - mx m) / md * force dev md)
                   (vy n + (y n - my m) / md * force dev md) n).
Proof.
  intros md H. unfold repel. fold md.
  destruct (Rltb md (mouseInf dev) && Rgtb md 0) eqn:G.
  - rewrite (divide_nonzero _ (mouseInf dev)) by lra. simpl.
    rewrite !(divide_nonzero _ md) by lra. reflexivity.
  - apply (repel_guard dev m n) in H. fold md in H. congruence.
Qed.

Lemma repel_outside dev m n :
  let md := hypot (x n - mx m) (y n - my m) in
  ~ (0 < md < mouseInf dev) ->
  repel dev m n = Some n.
Proof.
  intros md H. unfold repel. fold md.
  destruct (Rltb md (mouseInf dev) && Rgtb md 0) eqn:G; [|reflexivity].
  apply (repel_guard dev m n) in G. contradiction.
Qed.

Lemma force_pos dev md : md < mouseInf dev -> 0 < force dev md.
Proof.
  intros H. unfold force. pose proof (mouseInf_pos dev) as Hp.
  apply Rmult_lt_0_compat; [|lra].
  apply Rdiv_lt_0_compat; lra.
Qed.

Lemma impulse_magnitude dx dy f :
  0 < hypot dx dy -> 0 <= f ->
  hypot (dx / hypot dx dy * f) (dy / hypot dx dy * f) = f.
Proof.
  intros Hd Hf. set (d := hypot dx dy) in *.
  replace (dx / d * f) with (dx * (f / d)) by (field; lra).
  replace (dy / d * f) with (dy * (f / d)) by (field; lra).
  rewrite hypot_scale.
  - fold d. field. lra.
  - apply Rle_mult_inv_pos; lra.
Qed.

Lemma repel_keeps_position dev m n n' :
  repel dev m n = Some n' -> x n' = x n /\ y n' = y n.
Proof.
  pose proof (Rle_lt_dec (mouseInf dev) (hypot (x n - mx m) (y n - my m))) as [H|H].
  - rewrite repel_outside by (cbv zeta; lra). intros [= <-]. tauto.
  - pose proof (hypot_nonneg (x n - mx m) (y n - my m)) as [H0|H0].
    + rewrite repel_inside by (cbv zeta; lra). intros [= <-]. simpl. tauto.
    + rewrite repel_outside by (cbv zeta; lra). intros [= <-]. tauto.
Qed.

Lemma repel_total dev m n : exists n', repel dev m n = Some n'.
Proof.
  pose proof (Rle_lt_dec (mouseInf dev) (hypot (x n - mx m) (y n - my m))) as [H|H].
  - eexists. apply repel_outside. cbv zeta. lra.
  - pose proof (hypot_nonneg (x n - mx m) (y n - my m)) as [H0|H0].
    + eexists. apply repel_inside. cbv zeta. lra.
    + eexists. apply repel_outside. cbv zeta. lra.
Qed.

(** *** Speed limit *)

Lemma limit_above n :
  1.4 < speed n ->
  limit n = Some (with_vel (vx n * (1.4 / speed n)) (vy n * (1.4 / speed n)) n).
Proof.
  intros H. unfold limit, Rgtb. fold (speed n).
  apply Rltb_true in H. rewrite H.
  apply Rltb_true in H.
  rewrite divide_nonzero by lra. reflexivity.
Qed.

Lemma limit_below n : speed n <= 1.4 -> limit n = Some n.
Proof.
  intros H. unfold limit, Rgtb. fold (speed n).
  apply Rltb_false in H. rewrite H. reflexivity.
Qed.

Lemma limit_speed n :
  exists n', limit n = Some n' /\ speed n' = Rmin (speed n) 1.4
             /\ x n' = x n /\ y n' = y n.
Proof.
  destruct (Rle_lt_dec (speed n) 1.4) as [H|H].
  - exists n. rewrite limit_below by exact H. rewrite Rmin_left by exact H. tauto.
  - eexists. split; [apply limit_above; exact H|].
    split; [|simpl; tauto].
    rewrite Rmin_right by lra. unfold speed at 1. simpl.
    rewrite hypot_scale.
    + fold (speed n). field. lra.
    + apply Rle_mult_inv_pos; lra.
Qed.

(** *** Edges *)

Lemma advance_speed n : speed (advance n) = speed n.
Proof. reflexivity. Qed.

Lemma bounce_speed cv n : speed (bounce cv n) = speed n.
Proof.
  unfold speed, bounce; simpl.
  destruct (Rltb (x n) 0 || Rgtb (x n) (NR (width cv)));
    destruct (Rltb (y n) 0 || Rgtb (y n) (NR (height cv)));
    rewrite ?hypot_flip_l, ?hypot_flip_r; reflexivity.
Qed.

Lemma clamp_range w a : 0 <= w -> 0 <= Rmax 0 (Rmin w a) <= w.
Proof.
  intros H. split; [apply Rmax_l|].
  apply Rmax_lub; [exact H|apply Rmin_l].
Qed.

Lemma bounce_in_bounds cv n : in_bounds cv (bounce cv n).
Proof.
  unfold in_bounds, bounce; simpl.
  split; apply clamp_range; apply NR_nonneg.
Qed.


End FieldArithmetic.

(** ** Particle field: one frame, many frames *)

Section FieldFrames.
Import Capability Field.
Local Open Scope R_scope.

Variable dev : DeviceT.

(** The three phases of [draw_node], with what each one guarantees. *)
Lemma draw_node_phases cv m n :
  exists n1 n2,
    repel dev m (advance n) = Some n1
    /\ limit n1 = Some n2
    /\ draw_node dev cv m n = Some (bounce cv n2)
    /\ speed n2 = Rmin (speed n1) 1.4
    /\ x n2 = x n + vx n /\ y n2 = y n + vy n.
Proof.
  destruct (repel_total dev m (advance n)) as [n1 H1].
  destruct (limit_speed n1) as (n2 & H2 & Hs & Hx & Hy).
  destruct (repel_keeps_position _ _ _ _ H1) as [Hx1 Hy1].
  exists n1, n2. unfold draw_node. rewrite H1. simpl. rewrite H2. simpl.
  repeat split; try assumption.
  - rewrite Hx, Hx1. reflexivity.
  - rewrite Hy, Hy1. reflexivity.
Qed.

Lemma mapM_establishes {A B} (f : A -> option B) (P : B -> Prop) (l : list A) :
  (forall a, exists b, f a = Some b /\ P b) ->
  exists l', mapM f l = Some l' /\ Forall P l'.
Proof.
  intros Hf. induction l as [|a l (l' & E & HP)].
  - exists []. split; [reflexivity|constructor].
  - destruct (Hf a) as (b & Eb & Pb). exists (b :: l').
    split; [|constructor; assumption].
    simpl. rewrite Eb. simpl. rewrite E. reflexivity.
Qed.

Lemma draw_establishes (P : Canvas -> Node -> Prop) st :
  (forall cv m n, exists n', draw_node dev cv m n = Some n' /\ P cv n') ->
  exists st', draw dev st = Some st'
              /\ canvas st' = canvas st /\ mouse st' = mouse st
              /\ Forall (P (canvas st')) (nodes st').
Proof.
  intros H.
  destruct (mapM_establishes (draw_node dev (canvas st) (mouse st)) (P (canvas st))
              (nodes st) (H _ _)) as (ns & E & HP).
  eexists. unfold draw. rewrite E. simpl. split; [reflexivity|].
  simpl. auto.
Qed.

Lemma draw_node_total cv m n : exists n', draw_node dev cv m n = Some n' /\ True.
Proof.
  destruct (draw_node_phases cv m n) as (n1 & n2 & _ & _ & E & _). eauto.
Qed.





Lemma draw_node_speed cv m n :
  exists n', draw_node dev cv m n = Some n' /\ speed n' <= 1.4.
Proof.
  destruct (draw_node_phases cv m n) as (n1 & n2 & _ & _ & E & Hs & _).
  eexists. split; [exact E|]. rewrite bounce_speed, Hs. apply Rmin_r.
Qed.


End FieldFrames.

Section FieldTheorems.
Import Capability Field.
Local Open Scope R_scope.



(** C10. The repulsion step always produces a node, that is, none of
    its divisions has a zero divisor, and so does the whole frame; with
    the pointer exactly on the node the step returns the node as it
    was. *)
Theorem repulsion_never_divides_by_zero (dev : DeviceT) :
  (forall m n, exists n', repel dev m n = Some n')
  /\ (forall n, repel dev {| mx := x n; my := y n |} n = Some n)
  /\ (forall cv m n, exists n', draw_node dev cv m n = Some n')
  /\ (forall st, exists st', draw dev st = Some st').
Proof.
  split; [|split; [|split]].
  - exact (repel_total dev).
  - intros n. apply repel_outside. simpl.
    replace (hypot (x n - x n) (y n - y n)) with 0; [lra|].
    symmetry. apply hypot_zero. split; ring.
  - intros cv m n. destruct (draw_node_total dev cv m n) as (n' & E & _). eauto.
  - intros st.
    destruct (draw_establishes dev (fun _ _ => True) st (draw_node_total dev))
      as (st' & E & _). eauto.
Qed.

Lemma repulsion_never_divides_by_zero_witness :
  repel (Device desktop) {| mx := 10; my := 20 |} (still 10 20) = Some (still 10 20).
Proof.
  exact (proj1 (proj2 (repulsion_never_divides_by_zero (Device desktop))) (still 10 20)).
Defined.

Lemma hypot_ge_l a b : 0 <= a -> a <= hypot a b.
Proof.
  intros Ha. pose proof (hypot_sqr a b) as E. pose proof (hypot_nonneg a b) as H.
  nra.
Qed.

Lemma component_le_speed n : - speed n <= vx n /\ - speed n <= vy n.
Proof.
  pose proof (hypot_sqr (vx n) (vy n)) as E.
  pose proof (hypot_nonneg (vx n) (vy n)) as H.
  unfold speed. split; nra.
Qed.

(** From the sentinel every point whose abscissa is above [-9800] is
    out of reach. *)
Lemma sentinel_out_of_reach dev n :
  -9800 <= x n -> repel dev sentinel n = Some n.
Proof.
  intros Hx. apply repel_outside. simpl.
  pose proof (hypot_ge_l (x n - -9999) (y n - -9999)) as H.
  pose proof (mouseInf_le dev). lra.
Qed.

(** With the pointer parked at the sentinel, a frame only advances and
    bounces a settled node. *)
Lemma sentinel_frame dev cv n :
  settled cv n -> draw_node dev cv sentinel n = Some (bounce cv (advance n)).
Proof.
  intros [[[Hx _] _] Hs]. unfold draw_node.
  rewrite sentinel_out_of_reach.
  - simpl. rewrite limit_below; [reflexivity|exact Hs].
  - simpl. pose proof (component_le_speed n). lra.
Qed.

Lemma unit_range_tail g : unit_range g -> unit_range (snd (Math_random g)).
Proof. intros H i. apply H. Qed.

Lemma spawnNode_settled dev cv g :
  unit_range g ->
  settled cv (fst (spawnNode dev cv g)) /\ unit_range (snd (spawnNode dev cv g)).
Proof.
  intros H. unfold spawnNode, Math_random; simpl. split; [|intros i; apply H].
  pose proof (H 0%nat) as H0. pose proof (H 1%nat) as H1.
  pose proof (H 2%nat) as H2. pose proof (H 3%nat) as H3.
  pose proof (NR_nonneg (width cv)). pose proof (NR_nonneg (height cv)).
  split; [split; simpl; nra|].
  unfold speed; simpl.
  set (c := if isMid dev then 0.25 else 0.35).
  assert (Hc : 0 <= c <= 0.35) by (unfold c; destruct (isMid dev); lra).
  set (a := (g 2%nat - 0.5) * c). set (b := (g 3%nat - 0.5) * c).
  assert (Ha : -0.175 <= a <= 0.175) by (unfold a; nra).
  assert (Hb : -0.175 <= b <= 0.175) by (unfold b; nra).
  pose proof (hypot_sqr a b). pose proof (hypot_nonneg a b). nra.
Qed.

Lemma Array_from_establishes {A} (f : Rng -> A * Rng) (P : A -> Prop) :
  (forall g, unit_range g -> P (fst (f g)) /\ unit_range (snd (f g))) ->
  forall count g, unit_range g -> Forall P (fst (Array_from count f g)).
Proof.
  intros Hf count. induction count as [|k IH]; intros g Hg; simpl; [constructor|].
  destruct (Hf g Hg) as [Pa Hg1]. destruct (f g) as [a g1]. simpl in *.
  specialize (IH g1 Hg1). destruct (Array_from k f g1) as [rest g2]. simpl in *.
  constructor; assumption.
Qed.

(** Freshly spawned nodes are settled. *)
Lemma spawnNodes_settled dev h cv g :
  unit_range g -> Forall (settled cv) (fst (spawnNodes dev h cv g)).
Proof.
  intros Hg. unfold spawnNodes.
  apply Array_from_establishes; [|exact Hg].
  intros g0. apply spawnNode_settled.
Qed.

Lemma draw_node_settled dev cv m n :
  exists n', draw_node dev cv m n = Some n' /\ settled cv n'.
Proof.
  destruct (draw_node_phases dev cv m n) as (n1 & n2 & _ & _ & E & Hs & _).
  eexists. split; [exact E|]. split; [apply bounce_in_bounds|].
  rewrite bounce_speed, Hs. apply Rmin_r.
Qed.

(** Settledness is an invariant of the field: frames establish it,
    pointer events leave the nodes alone, and a resize spawns settled
    nodes as long as [Math.random] stays in its range. *)
Lemma handle_keeps_settled dev st e st' :
  (forall h g, e = Resized h g -> unit_range g) ->
  Forall (settled (canvas st)) (nodes st) ->
  handle dev st e = Some st' ->
  Forall (settled (canvas st')) (nodes st').
Proof.
  intros Hg Hst. destruct e as [|cx cy| |cx cy|h g]; simpl.
  - destruct (draw_establishes dev settled st (draw_node_settled dev))
      as (st1 & E & _ & _ & H1).
    rewrite E. intros [= <-]. exact H1.
  - destruct (mobile dev); intros [= <-]; exact Hst.
  - destruct (mobile dev); intros [= <-]; exact Hst.
  - destruct (mobile dev); intros [= <-]; exact Hst.
  - intros [= <-]. simpl. apply spawnNodes_settled. exact (Hg h g eq_refl).
Qed.

Lemma force_below dev md : 0 < md -> force dev md < 0.7.
Proof.
  intros H. unfold force. pose proof (mouseInf_pos dev) as Hp.
  assert (Hq : (mouseInf dev - md) / mouseInf dev < 1).
  { apply (Rmult_lt_reg_r (mouseInf dev)); [exact Hp|].
    unfold Rdiv. rewrite Rmult_assoc, Rinv_l by lra. lra. }
  lra.
Qed.

Lemma draw_node_rule dev cv m n :
  exists n', draw_node dev cv m n = Some n' /\ Repulsion.rule dev cv m n n'.
Proof.
  destruct (draw_node_phases dev cv m n) as (n1 & n2 & E1 & E2 & E & _).
  destruct (repel_keeps_position _ _ _ _ E1) as [Hx Hy].
  exists (bounce cv n2). split; [exact E|].
  exists n1, n2. cbv zeta.
  set (a := advance n) in *. clearbody a.
  pose proof (repel_inside dev m a) as Rin. pose proof (repel_outside dev m a) as Rout.
  cbv zeta in Rin, Rout.
  remember (hypot (x a - mx m) (y a - my m)) as d eqn:Ed.
  split; [exact E1|]. split; [exact E2|]. split; [reflexivity|].
  split; [exact Hx|]. split; [exact Hy|]. split.
  - intros Hd. rewrite (Rin Hd) in E1. clear Rin Rout E2 E Hx Hy.
    assert (En : n1 = with_vel (vx a + (x a - mx m) / d * force dev d)
                               (vy a + (y a - my m) / d * force dev d) a) by congruence.
    rewrite En. unfold with_vel. cbn [vx vy].
    split; [reflexivity|]. split; [reflexivity|].
    split; [|split; [apply force_pos|apply force_below]; lra].
    replace (vx a + (x a - mx m) / d * force dev d - vx a)
      with ((x a - mx m) / d * force dev d) by ring.
    replace (vy a + (y a - my m) / d * force dev d - vy a)
      with ((y a - my m) / d * force dev d) by ring.
    pose proof (impulse_magnitude (x a - mx m) (y a - my m) (force dev d)) as IM.
    rewrite <- Ed in IM. apply IM; [apply Hd|].
    left. apply force_pos. apply Hd.
  - intros Hd. rewrite (Rout Hd) in E1. congruence.
Qed.

Lemma mapM_pointwise {A B} (f : A -> option B) (Q : A -> B -> Prop) (l : list A) :
  (forall a, exists b, f a = Some b /\ Q a b) ->
  exists l', mapM f l = Some l' /\ Forall2 Q l l'.
Proof.
  intros Hf. induction l as [|a l (l' & E & HQ)].
  - exists []. split; [reflexivity|constructor].
  - destruct (Hf a) as (b & Eb & Qb). exists (b :: l').
    split; [simpl; rewrite Eb; simpl; rewrite E; reflexivity|].
    constructor; assumption.
Qed.

Lemma sentinel_frames dev cv ns :
  Forall (settled cv) ns ->
  mapM (draw_node dev cv sentinel) ns = Some (map (fun n => bounce cv (advance n)) ns).
Proof.
  induction 1 as [|n ns Hn _ IH]; [reflexivity|].
  simpl. rewrite (sentinel_frame dev cv n Hn). simpl. rewrite IH. reflexivity.
Qed.

(** C6. A frame passes every node, once advanced, through the
    repulsion step against the current pointer, then through the speed
    cap and the edge handling. The repulsion step changes the node's
    velocity exactly when its distance [d] to the pointer satisfies
    [0 < d < mouseInf]; the change is [force] = ((mouseInf - d) /
    mouseInf) * 0.7 times the unit vector from the pointer to the node,
    so its magnitude is [force]; at distance 0, or [mouseInf] or more,
    the step leaves the node as it is. With the pointer at the
    sentinel, where [mouseleave] puts it, a frame only advances and
    bounces the nodes that lie inside the canvas with a speed within
    the cap. *)
Theorem mouse_impulse_rule (dev : DeviceT) (st : Net) :
  let m := mouse st in
  let cv := canvas st in
  (exists st', draw dev st = Some st'
     /\ canvas st' = cv /\ mouse st' = m
     /\ Forall2 (Repulsion.rule dev cv m) (nodes st) (nodes st'))
  /\ (forall n, exists n', draw_node dev cv m n = Some n' /\ Repulsion.rule dev cv m n n')
  /\ (m = sentinel -> Forall (settled cv) (nodes st) ->
        draw dev st
        = Some {| canvas := cv;
                  nodes := map (fun n => bounce cv (advance n)) (nodes st);
                  mouse := sentinel |})
  /\ (mobile dev = false -> Forall (settled cv) (nodes st) ->
        handle_all dev st [MouseLeave; Frame]
        = Some {| canvas := cv;
                  nodes := map (fun n => bounce cv (advance n)) (nodes st);
                  mouse := sentinel |}).
Proof.
  intros m cv. split; [|split; [|split]].
  - destruct (mapM_pointwise (draw_node dev cv m) (Repulsion.rule dev cv m) (nodes st)
                (draw_node_rule dev cv m)) as (ns & E & HQ).
    eexists. unfold draw. fold cv m. rewrite E. simpl.
    split; [reflexivity|]. simpl. auto.
  - apply draw_node_rule.
  - intros Hm Hs. unfold draw. fold cv m. rewrite Hm.
    rewrite (sentinel_frames dev cv (nodes st) Hs). reflexivity.
  - intros Hm Hs. simpl. rewrite Hm. simpl. unfold draw. simpl. fold cv.
    rewrite (sentinel_frames dev cv (nodes st) Hs). reflexivity.
Qed.

Lemma hypot_3_4 : hypot 3 4 = 5.
Proof.
  unfold hypot. replace (3 * 3 + 4 * 4) with (5 * 5) by lra.
  apply sqrt_square. lra.
Qed.

Lemma mouse_impulse_rule_witness :
  let dev := Device desktop in
  let cv := {| width := 1024; height := 768 |} in
  (exists n1,
      repel dev {| mx := 0; my := 0 |} (advance (still 3 4)) = Some n1
      /\ vx n1 = 3 / 5 * force dev 5 /\ vy n1 = 4 / 5 * force dev 5
      /\ hypot (vx n1) (vy n1) = force dev 5)
  /\ draw dev {| canvas := cv; nodes := [still 10 20]; mouse := sentinel |}
     = Some {| canvas := cv; nodes := [bounce cv (advance (still 10 20))];
               mouse := sentinel |}.
Proof.
  intros dev cv. split.
  - destruct (proj1 (proj2 (mouse_impulse_rule dev
        {| canvas := cv; nodes := []; mouse := {| mx := 0; my := 0 |} |})) (still 3 4))
      as (n' & _ & n1 & n2 & E1 & _ & _ & _ & _ & Hin & _).
    exists n1. split; [exact E1|].
    cbn [advance still with_pos x y vx vy mx my canvas mouse] in Hin.
    replace (3 + 0 - 0) with 3 in Hin by lra.
    replace (4 + 0 - 0) with 4 in Hin by lra.
    rewrite hypot_3_4 in Hin.
    assert (Hd : 0 < 5 < mouseInf dev) by (change (mouseInf dev) with 160; lra).
    destruct (Hin Hd) as (Hx & Hy & Hh & _).
    rewrite Hx, Hy. split; [lra|]. split; [lra|].
    rewrite <- Hh. f_equal; lra.
  - refine (proj1 (proj2 (proj2 (mouse_impulse_rule dev
        {| canvas := cv; nodes := [still 10 20]; mouse := sentinel |}))) eq_refl _).
    constructor; [|constructor]. split.
    + unfold in_bounds, NR. simpl. lra.
    + unfold speed. simpl. rewrite (proj2 (hypot_zero 0 0)) by tauto. lra.
Defined.

Lemma Array_from_length {A} (f : Rng -> A * Rng) count g :
  length (fst (Array_from count f g)) = count.
Proof.
  revert g. induction count as [|k IH]; intros g; simpl; [reflexivity|].
  destruct (f g) as [a g1]. specialize (IH g1).
  destruct (Array_from k f g1) as [rest g2]. simpl in *. congruence.
Qed.

Lemma spawnNodes_length dev h cv g :
  length (fst (spawnNodes dev h cv g))
  = N.to_nat (node_count dev (innerWidth h) (innerHeight h)).
Proof. unfold spawnNodes. apply Array_from_length. Qed.

Lemma high_is_not_mid h : isHigh (Device h) = true -> isMid (Device h) = false.
Proof.
  unfold Device; simpl. rewrite andb_true_iff, !negb_true_iff. tauto.
Qed.

(** C4. The node count is min(floor(width*height / density), cap), with
    density 28000 and cap 40 on the Mid tier and density 12000 and cap
    90 on the High tier; it depends on the viewport only through its
    area and on the device only through the tier flag; it is 65 for
    1024 x 768 on a High-tier device; and spawning twice for one
    viewport gives lists of that same length whatever the random
    numbers are. *)
Theorem node_count_rule (h0 : Host) (w ht : N) :
  let dev := Device h0 in
  (isMid dev = true -> node_count dev w ht = N.min (w * ht / 28000) 40)
  /\ (isHigh dev = true -> node_count dev w ht = N.min (w * ht / 12000) 90)
  /\ (forall dev' w' ht', isMid dev' = isMid dev -> (w' * ht' = w * ht)%N ->
        node_count dev' w' ht' = node_count dev w ht)
  /\ (isHigh (Device desktop) = true /\ node_count (Device desktop) 1024 768 = 65%N)
  /\ (forall h cv g,
        length (fst (spawnNodes dev h cv g))
        = N.to_nat (node_count dev (innerWidth h) (innerHeight h)))
  /\ (forall st h g1 g2, exists st1 st2,
        handle dev st (Resized h g1) = Some st1
        /\ handle dev st1 (Resized h g2) = Some st2
        /\ length (nodes st1) = length (nodes st2)
        /\ length (nodes st2)
           = N.to_nat (node_count dev (innerWidth h) (innerHeight h))).
Proof.
  intros dev. split; [|split; [|split; [|split; [|split]]]].
  - intros H. unfold node_count. rewrite H. reflexivity.
  - intros H. apply high_is_not_mid in H. unfold node_count. fold dev in H.
    rewrite H. reflexivity.
  - intros dev' w' ht' Hm Ha. unfold node_count. rewrite Hm, Ha. reflexivity.
  - split; reflexivity.
  - intros h cv g. apply spawnNodes_length.
  - intros st h g1 g2. simpl. eexists. eexists.
    split; [reflexivity|]. split; [reflexivity|]. simpl.
    rewrite !spawnNodes_length. split; reflexivity.
Qed.

Lemma node_count_rule_witness :
  node_count (Device desktop) 1920 1080 = N.min (1920 * 1080 / 12000) 90.
Proof.
  exact (proj1 (proj2 (node_count_rule desktop 1920 1080)) eq_refl).
Defined.

End FieldTheorems.

(** ** Binary64 rounding *)

Section RoundingFacts.
Import Binary64.
Local Open Scope Q_scope.

Lemma pow2_pos e : 0 < pow2 e.
Proof. apply Qpower_0_lt. reflexivity. Qed.

Lemma pow2_add a b : pow2 (a + b) == pow2 a * pow2 b.
Proof. apply Qpower_plus. discriminate. Qed.

Lemma pow2_Z n : (0 <= n)%Z -> pow2 n == inject_Z (2 ^ n).
Proof. intros H. symmetry. apply (Zpower_Qpower 2 n H). Qed.

Lemma pow2_le a b : (a <= b)%Z -> pow2 a <= pow2 b.
Proof. intros H. apply Qpower_le_compat_l; [exact H|discriminate]. Qed.

Lemma pow2_lt_inv a b : pow2 a < pow2 b -> (a < b)%Z.
Proof. intros H. apply (Qpower_lt_compat_l_inv 2); [exact H|reflexivity]. Qed.

Lemma pow2_succ a : pow2 (a + 1) == 2 * pow2 a.
Proof. rewrite pow2_add. change (pow2 1) with 2. ring. Qed.

Lemma ilog2_spec q : 0 < q -> pow2 (ilog2 q) <= q < pow2 (ilog2 q + 1).
Proof.
  intros Hq. destruct q as [n d]. unfold ilog2. cbn [Qnum Qden].
  assert (Hn : (0 < n)%Z) by (unfold Qlt in Hq; cbn in Hq; lia).
  pose proof (Z.log2_spec n Hn) as [Ha1 Ha2].
  pose proof (Z.log2_spec (Zpos d) eq_refl) as [Hb1 Hb2].
  pose proof (Z.log2_nonneg n) as Ha0. pose proof (Z.log2_nonneg (Zpos d)) as Hb0.
  set (a := Z.log2 n) in *. set (b := Z.log2 (Zpos d)) in *.
  assert (Qa1 : pow2 a <= inject_Z n).
  { rewrite pow2_Z by exact Ha0. rewrite <- Zle_Qle. exact Ha1. }
  assert (Qa2 : inject_Z n < pow2 (a + 1)).
  { rewrite pow2_Z by lia. rewrite <- Zlt_Qlt. replace (a + 1)%Z with (Z.succ a) by lia. exact Ha2. }
  assert (Qb1 : pow2 b <= inject_Z (Zpos d)).
  { rewrite pow2_Z by exact Hb0. rewrite <- Zle_Qle. exact Hb1. }
  assert (Qb2 : inject_Z (Zpos d) < pow2 (b + 1)).
  { rewrite pow2_Z by lia. rewrite <- Zlt_Qlt. replace (b + 1)%Z with (Z.succ b) by lia. exact Hb2. }
  assert (E : n # d == inject_Z n / inject_Z (Zpos d)) by apply Qmake_Qdiv.
  assert (Hd : 0 < inject_Z (Zpos d)) by reflexivity.
  pose proof (pow2_pos (a - b)) as Pk. pose proof (pow2_pos b) as Pb.
  assert (Ka : pow2 a == pow2 (a - b) * pow2 b).
  { rewrite <- pow2_add. replace (a - b + b)%Z with a by lia. reflexivity. }
  destruct (Qle_bool (pow2 (a - b)) (n # d)) eqn:C.
  - apply Qle_bool_iff in C. split; [exact C|].
    rewrite E. apply Qlt_shift_div_r; [exact Hd|].
    rewrite pow2_succ. rewrite !pow2_succ in Qa2. rewrite Ka in Qa2. nra.
  - assert (C' : n # d < pow2 (a - b)).
    { apply Qnot_le_lt. intros H. apply Qle_bool_iff in H. congruence. }
    split.
    + rewrite E. apply Qle_shift_div_l; [exact Hd|].
      assert (K1 : pow2 (a - b) == 2 * pow2 (a - b - 1)).
      { rewrite <- pow2_succ. replace (a - b - 1 + 1)%Z with (a - b)%Z by lia. reflexivity. }
      rewrite pow2_succ in Qb2. pose proof (pow2_pos (a - b - 1)). nra.
    + replace (a - b - 1 + 1)%Z with (a - b)%Z by lia. exact C'.
Qed.

Lemma nearest_even_error q : Qabs (inject_Z (nearest_even q) - q) <= 1 # 2.
Proof.
  unfold nearest_even. cbv zeta.
  pose proof (Qfloor_le q) as H1. pose proof (Qlt_floor q) as H2.
  rewrite inject_Z_plus in H2. change (inject_Z 1) with 1 in H2.
  set (f := Qfloor q) in *.
  apply Qabs_Qle_condition.
  destruct (Qcompare (q - inject_Z f) (1 # 2)) eqn:C.
  - apply Qeq_alt in C. destruct (Z.even f).
    + lra.
    + rewrite inject_Z_plus. change (inject_Z 1) with 1. lra.
  - apply Qlt_alt in C. lra.
  - apply Qgt_alt in C. rewrite inject_Z_plus. change (inject_Z 1) with 1. lra.
Qed.

(** Some doubles, as every binary64 implementation prints them: 0.1,
    0.1 + 0.2 = 0.30000000000000004, 1.4, the square root of 2, and a
    tie in the subnormal range that goes to the even neighbour. *)
Lemma round64_samples :
  round64 0.1 == 3602879701896397 # 36028797018963968
  /\ add (round64 0.1) (round64 0.2) == 1351079888211149 # 4503599627370496
  /\ round64 1.4 == 6305039478318694 # 4503599627370496
  /\ sqrt64 2 == 6369051672525773 # 4503599627370496
  /\ round64 (3 * pow2 (-1075)) == pow2 (-1073)
  /\ round64 (5 * pow2 (-1075)) == pow2 (-1073).
Proof. repeat split; vm_compute; reflexivity. Qed.

(** Rounding moves a number by at most half a unit in the last place. *)
Lemma round64_half_ulp q :
  ~ q == 0 -> Qabs (round64 q - q) <= pow2 (ulp_exponent q) * (1 # 2).
Proof.
  intros Hq. unfold round64.
  destruct (Qeq_bool q 0) eqn:Z0; [apply Qeq_bool_iff in Z0; contradiction|].
  cbv zeta. set (e := ulp_exponent q).
  pose proof (pow2_pos e) as Pe.
  pose proof (nearest_even_error (q / pow2 e)) as H.
  set (z := inject_Z (nearest_even (q / pow2 e))) in *.
  assert (E : z * pow2 e - q == (z - q / pow2 e) * pow2 e) by (field; lra).
  rewrite E, Qabs_Qmult, (Qabs_pos (pow2 e)) by lra.
  rewrite (Qmult_comm (pow2 e)). apply Qmult_le_compat_r; [exact H|lra].
Qed.

(** In the normal range the error is relative. *)
Lemma round64_relative q :
  pow2 (-1022) <= Qabs q -> Qabs (round64 q - q) <= pow2 (-53) * Qabs q.
Proof.
  intros Hn.
  assert (Hq : ~ q == 0).
  { intros H. rewrite H in Hn. change (Qabs 0) with 0 in Hn.
    pose proof (pow2_pos (-1022)) as P. apply (Qlt_not_le _ _ P Hn). }
  assert (Ha : 0 < Qabs q).
  { pose proof (pow2_pos (-1022)) as P. apply (Qlt_le_trans _ _ _ P Hn). }
  destruct (ilog2_spec (Qabs q) Ha) as [L1 L2].
  assert (Hl : (-1022 <= ilog2 (Qabs q))%Z).
  { assert (pow2 (-1022) < pow2 (ilog2 (Qabs q) + 1)) as H by lra.
    apply pow2_lt_inv in H. lia. }
  pose proof (round64_half_ulp q Hq) as H.
  unfold ulp_exponent in H. rewrite Z.max_l in H by lia.
  replace (ilog2 (Qabs q) - 52)%Z with (ilog2 (Qabs q) + (-1) + (-52 + 1))%Z in H by lia.
  rewrite pow2_add in H.
  assert (K : pow2 (ilog2 (Qabs q)) == 2 * pow2 (ilog2 (Qabs q) + -1)).
  { rewrite <- pow2_succ. replace (ilog2 (Qabs q) + -1 + 1)%Z with (ilog2 (Qabs q)) by lia.
    reflexivity. }
  change (pow2 (-52 + 1)) with (pow2 (-51)) in H.
  assert (P51 : pow2 (-51) * (1 # 2) == 2 * pow2 (-53)) by reflexivity.
  pose proof (pow2_pos (ilog2 (Qabs q) + -1)).
  assert (P53 : 0 < pow2 (-53)) by apply pow2_pos.
  nra.
Qed.

(** Everywhere below the overflow threshold: relative, or absolute in
    the subnormal range. *)
Lemma round64_error q :
  Qabs (round64 q - q) <= pow2 (-53) * Qabs q + pow2 (-1075).
Proof.
  pose proof (pow2_pos (-1075)) as P75. pose proof (pow2_pos (-53)) as P53.
  pose proof (Qabs_nonneg q) as A0.
  destruct (Qeq_dec q 0) as [Hq|Hq].
  - unfold round64. destruct (Qeq_bool q 0) eqn:Z0.
    + assert (E : 0 - q == 0) by (rewrite Hq; ring).
      rewrite E. change (Qabs 0) with 0. nra.
    + exfalso. apply Qeq_bool_neq in Z0. contradiction.
  - destruct (Qlt_le_dec (Qabs q) (pow2 (-1022))) as [Hs|Hn].
    + pose proof (round64_half_ulp q Hq) as H.
      assert (Ha : 0 < Qabs q).
      { destruct (Qlt_le_dec 0 (Qabs q)) as [C|C]; [exact C|].
        exfalso. apply Hq. destruct (Qabs_Qle_condition q 0) as [K _].
        specialize (K C). lra. }
      destruct (ilog2_spec (Qabs q) Ha) as [L1 L2].
      assert (Hl : (ilog2 (Qabs q) < -1022)%Z).
      { apply pow2_lt_inv. apply (Qle_lt_trans _ _ _ L1 Hs). }
      unfold ulp_exponent in H. rewrite Z.max_r in H by lia.
      change (pow2 (-1074) * (1 # 2)) with (pow2 (-1075)) in H.
      eapply Qle_trans; [exact H|]. nra.
    + pose proof (round64_relative q Hn). lra.
Qed.


Lemma nearest_even_le q (n : Z) : q <= inject_Z n -> (nearest_even q <= n)%Z.
Proof.
  intros H. unfold nearest_even. cbv zeta.
  pose proof (Qfloor_resp_le _ _ H) as F. rewrite Qfloor_Z in F.
  pose proof (Qfloor_le q) as L.
  set (f := Qfloor q) in *. clearbody f.
  destruct (Z.eq_dec f n) as [E|E].
  - subst n.
    assert (C : Qcompare (q - inject_Z f) (1 # 2) = Lt).
    { apply (proj1 (Qlt_alt _ _)). lra. }
    rewrite C. lia.
  - destruct (Qcompare (q - inject_Z f) (1 # 2)); [destruct (Z.even f)| |]; lia.
Qed.

Lemma Qabs_nonneg_eq q : 0 <= q -> Qabs q = q.
Proof.
  destruct q as [n d]. unfold Qle, Qabs. cbn. intros H. f_equal. apply Z.abs_eq. lia.
Qed.

(** Rounding does not carry a number of (0, 1] beyond 1. *)
Lemma round64_le_one q : 0 < q -> q <= 1 -> round64 q <= 1.
Proof.
  intros H0 H1. unfold round64.
  destruct (Qeq_bool q 0) eqn:Z0; [discriminate|]. cbv zeta.
  set (e := ulp_exponent q).
  assert (He : (e <= -52)%Z).
  { unfold e, ulp_exponent. rewrite (Qabs_nonneg_eq q) by lra.
    destruct (ilog2_spec q H0) as [L _].
    assert (pow2 (ilog2 q) < pow2 1) as P by (change (pow2 1) with 2; lra).
    apply pow2_lt_inv in P. lia. }
  pose proof (pow2_pos e) as Pe.
  assert (E1 : pow2 (- e) * pow2 e == 1).
  { rewrite <- pow2_add. replace (- e + e)%Z with 0%Z by lia. reflexivity. }
  assert (B : q / pow2 e <= inject_Z (2 ^ (- e))).
  { rewrite <- pow2_Z by lia. apply Qle_shift_div_r; [exact Pe|]. lra. }
  apply nearest_even_le in B. rewrite Zle_Qle in B.
  rewrite <- pow2_Z in B by lia.
  set (z := inject_Z (nearest_even (q / pow2 e))) in *. nra.
Qed.

End RoundingFacts.

(** ** The speed cap in binary64 *)

Section ClampAlgebra.
Local Open Scope Q_scope.

Lemma square_le_inv (a b : Q) : 0 <= a -> 0 <= b -> a * a <= b * b -> a <= b.
Proof.
  intros Ha Hb H. destruct (Qlt_le_dec b a) as [C|C]; [exfalso|exact C].
  assert (b * b < a * a) by nra. lra.
Qed.

Lemma square_le (a b : Q) : 0 <= a -> a <= b -> a * a <= b * b.
Proof. intros. nra. Qed.

Lemma scale_le (c a b : Q) : 0 <= c -> a <= b -> c * a <= c * b.
Proof. intros. nra. Qed.

Lemma nonneg3 (a b c : Q) : 0 <= a -> 0 <= b -> 0 <= c -> 0 <= a * b * c.
Proof. intros. assert (0 <= a * b) by nra. nra. Qed.

(** From componentwise bounds to a bound on the sum of squares. *)
Lemma norm_above (X Y A B s M K e : Q) :
  0 <= X -> 0 <= Y -> 0 <= A -> 0 <= B -> 0 < s -> 0 <= M -> 0 <= K -> 0 <= e ->
  X * s <= A * M + e * s -> Y * s <= B * M + e * s ->
  A * A + B * B <= K * K * (s * s) ->
  X * X + Y * Y <= (M * K + 2 * e) * (M * K + 2 * e).
Proof.
  intros HX HY HA HB Hs HM HK He H1 H2 H3.
  assert (Ks : 0 <= K * s) by nra.
  assert (A1 : A <= K * s) by (apply square_le_inv; nra).
  assert (B1 : B <= K * s) by (apply square_le_inv; nra).
  assert (S1 : (X * s) * (X * s) <= (A * M + e * s) * (A * M + e * s))
    by (apply square_le; nra).
  assert (S2 : (Y * s) * (Y * s) <= (B * M + e * s) * (B * M + e * s))
    by (apply square_le; nra).
  assert (U1 : M * M * (A * A + B * B) <= M * M * (K * K * (s * s))).
  { apply scale_le; [nra|exact H3]. }
  assert (U2 : e * s * M * (A + B) <= e * s * M * (2 * (K * s))).
  { apply scale_le; [apply nonneg3; lra|lra]. }
  assert (T : (X * X + Y * Y) * (s * s)
              <= ((M * K + 2 * e) * (M * K + 2 * e)) * (s * s)) by nra.
  assert (P : 0 < s * s) by nra.
  apply (Qmult_le_r _ _ (s * s) P). exact T.
Qed.

Lemma norm_below (X Y A B s m k K e : Q) :
  0 <= X -> 0 <= Y -> 0 <= A -> 0 <= B -> 0 < s -> 0 <= m -> 0 <= k -> 0 <= K -> 0 <= e ->
  A * m - e * s <= X * s -> B * m - e * s <= Y * s ->
  k * k * (s * s) <= A * A + B * B ->
  A * A + B * B <= K * K * (s * s) ->
  m * m * (k * k) - 4 * e * m * K <= X * X + Y * Y.
Proof.
  intros HX HY HA HB Hs Hm Hk HK He H1 H2 H3 H4.
  assert (Ks : 0 <= K * s) by nra.
  assert (A1 : A <= K * s) by (apply square_le_inv; nra).
  assert (B1 : B <= K * s) by (apply square_le_inv; nra).
  assert (S1 : (A * m) * (A * m) - 2 * (e * s) * (A * m) <= (X * s) * (X * s)).
  { destruct (Qlt_le_dec (A * m) (e * s)) as [C|C].
    - assert (0 <= A * m) by nra. assert (0 <= (X * s) * (X * s)) by nra. nra.
    - assert (Q1 : (A * m - e * s) * (A * m - e * s) <= (X * s) * (X * s))
        by (apply square_le; nra).
      nra. }
  assert (S2 : (B * m) * (B * m) - 2 * (e * s) * (B * m) <= (Y * s) * (Y * s)).
  { destruct (Qlt_le_dec (B * m) (e * s)) as [C|C].
    - assert (0 <= B * m) by nra. assert (0 <= (Y * s) * (Y * s)) by nra. nra.
    - assert (Q1 : (B * m - e * s) * (B * m - e * s) <= (Y * s) * (Y * s))
        by (apply square_le; nra).
      nra. }
  assert (U1 : m * m * (k * k * (s * s)) <= m * m * (A * A + B * B)).
  { apply scale_le; [nra|exact H3]. }
  assert (U2 : e * s * m * (A + B) <= e * s * m * (2 * (K * s))).
  { apply scale_le; [apply nonneg3; lra|lra]. }
  assert (T : (m * m * (k * k) - 4 * e * m * K) * (s * s) <= (X * X + Y * Y) * (s * s)) by nra.
  assert (P : 0 < s * s) by nra.
  apply (Qmult_le_r _ _ (s * s) P). exact T.
Qed.

(** A component [v] multiplied by the rounded quotient [k] of [c] by
    [s], the product rounded to [v']: where [|v'| s] lies. *)
Lemma scaled_component (v v' k c s u e S : Q) :
  0 <= u -> u <= 1 -> 0 <= e -> 0 < c -> 0 < s -> s <= S ->
  e * S < c * (1 - u) ->
  Qabs (k - c / s) <= u * Qabs (c / s) + e ->
  Qabs (v' - v * k) <= u * Qabs (v * k) + e ->
  0 < k
  /\ Qabs v' * s <= Qabs v * ((1 + u) * (c * (1 + u) + e * S)) + e * s
  /\ Qabs v * ((1 - u) * (c * (1 - u) - e * S)) - e * s <= Qabs v' * s.
Proof.
  intros Hu Hu1 He Hc Hs HS HeS Hk Hv.
  assert (Q0 : 0 < c / s) by (apply Qlt_shift_div_l; lra).
  assert (Qs : c / s * s == c) by (field; lra).
  rewrite (Qabs_pos (c / s)) in Hk by lra.
  apply Qabs_diff_Qle_condition in Hk. destruct Hk as [K1 K2].
  assert (eS : e * s <= e * S) by (apply scale_le; assumption).
  assert (Ks1 : c * (1 - u) - e * s <= k * s) by nra.
  assert (Ks2 : k * s <= c * (1 + u) + e * s) by nra.
  assert (K0' : 0 < k).
  { assert (0 < k * s) by lra.
    destruct (Qlt_le_dec 0 k) as [C|C]; [exact C|exfalso; nra]. }
  assert (K0 : 0 <= k) by lra.
  rewrite Qabs_Qmult, (Qabs_pos k) in Hv by exact K0.
  pose proof (Qabs_nonneg v) as A0. set (A := Qabs v) in *.
  pose proof (Qabs_triangle_reverse v' (v * k)) as T1.
  pose proof (Qabs_triangle_reverse (v * k) v') as T2.
  rewrite (Qabs_Qminus (v * k) v') in T2.
  rewrite Qabs_Qmult, (Qabs_pos k) in T1, T2 by exact K0. fold A in T1, T2.
  pose proof (Qabs_nonneg v') as X0. set (X := Qabs v') in *.
  assert (X1 : X <= A * k * (1 + u) + e) by lra.
  assert (X2 : A * k * (1 - u) - e <= X) by lra.
  split; [exact K0'|]. split.
  - assert (B1 : A * (1 + u) * (k * s) <= A * (1 + u) * (c * (1 + u) + e * S)).
    { apply scale_le; [nra|lra]. }
    nra.
  - assert (B1 : A * (1 - u) * (c * (1 - u) - e * S) <= A * (1 - u) * (k * s)).
    { apply scale_le; [nra|lra]. }
    nra.
Qed.
End ClampAlgebra.

Section SpeedCap.
Import Capability Binary64 Field64.
Local Open Scope Q_scope.

Lemma Qabs_square v : Qabs v * Qabs v == v * v.
Proof.
  apply Qabs_case; intros _; ring.
Qed.

Ltac by_computation := apply Qle_bool_iff; vm_compute; reflexivity.

Lemma bounce_speed2 w h n : speed2 (bounce w h n) == speed2 n.
Proof.
  unfold speed2, bounce. cbn [vx vy].
  destruct (_ || _); destruct (_ || _); ring.
Qed.

(** One node of a frame, on a host whose [Math.hypot] is accurate for
    the velocity it is given. *)
Lemma draw_node_capped (hypot : Q -> Q -> Q)
    (dev : DeviceT) (w h : N) (m : Pointer) (n : Node) :
  let a := repel hypot dev m (advance n) in
  let s := hypot (vx a) (vy a) in
  let l := limit hypot a in
  let n' := draw_node hypot dev w h m n in
  accurate s (vx a) (vy a) ->
  speed2 n' <= (cap * (1 + tol)) * (cap * (1 + tol))
  /\ speed2 n' == speed2 l
  /\ (s <= round64 1.4 -> l = a)
  /\ (round64 1.4 < s ->
        let k := div (round64 1.4) s in
        0 < k <= 1 /\ vx l = mul (vx a) k /\ vy l = mul (vy a) k
        /\ (cap * (1 - tol)) * (cap * (1 - tol)) <= speed2 l)
  /\ vx (advance n) = vx n /\ vy (advance n) = vy n.
Proof.
  intros a s l n' (S0 & S1 & Lo & Hi).
  set (c := round64 1.4) in *.
  set (uh := pow2 (-50)) in *.
  assert (Hb : speed2 n' == speed2 l) by apply bounce_speed2.
  assert (Rescaled : c < s ->
    0 < div c s <= 1
    /\ (cap * (1 - tol)) * (cap * (1 - tol)) <= speed2 l
    /\ speed2 l <= (cap * (1 + tol)) * (cap * (1 + tol))
    /\ l = with_vel (mul (vx a) (div c s)) (mul (vy a) (div c s)) a).
  { intros Hs.
    assert (El : l = with_vel (mul (vx a) (div c s)) (mul (vy a) (div c s)) a).
    { unfold l, limit. fold s c. unfold Qltb.
      destruct (Qle_bool s c) eqn:C; [apply Qle_bool_iff in C; lra|reflexivity]. }
    assert (C0 : 0 < c) by (unfold c; reflexivity).
    assert (N3 : pow2 (-1075) * pow2 1024 < c * (1 - pow2 (-53))) by (unfold c; reflexivity).
    pose proof (round64_error (c / s)) as Ek. fold (div c s) in Ek.
    pose proof (round64_error (vx a * div c s)) as Ex. fold (mul (vx a) (div c s)) in Ex.
    pose proof (round64_error (vy a * div c s)) as Ey. fold (mul (vy a) (div c s)) in Ey.
    assert (Pu : 0 <= pow2 (-53) <= 1) by (split; discriminate).
    assert (Pe : 0 <= pow2 (-1075)) by discriminate.
    assert (Ss : 0 < s) by lra.
    destruct (scaled_component (vx a) (mul (vx a) (div c s)) (div c s) c s
                (pow2 (-53)) (pow2 (-1075)) (pow2 1024)
                (proj1 Pu) (proj2 Pu) Pe C0 Ss (Qlt_le_weak _ _ S1) N3 Ek Ex)
      as (K0 & X1 & X2).
    destruct (scaled_component (vy a) (mul (vy a) (div c s)) (div c s) c s
                (pow2 (-53)) (pow2 (-1075)) (pow2 1024)
                (proj1 Pu) (proj2 Pu) Pe C0 Ss (Qlt_le_weak _ _ S1) N3 Ek Ey)
      as (_ & Y1 & Y2).
    assert (K1 : div c s <= 1).
    { apply round64_le_one; [apply Qlt_shift_div_l; lra|].
      apply Qle_shift_div_r; lra. }
    split; [split; assumption|].
    rewrite El. unfold speed2, with_vel. cbn [vx vy].
    set (X := mul (vx a) (div c s)) in *. set (Y := mul (vy a) (div c s)) in *.
    rewrite <- (Qabs_square X), <- (Qabs_square Y).
    rewrite <- (Qabs_square (vx a)), <- (Qabs_square (vy a)) in Lo, Hi.
    set (K := / (1 - uh)). set (kk := / (1 + uh)).
    assert (EK : K * (1 - uh) == 1) by reflexivity.
    assert (Ekk : kk * (1 + uh) == 1) by reflexivity.
    assert (K0' : 0 <= K) by discriminate.
    assert (kk0 : 0 <= kk) by discriminate.
    assert (U0 : 0 < 1 - uh) by reflexivity.
    pose proof (Qabs_nonneg (vx a)) as A0. pose proof (Qabs_nonneg (vy a)) as B0.
    pose proof (Qabs_nonneg X) as X0. pose proof (Qabs_nonneg Y) as Y0.
    set (A := Qabs (vx a)) in *. set (B := Qabs (vy a)) in *.
    assert (H4 : A * A + B * B <= K * K * (s * s)).
    { assert (T : K * K * ((1 - uh) * (1 - uh) * (A * A + B * B)) <= K * K * (s * s)).
      { apply scale_le; [nra|exact Lo]. }
      assert (E : K * K * ((1 - uh) * (1 - uh) * (A * A + B * B)) == A * A + B * B).
      { transitivity ((K * (1 - uh)) * (K * (1 - uh)) * (A * A + B * B)); [ring|].
        rewrite EK. ring. }
      rewrite E in T. exact T. }
    assert (H3 : kk * kk * (s * s) <= A * A + B * B).
    { assert (T : kk * kk * (s * s) <= kk * kk * ((1 + uh) * (1 + uh) * (A * A + B * B))).
      { apply scale_le; [nra|exact Hi]. }
      assert (E : kk * kk * ((1 + uh) * (1 + uh) * (A * A + B * B)) == A * A + B * B).
      { transitivity ((kk * (1 + uh)) * (kk * (1 + uh)) * (A * A + B * B)); [ring|].
        rewrite Ekk. ring. }
      rewrite E in T. exact T. }
    set (Mu := (1 + pow2 (-53)) * (c * (1 + pow2 (-53)) + pow2 (-1075) * pow2 1024)) in *.
    set (Ml := (1 - pow2 (-53)) * (c * (1 - pow2 (-53)) - pow2 (-1075) * pow2 1024)) in *.
    split; [|split; [|reflexivity]].
    - apply (Qle_trans _ (Ml * Ml * (kk * kk) - 4 * pow2 (-1075) * Ml * K)).
      + unfold Ml, c, kk, K, uh. by_computation.
      + apply (norm_below (Qabs X) (Qabs Y) A B s Ml kk K (pow2 (-1075)));
          try assumption; unfold Ml, c; discriminate.
    - apply (Qle_trans _ ((Mu * K + 2 * pow2 (-1075)) * (Mu * K + 2 * pow2 (-1075)))).
      + apply (norm_above (Qabs X) (Qabs Y) A B s Mu K (pow2 (-1075)));
          try assumption; unfold Mu, c; discriminate.
      + unfold Mu, c, K, uh. by_computation. }
  assert (Kept : s <= c -> l = a).
  { intros Hs. unfold l, limit. fold s c. unfold Qltb.
    apply Qle_bool_iff in Hs. rewrite Hs. reflexivity. }
  split; [|split; [exact Hb|split; [exact Kept|split]]].
  - rewrite Hb. destruct (Qlt_le_dec c s) as [C|C].
    + apply (Rescaled C).
    + rewrite (Kept C). unfold speed2.
      assert (N4 : c * c <= (1 - uh) * (1 - uh) * ((cap * (1 + tol)) * (cap * (1 + tol))))
        by (unfold c, uh; by_computation).
      assert (T : s * s <= c * c) by (apply square_le; assumption).
      assert (U0 : 0 < (1 - uh) * (1 - uh)) by reflexivity.
      apply (Qmult_le_l _ _ _ U0). lra.
  - intros C. destruct (Rescaled C) as (Hk & L1 & _ & El). cbv zeta.
    split; [exact Hk|]. split; [rewrite El; reflexivity|].
    split; [rewrite El; reflexivity|exact L1].
  - split; reflexivity.
Qed.


(** C3, amended. In binary64, on any host whose [Math.hypot] is
    accurate for the velocities it is given, a frame leaves every node
    with a velocity magnitude of at most 1.4 (1 + 2^-49), whatever the
    nodes and the pointer were before. When the speed the host reports
    for a node after the impulse exceeds 1.4, both components are
    multiplied by the one factor 1.4 / speed, which lies in (0, 1], and
    the magnitude comes out within a relative 2^-49 of 1.4, above or
    below; otherwise the velocity is left as it is. The edge handling
    only changes signs and the position update does not touch the
    velocity. *)
Theorem speed_capped_up_to_rounding (hypot : Q -> Q -> Q)
    (dev : DeviceT) (w h : N) (m : Pointer) (nodes : list Node) :
  Forall (fun n => let a := repel hypot dev m (advance n) in
                   accurate (hypot (vx a) (vy a)) (vx a) (vy a)) nodes ->
  Forall2 (fun n n' =>
      let a := repel hypot dev m (advance n) in
      let s := hypot (vx a) (vy a) in
      let l := limit hypot a in
      n' = bounce w h l
      /\ speed2 n' <= (cap * (1 + tol)) * (cap * (1 + tol))
      /\ speed2 n' == speed2 l
      /\ (s <= round64 1.4 -> l = a)
      /\ (round64 1.4 < s ->
            let k := div (round64 1.4) s in
            0 < k <= 1 /\ vx l = mul (vx a) k /\ vy l = mul (vy a) k
            /\ (cap * (1 - tol)) * (cap * (1 - tol)) <= speed2 l)
      /\ vx (advance n) = vx n /\ vy (advance n) = vy n)
    nodes (draw hypot dev w h m nodes).
Proof.
  induction 1 as [|n ns Hn _ IH]; [constructor|].
  cbn [draw map]. constructor; [|exact IH].
  cbv zeta. split; [reflexivity|]. exact (draw_node_capped hypot dev w h m n Hn).
Qed.

Lemma Forall2_right {A B} (R : A -> B -> Prop) (P : B -> Prop) :
  (forall a b, R a b -> P b) -> forall l k, Forall2 R l k -> Forall P k.
Proof.
  intros H l k F. induction F as [|a b l k Hab _ IH]; constructor; eauto.
Qed.

(** C3, counterexample. A node at rest with the pointer nine pixels
    away on a High-tier device: the third frame rescales the velocity,
    and the rescaled magnitude is above 1.4; [Math.hypot] then returns
    1.4000000000000001, the double after 1.4. *)
Lemma speed_cap_exceeded_by_rounding :
  let frame := draw_node hypot64 (Device Field.desktop) 1024 768 nearby in
  let n := frame (frame (frame resting)) in
  cap * cap < speed2 n
  /\ cap < hypot64 (vx n) (vy n)
  /\ hypot64 (vx n) (vy n) == 6305039478318695 # 4503599627370496
  /\ ~ speed_stays_within_cap.
Proof.
  intros frame n.
  assert (H : cap * cap < speed2 n) by (vm_compute; reflexivity).
  split; [exact H|]. split; [vm_compute; reflexivity|]. split; [vm_compute; reflexivity|].
  intros C.
  assert (A : let a := repel hypot64 (Device Field.desktop) nearby
                         (advance (frame (frame resting))) in
              accurate (hypot64 (vx a) (vy a)) (vx a) (vy a)).
  { vm_compute. repeat split; discriminate. }
  specialize (C hypot64 (Device Field.desktop) 1024%N 768%N nearby (frame (frame resting)) A).
  fold frame in C. fold n in C. exact (Qlt_not_le _ _ H C).
Qed.

Lemma speed_capped_up_to_rounding_witness :
  let frame := draw hypot64 (Device Field.desktop) 1024 768 nearby in
  Forall (fun n => speed2 n <= (cap * (1 + tol)) * (cap * (1 + tol)))
    (frame (frame (frame [resting]))).
Proof.
  intros frame.
  assert (A : Forall (fun n => let a := repel hypot64 (Device Field.desktop) nearby (advance n) in
                               accurate (hypot64 (vx a) (vy a)) (vx a) (vy a))
                (frame (frame [resting]))).
  { constructor; [|constructor]. vm_compute. repeat split; discriminate. }
  exact (Forall2_right _ _ (fun n n' H => proj1 (proj2 H)) _ _
           (speed_capped_up_to_rounding hypot64 (Device Field.desktop) 1024 768 nearby
              (frame (frame [resting])) A)).
Defined.

End SpeedCap.

(** ** Drivers and the page *)

Section DriverFacts.
Import Capability Dom Drivers.

Lemma getElement_None a p : dom p !! a = None -> getElement a p = None.
Proof. intros H. unfold getElement. rewrite H. reflexivity. Qed.

Lemma getElement_Some a p e : dom p !! a = Some e -> getElement a p = Some a.
Proof. intros H. unfold getElement. rewrite H. reflexivity. Qed.

(** Hiding one anchor: registrations, generator and the other anchors
    are as before. *)
Lemma hide_only a p :
  handles (update a (set_display "none") p) = handles p
  /\ random (update a (set_display "none") p) = random p
  /\ absent_or_hidden a (update a (set_display "none") p)
  /\ (forall b, b <> a -> dom (update a (set_display "none") p) !! b = dom p !! b).
Proof.
  split; [reflexivity|]. split; [reflexivity|]. split.
  - unfold absent_or_hidden, update; simpl. rewrite lookup_alter_eq.
    destruct (dom p !! a); simpl; [reflexivity|exact I].
  - intros b Hb. unfold update; simpl. apply lookup_alter_ne. congruence.
Qed.

Lemma NeuralNetwork_low dev p :
  isLow dev = true ->
  exists p', NeuralNetwork_new dev p = (NN_skipped, p')
    /\ handles p' = handles p /\ random p' = random p
    /\ absent_or_hidden "neural-canvas" p'
    /\ (forall b, b <> "neural-canvas" -> dom p' !! b = dom p !! b).
Proof.
  intros H. unfold NeuralNetwork_new. rewrite H.
  unfold getElement. destruct (dom p !! "neural-canvas") eqn:E.
  - eexists. split; [reflexivity|]. apply hide_only.
  - exists p. split; [reflexivity|]. split; [reflexivity|]. split; [reflexivity|].
    split; [|reflexivity]. unfold absent_or_hidden. rewrite E. exact I.
Qed.

(** C7, counterexample. Under reduced motion a matrix canvas that is
    in the document stays in the document and is not hidden:
    [MatrixRain] returns at its guard without touching it. *)
Lemma matrix_canvas_left_visible :
  let p := page_of ["matrix-canvas"; "neural-canvas"] calm in
  let p' := snd (deferred_init (Device calm) p) in
  (display <$> dom p' !! "matrix-canvas") = Some ""
  /\ ~ absent_or_hidden "matrix-canvas" p'
  /\ ~ reduced_motion_hides_canvases.
Proof.
  intros p p'.
  assert (E : (display <$> dom p' !! "matrix-canvas") = Some "") by reflexivity.
  assert (N : ~ absent_or_hidden "matrix-canvas" p').
  { unfold absent_or_hidden. destruct (dom p' !! "matrix-canvas") as [e|]; [|discriminate].
    simpl in E. injection E as ->. discriminate. }
  split; [exact E|]. split; [exact N|].
  intros H. exact (N (proj1 (H calm p eq_refl))).
Qed.

(** C7, amended. Under reduced motion the three motion drivers return
    at their guards: no handle is registered, no instance field is set,
    no random number is drawn; the neural canvas is hidden if present;
    the matrix canvas and every other anchor are left as they were. *)
Theorem reduced_motion_drivers_inert (h : Host) (p : Page) :
  prefersReducedMotion h = true ->
  let dev := Device h in
  MatrixRain_new dev p = (MR_skipped, p)
  /\ GlitchText_new dev p = (GT_skipped, p)
  /\ (exists p', NeuralNetwork_new dev p = (NN_skipped, p')
        /\ handles p' = handles p /\ random p' = random p
        /\ absent_or_hidden "neural-canvas" p'
        /\ (forall b, b <> "neural-canvas" -> dom p' !! b = dom p !! b))
  /\ (exists p', deferred_init dev p = ((MR_skipped, NN_skipped, GT_skipped), p')
        /\ handles p' = handles p /\ random p' = random p
        /\ absent_or_hidden "neural-canvas" p'
        /\ (forall b, b <> "neural-canvas" -> dom p' !! b = dom p !! b)).
Proof.
  intros Hr dev.
  destruct (reduced_motion_is_low h Hr) as [HL HR]. fold dev in HL, HR.
  assert (M : MatrixRain_new dev p = (MR_skipped, p)).
  { unfold MatrixRain_new. rewrite HL. reflexivity. }
  assert (G : forall q, GlitchText_new dev q = (GT_skipped, q)).
  { intros q. unfold GlitchText_new. rewrite HR. reflexivity. }
  destruct (NeuralNetwork_low dev p HL) as (p' & E & Hp').
  split; [exact M|]. split; [apply G|]. split; [exists p'; split; assumption|].
  exists p'. split; [|exact Hp'].
  unfold deferred_init. rewrite M, E, G. reflexivity.
Qed.

Lemma reduced_motion_drivers_inert_witness :
  MatrixRain_new (Device calm) (page_of ["matrix-canvas"; "neural-canvas"] calm)
  = (MR_skipped, page_of ["matrix-canvas"; "neural-canvas"] calm).
Proof.
  exact (proj1 (reduced_motion_drivers_inert calm
                  (page_of ["matrix-canvas"; "neural-canvas"] calm) eq_refl)).
Defined.

End DriverFacts.

(** ** Missing anchors *)

Section MissingAnchors.
Import Capability Dom Drivers.

(** The guarded drivers: without their anchor they leave the page as
    it was. *)
Lemma guarded_drivers_inert dev p :
  (dom p !! "matrix-canvas" = None -> snd (MatrixRain_new dev p) = p)
  /\ (dom p !! "neural-canvas" = None -> snd (NeuralNetwork_new dev p) = p)
  /\ (dom p !! ".glitch-name" = None -> snd (GlitchText_new dev p) = p)
  /\ (dom p !! ".scanlines" = None -> ScanlineEffect_new dev p = p)
  /\ (dom p !! "backToTop" = None -> BackToTop_new p = p).
Proof.
  repeat split; intros H.
  - unfold MatrixRain_new. rewrite (getElement_None _ _ H).
    destruct (isLow dev); reflexivity.
  - unfold NeuralNetwork_new. rewrite (getElement_None _ _ H).
    destruct (isLow dev); reflexivity.
  - unfold GlitchText_new. rewrite H. destruct (reduced dev); reflexivity.
  - unfold ScanlineEffect_new. rewrite (getElement_None _ _ H).
    destruct (isLow dev); reflexivity.
  - unfold BackToTop_new. rewrite (getElement_None _ _ H). reflexivity.
Qed.

(** The older script: without the particle canvas the first statement
    throws and nothing of the script has happened. *)
Lemma legacy_aborts_without_canvas p :
  dom p !! "particleCanvas" = None -> Legacy.main p = TypeError p.
Proof.
  intros H. unfold Legacy.main, Legacy.particleBackground.
  rewrite (getElement_None _ _ H). reflexivity.
Qed.

(** Registering per element of a collection only appends handles. *)
Lemma forEach_register_handles sel h p :
  handles (forEach_register sel h p) = (handles p ++ repeat h (querySelectorAll sel p))%list
  /\ dom (forEach_register sel h p) = dom p.
Proof.
  unfold forEach_register. generalize (querySelectorAll sel p) as k.
  induction k as [|k [IH1 IH2]].
  - cbn. rewrite app_nil_r. split; reflexivity.
  - change (Nat.iter (S k) (register h) p) with (register h (Nat.iter k (register h) p)).
    unfold register at 1 3. cbn [handles dom]. rewrite IH1, IH2. split; [|reflexivity].
    rewrite <- app_assoc. f_equal. symmetry. apply repeat_cons.
Qed.

(** The navbar: without [#navbar] its listeners are registered all the
    same, and the frame requested by the first scroll throws. *)
Lemma navbar_throws_on_scroll p :
  dom p !! "navbar" = None ->
  let '(nb, p') := Navbar_new p in
  In (Listener "window" "scroll") (handles p')
  /\ snd (Navbar_onScroll nb) = true
  /\ Navbar_onFrame (fst (Navbar_onScroll nb)) p' = TypeError p'.
Proof.
  intros H. unfold Navbar_new. rewrite (getElement_None _ _ H). simpl.
  split; [|split; reflexivity].
  rewrite in_app_iff. left.
  rewrite (proj1 (forEach_register_handles _ _ _)), in_app_iff. left.
  destruct (getElement "navToggle" p); simpl;
    rewrite !in_app_iff; simpl; tauto.
Qed.

(** C5, the defect. On a page that has every anchor except
    [#particleCanvas], the older script stops at its second statement
    with an uncaught [TypeError] and registers nothing, although with
    the canvas present it would have started the cursor glow, the
    typing headline and the navbar as well, and would have given every
    navigation link, hash anchor, revealed block and project card of
    the page its listeners or observer; and on a page without
    [#navbar] the navbar driver still registers its scroll listener,
    whose first frame throws. *)
Theorem missing_canvas_stops_every_effect :
  Legacy.main Legacy.page_without_canvas = TypeError Legacy.page_without_canvas
  /\ handles Legacy.page_without_canvas = []
  /\ (exists p', Legacy.main Legacy.page_with_canvas = Ok ([], p')
        /\ handles p'
           = [Listener "window" "resize"; FrameLoop "animateParticles";
              Listener "document" "mousemove"; FrameLoop "updateCursorGlow";
              Timeout "typeRole" 120;
              Listener "window" "scroll"; Listener "navToggle" "click"])
  /\ (let bare := with_matches (matches Legacy.page_with_links) Legacy.page_without_canvas in
      Legacy.main bare = TypeError bare /\ handles bare = [])
  /\ (exists p', Legacy.main Legacy.page_with_links = Ok ([], p')
        /\ handles p'
           = [Listener "window" "resize"; FrameLoop "animateParticles";
              Listener "document" "mousemove"; FrameLoop "updateCursorGlow";
              Timeout "typeRole" 120;
              Listener "window" "scroll"; Listener "navToggle" "click";
              Listener ".nav-link" "click"; Listener ".nav-link" "click";
              Listener "a[href^='#']" "click"; Listener "a[href^='#']" "click";
              Observer "[data-animate]";
              Listener ".project-card" "mousemove"; Listener ".project-card" "mouseleave"])
  /\ (let '(nb, p') := Navbar_new (page_of ["navToggle"; "navMenu"] Legacy.small) in
      handles p'
      = [Listener "window" "scroll"; Listener "navToggle" "click";
         Listener "document" "click"]
      /\ Navbar_onFrame (fst (Navbar_onScroll nb)) p' = TypeError p').
Proof.
  split; [apply legacy_aborts_without_canvas; reflexivity|].
  split; [reflexivity|].
  split; [eexists; split; vm_compute; reflexivity|].
  split; [split; [apply legacy_aborts_without_canvas|]; reflexivity|].
  split; [eexists; split; vm_compute; reflexivity|].
  split; vm_compute; reflexivity.
Qed.

End MissingAnchors.

(** ** Matrix rain *)

Section RainFacts.
Import Capability Field Dom Drivers Rain.
Local Open Scope R_scope.

Lemma Math_floor_index r (n : nat) :
  0 <= r < 1 -> (0 < n)%nat ->
  (Z.to_nat (Math_floor (r * NR (N.of_nat n))) < n)%nat.
Proof.
  intros Hr Hn. unfold Math_floor, NR.
  replace (Z.of_N (N.of_nat n)) with (Z.of_nat n) by lia.
  set (a := r * IZR (Z.of_nat n)).
  assert (Hpos : 0 < IZR (Z.of_nat n)) by (apply IZR_lt; lia).
  assert (Ha : 0 <= a < IZR (Z.of_nat n)) by (unfold a; split; nra).
  destruct (base_Int_part a) as [H1 H2].
  assert (Hlt : (Int_part a < Z.of_nat n)%Z) by (apply lt_IZR; lra).
  assert (Hge : (-1 < Int_part a)%Z) by (apply lt_IZR; lra).
  lia.
Qed.

Lemma random_pick {A} (l : list A) r :
  0 <= r < 1 -> l <> [] ->
  is_Some (l !! Z.to_nat (Math_floor (r * NR (N.of_nat (length l))))).
Proof.
  intros Hr Hl. apply lookup_lt_is_Some. apply Math_floor_index; [exact Hr|].
  destruct l; [contradiction|simpl; lia].
Qed.

Lemma unit_range_drop g k : unit_range g -> unit_range (fun i => g (k + i)%nat).
Proof. intros H i. apply H. Qed.

Lemma Array_from_range {A} (f : Rng -> A * Rng) :
  (forall g, unit_range g -> unit_range (snd (f g))) ->
  forall count g, unit_range g -> unit_range (snd (Array_from count f g)).
Proof.
  intros Hf count. induction count as [|k IH]; intros g Hg; simpl; [exact Hg|].
  pose proof (Hf g Hg) as Hg1. destruct (f g) as [a g1]. simpl in Hg1.
  specialize (IH g1 Hg1). destruct (Array_from k f g1) as [rest g2]. exact IH.
Qed.

Lemma draw_column_facts fontSize speed height i d g :
  let r := draw_column fontSize speed height i d g in
  column_rule fontSize speed height d (fst (fst r))
  /\ gx (snd (fst r)) = INR i * NR fontSize
  /\ gy (snd (fst r)) = d * NR fontSize
  /\ (unit_range g ->
      unit_range (snd r)
      /\ is_Some (glyph (snd (fst r)))
      /\ 0.06 <= alpha (snd (fst r)) < 0.36).
Proof.
  assert (Hpick : unit_range g ->
    is_Some (chars !! Z.to_nat (Math_floor (g 0%nat * NR (N.of_nat (length chars)))))).
  { intros Hg. apply random_pick; [apply Hg|discriminate]. }
  unfold draw_column, Math_random, column_rule, Rgtb. cbv beta iota zeta.
  destruct (Rltb (NR height) (d * NR fontSize)) eqn:E; cbn [fst snd gx gy alpha glyph].
  - apply Rltb_true in E.
    split.
    { destruct (Rltb 0.975 (g 2%nat)); [right; split; [exact E|reflexivity]|left; reflexivity]. }
    split; [reflexivity|]. split; [reflexivity|].
    intros Hg. split; [intros k; apply Hg|].
    split; [exact (Hpick Hg)|].
    pose proof (Hg 1%nat). lra.
  - split; [left; reflexivity|]. split; [reflexivity|]. split; [reflexivity|].
    intros Hg. split; [intros k; apply Hg|].
    split; [exact (Hpick Hg)|].
    pose proof (Hg 1%nat). lra.
Qed.

Lemma draw_from_facts fontSize speed height drops :
  forall i g,
    let r := draw_from fontSize speed height i drops g in
    Forall2 (column_rule fontSize speed height) drops (fst (fst r))
    /\ Forall2 (fun d gl => gy gl = d * NR fontSize) drops (snd (fst r))
    /\ (forall k gl, snd (fst r) !! k = Some gl -> gx gl = INR (i + k) * NR fontSize)
    /\ (unit_range g ->
        unit_range (snd r)
        /\ Forall (fun gl => is_Some (glyph gl) /\ 0.06 <= alpha gl < 0.36) (snd (fst r))).
Proof.
  induction drops as [|d rest IH]; intros i g; cbn [draw_from]; cbv zeta.
  - cbn [fst snd]. split; [constructor|]. split; [constructor|].
    split; [intros k gl; discriminate|].
    intros Hg. split; [exact Hg|constructor].
  - pose proof (draw_column_facts fontSize speed height i d g) as (C1 & C2 & C3 & C4).
    destruct (draw_column fontSize speed height i d g) as [[d' painted] g1].
    cbn [fst snd] in C1, C2, C3, C4.
    specialize (IH (S i) g1). cbv zeta in IH. destruct IH as (I1 & I2 & I3 & I4).
    destruct (draw_from fontSize speed height (S i) rest g1) as [[rest' glyphs] g2].
    cbn [fst snd] in *.
    split; [constructor; assumption|]. split; [constructor; assumption|].
    split.
    + intros [|k] gl.
      * intros [= <-]. rewrite Nat.add_0_r. exact C2.
      * intros H. change (glyphs !! k = Some gl) in H. rewrite (I3 k gl H).
        replace (S i + k)%nat with (i + S k)%nat by lia. reflexivity.
    + intros Hg. destruct (C4 Hg) as (Hg1 & Hc & Ha).
      destruct (I4 Hg1) as (Hg2 & Hall). split; [exact Hg2|].
      constructor; [split; assumption|exact Hall].
Qed.

(** X1. [resize] gives the matrix rain exactly floor(width / fontSize)
    columns, one drop each, so that every column lies inside the canvas;
    the canvas takes the window's size; and with [Math.random] in its
    range every drop starts in the interval (-100, 0]. *)
Theorem matrix_rain_resize_columns (fontSize : N) (p : Page) :
  let r := MatrixRain_resize fontSize p in
  let cols := fst (fst r) in
  let drops := snd (fst r) in
  cols = (innerWidth (window p) / fontSize)%N
  /\ length drops = N.to_nat cols
  /\ (forall i : nat, (i < N.to_nat cols)%nat ->
        INR i * NR fontSize + NR fontSize <= NR (innerWidth (window p)))
  /\ handles (snd r) = handles p
  /\ (forall c, dom p !! "matrix-canvas" = Some c ->
        dom (snd r) !! "matrix-canvas"
        = Some (set_size (innerWidth (window p)) (innerHeight (window p)) c))
  /\ (unit_range (random p) ->
        Forall (fun d => -100 < d <= 0) drops /\ unit_range (random (snd r))).
Proof.
  unfold MatrixRain_resize.
  set (w := innerWidth (window p)). set (h := innerHeight (window p)).
  set (f := fun g : Rng => let '(a, g') := Math_random g in (a * -100, g')).
  assert (Hf : forall g0, unit_range g0 ->
            -100 < fst (f g0) <= 0 /\ unit_range (snd (f g0))).
  { intros g0 Hg0. unfold f, Math_random. cbn [fst snd].
    split; [pose proof (Hg0 0%nat); lra|intros i; apply Hg0]. }
  pose proof (Array_from_length f (N.to_nat (w / fontSize)) (random p)) as HL.
  pose proof (Array_from_establishes f (fun d => -100 < d <= 0) Hf
                (N.to_nat (w / fontSize)) (random p)) as HP.
  pose proof (Array_from_range f (fun g0 Hg0 => proj2 (Hf g0 Hg0))
                (N.to_nat (w / fontSize)) (random p)) as HR.
  change (random (update "matrix-canvas" (set_size w h) p)) with (random p).
  destruct (Array_from (N.to_nat (w / fontSize)) f (random p)) as [drops g] eqn:E.
  cbn [fst snd] in *.
  split; [reflexivity|]. split; [exact HL|].
  split.
  { intros i Hi. unfold NR.
    assert (Hm : (fontSize * (w / fontSize) <= w)%N).
    { destruct (N.eq_dec fontSize 0) as [->|Hz]; [lia|apply N.Div0.mul_div_le]. }
    rewrite INR_IZR_INZ, <- mult_IZR, <- plus_IZR. apply IZR_le. nia. }
  split; [reflexivity|].
  split.
  { intros c Hc. unfold update, with_random, with_dom; cbn [dom].
    rewrite lookup_alter_eq, Hc. reflexivity. }
  intros Hg. split; [exact (HP Hg)|exact (HR Hg)].
Qed.

Lemma matrix_rain_resize_columns_witness :
  Forall (fun d => -100 < d <= 0)
    (snd (fst (MatrixRain_resize 13 (page_of ["matrix-canvas"] desktop)))).
Proof.
  refine (proj1 (proj2 (proj2 (proj2 (proj2 (proj2
            (matrix_rain_resize_columns 13 (page_of ["matrix-canvas"] desktop)))))) _)).
  intros i. simpl. lra.
Defined.

Lemma column_rule_floor fontSize speed height (lo : R) drops drops' :
  0 <= speed -> lo < 0 ->
  Forall2 (column_rule fontSize speed height) drops drops' ->
  Forall (fun d => lo < d) drops -> Forall (fun d => lo < d) drops'.
Proof.
  intros Hs Hlo H2. induction H2 as [|d d' l l' Hr H2 IH]; intros Hall; [constructor|].
  inversion Hall as [|? ? Hd Hl]; subst.
  constructor; [|apply IH; exact Hl].
  destruct Hr as [E|[_ E]]; rewrite E; lra.
Qed.

(** X2. One frame of the matrix rain keeps one drop per column; each
    drop moves down by [speed], or, only if its glyph was already below
    the canvas, restarts from the top; the glyph of column [k] is
    painted at x = k * fontSize and y = drop * fontSize; drops never
    fall under the level they started above; and with [Math.random] in
    its range every glyph is a character of the alphabet, painted with
    an alpha in [0.06, 0.36). *)
Theorem matrix_rain_frame (fontSize : N) (speed : R) (height : N)
    (drops : list R) (g : Rng) :
  let r := draw_from fontSize speed height 0 drops g in
  let drops' := fst (fst r) in
  let glyphs := snd (fst r) in
  length drops' = length drops
  /\ length glyphs = length drops
  /\ Forall2 (column_rule fontSize speed height) drops drops'
  /\ (forall k gl, glyphs !! k = Some gl ->
        gx gl = INR k * NR fontSize
        /\ exists d, drops !! k = Some d /\ gy gl = d * NR fontSize)
  /\ (0 <= speed -> Forall (fun d => -100 < d) drops -> Forall (fun d => -100 < d) drops')
  /\ (unit_range g ->
        unit_range (snd r)
        /\ Forall (fun gl => is_Some (glyph gl) /\ 0.06 <= alpha gl < 0.36) glyphs).
Proof.
  intros r drops' glyphs.
  destruct (draw_from_facts fontSize speed height drops 0 g) as (H1 & H2 & H3 & H4).
  fold r in H1, H2, H3, H4. fold drops' in H1. fold glyphs in H2, H3, H4.
  split; [symmetry; exact (Forall2_length _ _ _ H1)|].
  split; [symmetry; exact (Forall2_length _ _ _ H2)|].
  split; [exact H1|].
  split.
  { intros k gl Hk. split; [exact (H3 k gl Hk)|].
    destruct (Forall2_lookup_r _ _ _ _ _ H2 Hk) as (d & Hd & Hy). eauto. }
  split; [|exact H4].
  intros Hs. apply (column_rule_floor fontSize speed height); [exact Hs|lra|exact H1].
Qed.

Lemma matrix_rain_frame_witness :
  Forall (fun d => -100 < d)
    (fst (fst (draw_from 13 0.45 768 0 [-5; 60; 0] (fun _ => 0)))).
Proof.
  refine (proj1 (proj2 (proj2 (proj2 (proj2
            (matrix_rain_frame 13 0.45 768 [-5; 60; 0] (fun _ => 0))))))  _ _).
  - lra.
  - repeat constructor; lra.
Defined.

End RainFacts.

(** ** Connection lines *)

Section LinkFacts.
Import Capability Field Links.
Local Open Scope R_scope.

Lemma maxDist_pos dev : 0 < maxDist dev.
Proof. unfold maxDist. destruct (isMid dev); lra. Qed.

Lemma fade_range d M k : 0 <= d < M -> 0 < k -> 0 < (1 - d / M) * k <= k.
Proof.
  intros [H0 H1] Hk.
  assert (E : d / M * M = d) by (field; lra).
  assert (Hq : 0 <= d / M < 1) by (split; nra).
  split; nra.
Qed.

Lemma links_from_In dev i a rest : forall j s,
  In s (links_from dev i a j rest) <->
  exists k b, rest !! k = Some b /\ distance a b < maxDist dev
              /\ s = Link i (j + k) ((1 - distance a b / maxDist dev) * 0.45)
                       ((1 - distance a b / maxDist dev) * 0.45 * 1.2).
Proof.
  induction rest as [|b rest IH]; intros j s; cbn [links_from]; cbv zeta.
  - split; [intros []|intros (k & b & H & _); discriminate].
  - rewrite in_app_iff, IH. split.
    + intros [H|(k & b' & Hk & Hd & ->)].
      * destruct (Rltb (distance a b) (maxDist dev)) eqn:E; [|destruct H].
        destruct H as [<-|[]]. apply Rltb_true in E.
        exists 0%nat, b. rewrite Nat.add_0_r. auto.
      * exists (S k), b'. replace (j + S k)%nat with (S j + k)%nat by lia. auto.
    + intros ([|k] & b' & Hk & Hd & ->).
      * injection Hk as ->. left. apply Rltb_true in Hd. rewrite Hd.
        rewrite Nat.add_0_r. left. reflexivity.
      * right. exists k, b'. replace (S j + k)%nat with (j + S k)%nat by lia. auto.
Qed.

Lemma mouse_line_In dev m i a s :
  In s (mouse_line dev m i a) <->
  isHigh dev = true
  /\ hypot (x a - mx m) (y a - my m) < mouseInf dev
  /\ s = MouseLine i ((1 - hypot (x a - mx m) (y a - my m) / mouseInf dev) * 0.75)
           ((1 - hypot (x a - mx m) (y a - my m) / mouseInf dev) * 0.75 * 2).
Proof.
  unfold mouse_line. destruct (isHigh dev).
  - destruct (Rltb (hypot (x a - mx m) (y a - my m)) (mouseInf dev)) eqn:E.
    + apply Rltb_true in E. split.
      * intros [<-|[]]. auto.
      * intros (_ & _ & ->). left. reflexivity.
    + apply Rltb_false in E. split; [intros []|intros (_ & H & _); lra].
  - split; [intros []|intros (H & _); discriminate].
Qed.

Lemma strokes_from_link dev m ns : forall i i' j' op w,
  In (Link i' j' op w) (strokes_from dev m i ns) <->
  exists k l a b, ns !! k = Some a /\ ns !! l = Some b /\ (k < l)%nat
                  /\ i' = (i + k)%nat /\ j' = (i + l)%nat
                  /\ distance a b < maxDist dev
                  /\ op = (1 - distance a b / maxDist dev) * 0.45 /\ w = op * 1.2.
Proof.
  induction ns as [|a rest IH]; intros i i' j' op w; cbn [strokes_from].
  - split; [intros []|intros (k & l & a & b & H & _); discriminate].
  - rewrite !in_app_iff, links_from_In, mouse_line_In, IH. split.
    + intros [(k & b & Hk & Hd & E)|[(_ & _ & E)|(k & l & a' & b & Hk & Hl & Hkl & -> & -> & Hd & -> & ->)]].
      * injection E as -> -> -> ->.
        exists 0%nat, (S k), a, b. rewrite Nat.add_0_r.
        replace (i + S k)%nat with (S i + k)%nat by lia.
        repeat split; try assumption; try reflexivity. lia.
      * discriminate E.
      * exists (S k), (S l), a', b.
        replace (i + S k)%nat with (S i + k)%nat by lia.
        replace (i + S l)%nat with (S i + l)%nat by lia.
        repeat split; try assumption; try reflexivity. lia.
    + intros (k & l & a' & b & Hk & Hl & Hkl & -> & -> & Hd & -> & ->).
      destruct k as [|k].
      * injection Hk as ->. destruct l as [|l]; [lia|]. left.
        exists l, b. rewrite Nat.add_0_r.
        replace (S i + l)%nat with (i + S l)%nat by lia. auto.
      * destruct l as [|l]; [lia|]. right. right.
        exists k, l, a', b.
        replace (S i + k)%nat with (i + S k)%nat by lia.
        replace (S i + l)%nat with (i + S l)%nat by lia.
        repeat split; try assumption; try reflexivity. lia.
Qed.

Lemma strokes_from_mouse dev m ns : forall i i' op w,
  In (MouseLine i' op w) (strokes_from dev m i ns) <->
  exists k a, ns !! k = Some a /\ i' = (i + k)%nat
              /\ isHigh dev = true
              /\ hypot (x a - mx m) (y a - my m) < mouseInf dev
              /\ op = (1 - hypot (x a - mx m) (y a - my m) / mouseInf dev) * 0.75
              /\ w = op * 2.
Proof.
  induction ns as [|a rest IH]; intros i i' op w; cbn [strokes_from].
  - split; [intros []|intros (k & a & H & _); discriminate].
  - rewrite !in_app_iff, links_from_In, mouse_line_In, IH. split.
    + intros [(k & b & _ & _ & E)|[(Hh & Hd & E)|(k & a' & Hk & -> & Hh & Hd & -> & ->)]].
      * discriminate E.
      * injection E as -> -> ->. exists 0%nat, a. rewrite Nat.add_0_r. repeat split; try assumption; reflexivity.
      * exists (S k), a'. replace (i + S k)%nat with (S i + k)%nat by lia.
        repeat split; try assumption; reflexivity.
    + intros ([|k] & a' & Hk & -> & Hh & Hd & -> & ->).
      * injection Hk as ->. right. left. rewrite Nat.add_0_r. repeat split; try assumption; reflexivity.
      * right. right. exists k, a'.
        replace (S i + k)%nat with (i + S k)%nat by lia.
        repeat split; try assumption; reflexivity.
Qed.

Lemma links_from_count dev i a rest : forall j,
  (length (List.filter is_link (links_from dev i a j rest)) <= length rest)%nat.
Proof.
  induction rest as [|b rest IH]; intros j; cbn [links_from]; cbv zeta; [simpl; lia|].
  rewrite List.filter_app, length_app. specialize (IH (S j)).
  destruct (Rltb (distance a b) (maxDist dev)); simpl; lia.
Qed.

Lemma mouse_line_count dev m i a :
  length (List.filter is_link (mouse_line dev m i a)) = 0%nat.
Proof.
  unfold mouse_line. destruct (isHigh dev); [|reflexivity].
  destruct (Rltb _ _); reflexivity.
Qed.

Lemma strokes_from_count dev m ns : forall i,
  (2 * length (List.filter is_link (strokes_from dev m i ns))
   <= length ns * (length ns - 1))%nat.
Proof.
  induction ns as [|a rest IH]; intros i; cbn [strokes_from]; [simpl; lia|].
  rewrite !List.filter_app, !length_app, mouse_line_count.
  pose proof (links_from_count dev i a rest (S i)). specialize (IH (S i)).
  cbn [length]. nia.
Qed.

(** X3. In a frame a line joins nodes [i < j] exactly when their
    distance is below [maxDist]; its opacity (1 - d/maxDist) * 0.45 lies
    in (0, 0.45] and its width is 1.2 times that; a line to the pointer
    is drawn only on the High tier, for the nodes closer than
    [mouseInf]; and [n] nodes give at most n(n-1)/2 joining lines. *)
Theorem connection_lines (dev : DeviceT) (st : Net) :
  (forall i j op w,
      In (Link i j op w) (strokes dev st) <->
      exists a b, nodes st !! i = Some a /\ nodes st !! j = Some b /\ (i < j)%nat
                  /\ distance a b < maxDist dev
                  /\ op = (1 - distance a b / maxDist dev) * 0.45 /\ w = op * 1.2)
  /\ (forall i j op w, In (Link i j op w) (strokes dev st) -> 0 < op <= 0.45)
  /\ (forall i op w,
        In (MouseLine i op w) (strokes dev st) <->
        exists a, nodes st !! i = Some a /\ isHigh dev = true
                  /\ hypot (x a - mx (mouse st)) (y a - my (mouse st)) < mouseInf dev
                  /\ op = (1 - hypot (x a - mx (mouse st)) (y a - my (mouse st))
                               / mouseInf dev) * 0.75
                  /\ w = op * 2)
  /\ (2 * length (List.filter is_link (strokes dev st))
      <= length (nodes st) * (length (nodes st) - 1))%nat.
Proof.
  assert (HL : forall i j op w,
      In (Link i j op w) (strokes dev st) <->
      exists a b, nodes st !! i = Some a /\ nodes st !! j = Some b /\ (i < j)%nat
                  /\ distance a b < maxDist dev
                  /\ op = (1 - distance a b / maxDist dev) * 0.45 /\ w = op * 1.2).
  { intros i j op w. unfold strokes. rewrite strokes_from_link. split.
    - intros (k & l & a & b & Hk & Hl & Hkl & -> & -> & H). exists a, b. tauto.
    - intros (a & b & Hi & Hj & Hij & H). exists i, j, a, b. tauto. }
  split; [exact HL|]. split; [|split].
  - intros i j op w H. apply HL in H. destruct H as (a & b & _ & _ & _ & Hd & -> & _).
    apply fade_range; [|lra]. split; [apply hypot_nonneg|exact Hd].
  - intros i op w. unfold strokes. rewrite strokes_from_mouse. split.
    + intros (k & a & Hk & -> & H). exists a. tauto.
    + intros (a & Hi & H). exists i, a. tauto.
  - apply strokes_from_count.
Qed.

Lemma connection_lines_witness :
  In (Link 0 1 ((1 - distance (still 0 0) (still 30 40) / maxDist (Device desktop)) * 0.45)
        ((1 - distance (still 0 0) (still 30 40) / maxDist (Device desktop)) * 0.45 * 1.2))
    (strokes (Device desktop)
       {| canvas := {| width := 1024; height := 768 |};
          nodes := [still 0 0; still 30 40]; mouse := sentinel |}).
Proof.
  apply (proj1 (connection_lines (Device desktop) _)).
  exists (still 0 0), (still 30 40).
  split; [reflexivity|]. split; [reflexivity|]. split; [lia|].
  split; [|split; reflexivity].
  change (maxDist (Device desktop)) with 120. unfold distance. simpl.
  replace ((0 - 30) * (0 - 30) + (0 - 40) * (0 - 40)) with (50 * 50) by ring.
  unfold hypot.
  replace ((0 - 30) * (0 - 30) + (0 - 40) * (0 - 40)) with (50 * 50) by ring.
  rewrite sqrt_square; lra.
Defined.

End LinkFacts.

(** ** Spawning and free flight *)

Section SpawnFacts.
Import Capability Field Spawn.
Local Open Scope R_scope.

Lemma spawnNode_well_formed dev cv g :
  unit_range g ->
  well_formed cv (fst (spawnNode dev cv g)) /\ unit_range (snd (spawnNode dev cv g)).
Proof.
  intros H.
  assert (Hc : exists c,
    colors !! Z.to_nat (Math_floor (g 6%nat * NR (N.of_nat (length colors)))) = Some c
    /\ In c colors).
  { destruct (random_pick colors (g 6%nat) (H 6%nat)) as [c Hc]; [discriminate|].
    exists c. split; [exact Hc|]. apply list_elem_of_In.
    exact (list_elem_of_lookup_2 _ _ _ Hc). }
  unfold spawnNode, Math_random. cbv beta iota zeta. cbn [fst snd].
  split; [|intros i; apply H].
  pose proof (H 0%nat) as H0. pose proof (H 1%nat) as H1.
  pose proof (H 2%nat) as H2. pose proof (H 3%nat) as H3.
  pose proof (H 4%nat) as H4. pose proof (H 5%nat) as H5.
  pose proof (NR_nonneg (width cv)). pose proof (NR_nonneg (height cv)).
  pose proof PI_RGT_0 as Hpi.
  unfold well_formed, in_bounds. cbn [x y vx vy r pulse color].
  split; [split; nra|].
  assert (Hk : 0 <= (if isMid dev then 0.25 else 0.35) <= 0.35)
    by (destruct (isMid dev); lra).
  split; [nra|]. split; [nra|]. split; [lra|]. split; [nra|exact Hc].
Qed.

Lemma free_frame_node dev cv n :
  settled cv n ->
  exists n', draw_node dev cv sentinel n = Some n'
             /\ settled cv n'
             /\ Rabs (vx n') = Rabs (vx n) /\ Rabs (vy n') = Rabs (vy n).
Proof.
  intros Hs. exists (bounce cv (advance n)).
  split; [apply sentinel_frame; exact Hs|].
  split.
  - split; [apply bounce_in_bounds|]. rewrite bounce_speed, advance_speed. apply Hs.
  - unfold bounce, advance, with_pos. cbn [x y vx vy].
    split.
    + destruct (Rltb (x n + vx n) 0 || Rgtb (x n + vx n) (NR (width cv))); [|reflexivity].
      replace (vx n * -1) with (- vx n) by ring. apply Rabs_Ropp.
    + destruct (Rltb (y n + vy n) 0 || Rgtb (y n + vy n) (NR (height cv))); [|reflexivity].
      replace (vy n * -1) with (- vy n) by ring. apply Rabs_Ropp.
Qed.

Lemma mapM_relates {A} (f : A -> option A) (P : A -> Prop) (Q : A -> A -> Prop) (l : list A) :
  (forall a, P a -> exists b, f a = Some b /\ P b /\ Q a b) ->
  Forall P l ->
  exists l', mapM f l = Some l' /\ Forall P l' /\ Forall2 Q l l'.
Proof.
  intros Hf Hl. induction Hl as [|a l Ha Hl (l' & E & HP & HQ)].
  - exists []. split; [reflexivity|]. split; constructor.
  - destruct (Hf a Ha) as (b & Eb & Pb & Qb). exists (b :: l').
    split; [simpl; rewrite Eb; simpl; rewrite E; reflexivity|].
    split; constructor; assumption.
Qed.

Lemma Forall2_chain {A} (Q : A -> A -> Prop) (l1 l2 l3 : list A) :
  (forall a b c, Q a b -> Q b c -> Q a c) ->
  Forall2 Q l1 l2 -> Forall2 Q l2 l3 -> Forall2 Q l1 l3.
Proof.
  intros Ht H12. revert l3. induction H12 as [|a b l1 l2 Hab H12 IH]; intros l3 H23.
  - inversion H23. constructor.
  - inversion H23 as [|? c ? l3' Hbc H23']; subst. constructor; eauto.
Qed.

(** X4. With [Math.random] in its range, every node that [spawnNodes]
    creates lies inside the canvas, has velocity components of at most
    0.175 in absolute value, a radius in [0.8, 2.3), a phase in
    [0, 2 pi) and one of the three palette colours (never [undefined]);
    the generator it hands back is still in range. *)
Theorem spawned_nodes_well_formed (dev : DeviceT) (h : Host) (cv : Canvas) (g : Rng) :
  unit_range g ->
  Forall (well_formed cv) (fst (spawnNodes dev h cv g))
  /\ unit_range (snd (spawnNodes dev h cv g)).
Proof.
  intros Hg. unfold spawnNodes. split.
  - apply Array_from_establishes; [|exact Hg].
    intros g0. apply spawnNode_well_formed.
  - apply Array_from_range; [|exact Hg].
    intros g0 Hg0. apply spawnNode_well_formed. exact Hg0.
Qed.

Lemma spawned_nodes_well_formed_witness :
  Forall (well_formed {| width := 1024; height := 768 |})
    (fst (spawnNodes (Device desktop) desktop {| width := 1024; height := 768 |}
            (fun _ => 0))).
Proof.
  refine (proj1 (spawned_nodes_well_formed (Device desktop) desktop _ (fun _ => 0) _)).
  intros i. lra.
Defined.

(** X5. While the pointer stays parked at the sentinel, frames never
    change the magnitude of a settled node's velocity components: after
    any number of frames every node still has the |vx| and |vy| it
    started with, and is still settled. *)
Theorem parked_pointer_conserves_velocity (dev : DeviceT) (st : Net) (k : nat) :
  Forall (settled (canvas st)) (nodes st) ->
  mouse st = sentinel ->
  exists st',
    handle_all dev st (repeat Frame k) = Some st'
    /\ canvas st' = canvas st /\ mouse st' = sentinel
    /\ Forall (settled (canvas st')) (nodes st')
    /\ Forall2 (fun n n' => Rabs (vx n') = Rabs (vx n) /\ Rabs (vy n') = Rabs (vy n))
         (nodes st) (nodes st').
Proof.
  revert st. induction k as [|k IH]; intros st Hs Hm.
  - exists st. simpl. split; [reflexivity|]. split; [reflexivity|]. split; [exact Hm|].
    split; [exact Hs|]. apply Forall2_same_length_lookup_2; [reflexivity|].
    intros i a b Ha Hb. rewrite Ha in Hb. injection Hb as ->. tauto.
  - destruct (mapM_relates (draw_node dev (canvas st) (mouse st)) (settled (canvas st))
                (fun n n' => Rabs (vx n') = Rabs (vx n) /\ Rabs (vy n') = Rabs (vy n))
                (nodes st)) as (ns & E & HP & HQ); [|exact Hs|].
    { intros a Ha. rewrite Hm. apply free_frame_node. exact Ha. }
    set (st1 := {| canvas := canvas st; nodes := ns; mouse := mouse st |}).
    destruct (IH st1 HP Hm) as (st' & E' & Hc & Hm' & HP' & HQ').
    exists st'. cbn [repeat handle_all handle]. unfold draw. rewrite E. simpl.
    fold st1. rewrite E'.
    split; [reflexivity|]. split; [exact Hc|]. split; [exact Hm'|]. split; [exact HP'|].
    apply (Forall2_chain _ _ ns); [|exact HQ|exact HQ'].
    intros a b c [H1 H2] [H3 H4]. split; congruence.
Qed.

Lemma parked_pointer_conserves_velocity_witness :
  exists st',
    handle_all (Device desktop)
      {| canvas := {| width := 1024; height := 768 |};
         nodes := [still 10 20]; mouse := sentinel |} (repeat Frame 3) = Some st'
    /\ Forall (settled (canvas st')) (nodes st').
Proof.
  destruct (parked_pointer_conserves_velocity (Device desktop)
              {| canvas := {| width := 1024; height := 768 |};
                 nodes := [still 10 20]; mouse := sentinel |} 3)
    as (st' & E & _ & _ & Hs & _).
  - constructor; [|constructor]. split.
    + unfold in_bounds, NR. simpl. lra.
    + unfold speed. simpl. rewrite (proj2 (hypot_zero 0 0)) by tauto. lra.
  - reflexivity.
  - exists st'. split; assumption.
Defined.

End SpawnFacts.

(** ** Typewriter headline *)

Section TypingFacts.
Import Typing.

Lemma type_keeps_range texts st :
  in_range texts st ->
  exists st' shown d,
    type texts st = Some (st', (shown, d))
    /\ in_range texts st'
    /\ (exists cur, texts !! idx st = Some cur /\ shown = firstn (Z.to_nat (c st)) cur)
    /\ (d = 45 \/ d = 85 \/ d = 500 \/ d = 2400)%N.
Proof.
  intros (cur & Hcur & Hc).
  assert (Hn : (length texts <> 0)%nat).
  { intros E. apply length_zero_iff_nil in E. rewrite E in Hcur. discriminate. }
  assert (Hlt : ((idx st + 1) mod length texts < length texts)%nat)
    by (apply Nat.mod_upper_bound; exact Hn).
  apply lookup_lt_is_Some in Hlt. destruct Hlt as [nxt Hnxt].
  destruct (del st) eqn:Hd.
  - destruct (c st - 1 =? 0)%Z eqn:E.
    + do 3 eexists.
      split; [unfold type; rewrite Hcur, Hd; cbn [negb andb]; rewrite E; reflexivity|].
      split; [|split; [eauto|lia]].
      exists nxt. cbn [idx c del]. split; [exact Hnxt|]. lia.
    + do 3 eexists.
      split; [unfold type; rewrite Hcur, Hd; cbn [negb andb]; rewrite E; reflexivity|].
      split; [|split; [eauto|lia]].
      exists cur. cbn [idx c del]. split; [exact Hcur|]. lia.
  - destruct (c st + 1 =? Z.of_nat (length cur) + 1)%Z eqn:E.
    + do 3 eexists.
      split; [unfold type; rewrite Hcur, Hd; cbn [negb andb]; rewrite E; reflexivity|].
      split; [|split; [eauto|lia]].
      exists cur. cbn [idx c del]. split; [exact Hcur|]. lia.
    + do 3 eexists.
      split; [unfold type; rewrite Hcur, Hd; cbn [negb andb]; rewrite E; reflexivity|].
      split; [|split; [eauto|lia]].
      exists cur. cbn [idx c del]. split; [exact Hcur|]. lia.
Qed.

Lemma types_app texts k1 k2 st st1 st2 o1 o2 :
  types texts k1 st = Some (st1, o1) ->
  types texts k2 st1 = Some (st2, o2) ->
  types texts (k1 + k2) st = Some (st2, (o1 ++ o2)%list).
Proof.
  revert st st1 o1. induction k1 as [|k1 IH]; intros st st1 o1; simpl.
  - intros [= <- <-]. simpl. tauto.
  - destruct (type texts st) as [[sa out]|]; [|discriminate].
    destruct (types texts k1 sa) as [[sb outs]|] eqn:E; [|discriminate].
    intros [= <- <-] H2. rewrite (IH _ _ _ E H2). reflexivity.
Qed.

Lemma types_S texts k st :
  types texts (S k) st
  = match type texts st with
    | None => None
    | Some (st1, out) =>
        match types texts k st1 with
        | None => None
        | Some (st2, outs) => Some (st2, out :: outs)
        end
    end.
Proof. reflexivity. Qed.

(** Typing from position [j] to the full text. *)
Lemma typing_from texts i cur :
  texts !! i = Some cur ->
  forall n j, (j + n = length cur)%nat ->
  types texts (S n) {| idx := i; c := Z.of_nat j; del := false |}
  = Some ({| idx := i; c := Z.of_nat (length cur) + 1; del := true |},
          map (fun k => (firstn k cur, if (k =? length cur)%nat then 2400%N else 85%N))
              (seq j (S n))).
Proof.
  intros Hcur. induction n as [|n IH]; intros j Hj.
  - cbn [types seq map]. unfold type. cbn [idx c del]. rewrite Hcur. cbn [negb andb].
    replace (Z.of_nat j + 1 =? Z.of_nat (length cur) + 1)%Z with true
      by (symmetry; apply Z.eqb_eq; lia).
    unfold substring0. rewrite Nat2Z.id.
    replace (j =? length cur)%nat with true by (symmetry; apply Nat.eqb_eq; lia).
    replace (Z.of_nat j + 1)%Z with (Z.of_nat (length cur) + 1)%Z by lia.
    reflexivity.
  - rewrite types_S. unfold type at 1. cbn [idx c del]. rewrite Hcur. cbn [negb andb].
    replace (Z.of_nat j + 1 =? Z.of_nat (length cur) + 1)%Z with false
      by (symmetry; apply Z.eqb_neq; lia).
    cbn [andb]. replace (Z.of_nat j + 1)%Z with (Z.of_nat (S j)) by lia.
    rewrite (IH (S j)) by lia.
    unfold substring0. rewrite Nat2Z.id.
    cbn [seq map].
    replace (j =? length cur)%nat with false by (symmetry; apply Nat.eqb_neq; lia).
    reflexivity.
Qed.

(** Deleting from position [j] down to the empty text. *)
Lemma deleting_from texts i cur :
  texts !! i = Some cur ->
  forall j, (j <= length cur)%nat ->
  types texts (S j) {| idx := i; c := Z.of_nat (S j); del := true |}
  = Some ({| idx := (i + 1) mod length texts; c := 0; del := false |},
          map (fun k => (firstn k cur, if (k =? 1)%nat then 500%N else 45%N))
              (rev (seq 1 (S j)))).
Proof.
  intros Hcur. induction j as [|j IH]; intros Hj.
  - cbn [types seq rev map app]. unfold type. cbn [idx c del]. rewrite Hcur. cbn [negb andb].
    unfold substring0. reflexivity.
  - rewrite types_S. unfold type at 1. cbn [idx c del]. rewrite Hcur. cbn [negb andb].
    replace (Z.of_nat (S (S j)) - 1 =? 0)%Z with false
      by (symmetry; apply Z.eqb_neq; lia).
    replace (Z.of_nat (S (S j)) - 1)%Z with (Z.of_nat (S j)) by lia.
    rewrite IH by lia.
    unfold substring0. rewrite Nat2Z.id.
    rewrite (seq_S (S j) 1), rev_app_distr. cbn [rev app map Nat.add].
    reflexivity.
Qed.

(** X6. The typewriter never leaves its range: from a state in range
    [type()] succeeds, stays in range, writes a prefix of the current
    text and waits 45, 85, 500 or 2400 ms. One round on a text of
    length [n] takes 2(n+1) calls: it writes the prefixes of length
    0..n (85 ms apart, 2400 ms after the full text), then those of
    length n+1..1 (45 ms apart, 500 ms after the last), and hands over
    to the next text, wrapping around at the end of the list. *)
Theorem typewriter_round (texts : list Text) (i : nat) (cur : Text) :
  texts !! i = Some cur ->
  (forall st, in_range texts st ->
     exists st' shown d,
       type texts st = Some (st', (shown, d))
       /\ in_range texts st'
       /\ (exists cur', texts !! idx st = Some cur'
                        /\ shown = firstn (Z.to_nat (c st)) cur')
       /\ (d = 45 \/ d = 85 \/ d = 500 \/ d = 2400)%N)
  /\ types texts (2 * S (length cur)) {| idx := i; c := 0; del := false |}
     = Some ({| idx := (i + 1) mod length texts; c := 0; del := false |},
             (typing_phase cur ++ deleting_phase cur)%list).
Proof.
  intros Hcur. split; [intros st; apply type_keeps_range|].
  replace (2 * S (length cur))%nat with (S (length cur) + S (length cur))%nat by lia.
  eapply types_app.
  - exact (typing_from texts i cur Hcur (length cur) 0 eq_refl).
  - replace (Z.of_nat (length cur) + 1)%Z with (Z.of_nat (S (length cur))) by lia.
    exact (deleting_from texts i cur Hcur (length cur) (le_n _)).
Qed.

Lemma typewriter_round_witness :
  types [[72; 105]; [79]]%N 6 start
  = Some ({| idx := 1; c := 0; del := false |},
          [([], 85); ([72], 85); ([72; 105], 2400);
           ([72; 105], 45); ([72; 105], 45); ([72], 500)]%N).
Proof.
  exact (proj2 (typewriter_round [[72; 105]; [79]]%N 0 [72; 105]%N eq_refl)).
Defined.

End TypingFacts.

(** ** Navbar menu *)

Section MenuFacts.
Import Drivers Menu.

Lemma click_consistent nb t m s e :
  toggle nb = Some t -> menu nb = Some m -> consistent s ->
  exists s', click nb e s = Done s' /\ consistent s'
    /\ menuOpen s' = match e with
                     | OnToggle => negb (menuOpen s)
                     | InsideMenu => menuOpen s
                     | OnLink | Elsewhere => false
                     end.
Proof.
  intros Ht Hm [H1 H2].
  destruct s as [a o v]. cbn [toggleActive menuOpen bodyOverflow] in *. subst a v.
  unfold click, onToggleClick, onDocumentClick, close, consistent, has.
  rewrite Ht, Hm.
  destruct e, o; cbn; eexists; (split; [reflexivity|]); cbn; auto.
Qed.

Lemma clicks_consistent nb t m es : forall s,
  toggle nb = Some t -> menu nb = Some m -> consistent s ->
  consistent (clicks nb es s).
Proof.
  unfold clicks. induction es as [|e es IH]; intros s Ht Hm Hs; [exact Hs|].
  cbn [fold_left].
  destruct (click_consistent nb t m s e Ht Hm Hs) as (s' & E & Hs' & _).
  rewrite E. cbn [state_of]. apply (IH s' Ht Hm Hs').
Qed.

(** X7. With the toggle and the menu in the document, however the user
    clicks, the three stay in step: the toggle is marked active exactly
    when the menu is open, and the page scroll is locked
    ([overflow: hidden]) exactly when the menu is open. A click on the
    toggle flips the menu, a click on a link or outside closes it, a
    click inside the menu leaves it, and no listener throws. *)
Theorem menu_stays_consistent (nb : NavbarT) (t m : string) :
  toggle nb = Some t -> menu nb = Some m ->
  (forall es, consistent (clicks nb es closed))
  /\ (forall s e, consistent s ->
        exists s', click nb e s = Done s' /\ consistent s'
          /\ menuOpen s' = match e with
                           | OnToggle => negb (menuOpen s)
                           | InsideMenu => menuOpen s
                           | OnLink | Elsewhere => false
                           end).
Proof.
  intros Ht Hm. split.
  - intros es. apply (clicks_consistent nb t m es closed Ht Hm). split; reflexivity.
  - intros s e Hs. exact (click_consistent nb t m s e Ht Hm Hs).
Qed.

Lemma menu_stays_consistent_witness :
  consistent
    (clicks {| nav := Some "navbar"; toggle := Some "navToggle";
               menu := Some "navMenu"; ticking := false |}
       [OnToggle; InsideMenu; OnLink; OnToggle; Elsewhere] closed).
Proof.
  exact (proj1 (menu_stays_consistent
                  {| nav := Some "navbar"; toggle := Some "navToggle";
                     menu := Some "navMenu"; ticking := false |}
                  "navToggle" "navMenu" eq_refl eq_refl) _).
Defined.

(** X8. With the toggle in the document but no menu, every click on
    the toggle throws after it has flipped the toggle's own mark: after
    [k] such clicks the toggle is marked active exactly when [k] is
    odd, while the (absent) menu and the page scroll lock are as they
    were. *)
Theorem toggle_without_menu (nb : NavbarT) (t : string) (s : MenuState) (k : nat) :
  toggle nb = Some t -> menu nb = None ->
  (exists s', click nb OnToggle s = Threw s')
  /\ clicks nb (repeat OnToggle k) s
     = {| toggleActive := if Nat.odd k then negb (toggleActive s) else toggleActive s;
          menuOpen := menuOpen s; bodyOverflow := bodyOverflow s |}.
Proof.
  intros Ht Hm. split.
  - unfold click, onToggleClick, has. rewrite Ht, Hm. eexists. reflexivity.
  - revert s. induction k as [|k IH]; intros s.
    + destruct s; reflexivity.
    + unfold clicks in *. cbn [repeat fold_left]. rewrite IH.
      unfold click, onToggleClick, onDocumentClick, has. rewrite Ht, Hm.
      cbn [state_of andb toggleActive menuOpen bodyOverflow].
      rewrite Nat.odd_succ, <- Nat.negb_odd.
      destruct (Nat.odd k); cbn [negb]; [rewrite negb_involutive|]; reflexivity.
Qed.

Lemma toggle_without_menu_witness :
  clicks {| nav := Some "navbar"; toggle := Some "navToggle";
            menu := None; ticking := false |}
    (repeat OnToggle 3) closed
  = {| toggleActive := true; menuOpen := false; bodyOverflow := "" |}.
Proof.
  exact (proj2 (toggle_without_menu
                  {| nav := Some "navbar"; toggle := Some "navToggle";
                     menu := None; ticking := false |}
                  "navToggle" closed 3 eq_refl eq_refl)).
Defined.

End MenuFacts.

(** ** Project filter *)

Section FilterFacts.
Import Filter.

Lemma strict_eq_eq a b : strict_eq a b = true <-> a = b.
Proof.
  destruct a as [s|], b as [t|]; simpl; try (split; [discriminate|discriminate]).
  - rewrite String.eqb_eq. split; [intros ->; reflexivity|intros [= ->]; reflexivity].
  - tauto.
Qed.

Lemma shows_iff f card :
  shows f card = true <-> f = Some "all" \/ category card = f.
Proof. unfold shows. rewrite orb_true_iff, !strict_eq_eq. tauto. Qed.

(** X9. After a click on an existing filter button, that button and no
    other is marked active, the buttons keep their filters, and a card
    is visible exactly when the button's filter is "all" or equals the
    card's category, whatever was hidden before; clicking the same
    button again changes nothing. *)
Theorem filter_click_selects (i : nat) (btns : list Button) (cards : list Card) (btn : Button) :
  btns !! i = Some btn ->
  let r := click i btns cards in
  length (fst r) = length btns
  /\ (forall j b, fst r !! j = Some b ->
        (active b = true <-> j = i)
        /\ exists b0, btns !! j = Some b0 /\ filter b = filter b0)
  /\ length (snd r) = length cards
  /\ (forall k card', snd r !! k = Some card' ->
        exists card, cards !! k = Some card /\ category card' = category card
          /\ (hidden card' = false <-> filter btn = Some "all" \/ category card = filter btn))
  /\ click i (fst r) (snd r) = r.
Proof.
  intros Hi. unfold click. rewrite Hi. cbn [fst snd].
  split; [apply length_imap|].
  split.
  { intros j b. rewrite list_lookup_imap.
    destruct (btns !! j) as [b0|] eqn:E; [|discriminate].
    intros [= <-]. cbn [active filter]. rewrite Nat.eqb_eq. split; [tauto|eauto]. }
  split; [apply length_map|].
  split.
  { intros k card'. rewrite list_lookup_fmap.
    destruct (cards !! k) as [card|] eqn:E; [|discriminate].
    intros [= <-]. cbn [hidden category]. exists card.
    split; [reflexivity|]. split; [reflexivity|].
    rewrite negb_false_iff. apply shows_iff. }
  rewrite list_lookup_imap, Hi. cbn [fmap option_fmap option_map filter].
  f_equal.
  - apply list_eq. intros j. rewrite !list_lookup_imap.
    destruct (btns !! j); reflexivity.
  - rewrite map_map. apply map_ext. intros card. reflexivity.
Qed.

Lemma filter_click_selects_witness :
  let btns := [{| filter := Some "all"; active := true |};
               {| filter := Some "web"; active := false |}] in
  let cards := [{| category := Some "web"; hidden := true |};
                {| category := Some "api"; hidden := false |};
                {| category := None; hidden := false |}] in
  click 1 (fst (click 1 btns cards)) (snd (click 1 btns cards)) = click 1 btns cards.
Proof.
  intros btns cards.
  exact (proj2 (proj2 (proj2 (proj2
           (filter_click_selects 1 btns cards {| filter := Some "web"; active := false |}
              eq_refl))))).
Defined.

End FilterFacts.

(** ** Card tilt *)

Section TiltFacts.
Import Tilt.
Local Open Scope Q_scope.

Lemma divide_by_positive a b : 0 < b -> divide a b = Some (a / b).
Proof.
  intros Hb. unfold divide. destruct (Qeq_bool b 0) eqn:E; [|reflexivity].
  apply Qeq_bool_iff in E. rewrite E in Hb. discriminate Hb.
Qed.

Lemma divide_by_zero a b : b == 0 -> divide a b = None.
Proof.
  intros Hb. unfold divide. apply Qeq_bool_iff in Hb. rewrite Hb. reflexivity.
Qed.

Lemma half_positive w : 0 < w -> 0 < w / 2.
Proof. intros H. apply Qlt_shift_div_l; [reflexivity|]. lra. Qed.

Lemma half_offset_range w l p :
  0 < w -> l <= p <= l + w -> -1 <= (p - l - w / 2) / (w / 2) <= 1.
Proof.
  intros Hw [H1 H2].
  pose proof (half_positive w Hw) as Hh.
  assert (E : w == 2 * (w / 2)) by field.
  set (h := w / 2) in *.
  split.
  - apply Qle_shift_div_l; [exact Hh|]. lra.
  - apply Qle_shift_div_r; [exact Hh|]. lra.
Qed.

(** X10. For a card of positive size and a pointer inside its bounding
    box, the offsets from the centre lie in [-1, 1], so [CardTilt]
    rotates by at most 7 degrees about either axis and [AboutTilt] by
    at most 12 and 9 degrees; for a card of zero width or height the
    division has a zero divisor and no finite angle comes out. *)
Theorem tilt_is_bounded (r : Rect) (clientX clientY : Q) :
  (0 < width r -> 0 < height r -> inside r clientX clientY ->
     exists dx dy,
       offsets r clientX clientY = Some (dx, dy)
       /\ -1 <= dx <= 1 /\ -1 <= dy <= 1
       /\ CardTilt_mousemove r clientX clientY = Some (- dy * 7, dx * 7)
       /\ -7 <= - dy * 7 <= 7 /\ -7 <= dx * 7 <= 7
       /\ AboutTilt_mousemove r clientX clientY = Some (dx * 12, - dy * 9)
       /\ -12 <= dx * 12 <= 12 /\ -9 <= - dy * 9 <= 9)
  /\ (width r == 0 \/ height r == 0 ->
        CardTilt_mousemove r clientX clientY = None
        /\ AboutTilt_mousemove r clientX clientY = None).
Proof.
  split.
  - intros Hw Hh [Hx Hy].
    pose proof (half_positive _ Hw) as Hw2.
    pose proof (half_positive _ Hh) as Hh2.
    pose proof (half_offset_range _ _ _ Hw Hx) as Dx.
    pose proof (half_offset_range _ _ _ Hh Hy) as Dy.
    eexists. eexists.
    unfold CardTilt_mousemove, AboutTilt_mousemove, offsets.
    rewrite !divide_by_positive by assumption.
    split; [reflexivity|]. split; [exact Dx|]. split; [exact Dy|].
    split; [reflexivity|]. split; [lra|]. split; [lra|].
    split; [reflexivity|]. split; lra.
  - intros H.
    assert (E : offsets r clientX clientY = None).
    { unfold offsets.
      destruct (divide (clientX - left r - width r / 2) (width r / 2)) as [dx|] eqn:Ex;
        [|reflexivity].
      destruct H as [H|H].
      - rewrite divide_by_zero in Ex by (rewrite H; reflexivity). discriminate Ex.
      - cbn. rewrite divide_by_zero by (rewrite H; reflexivity). reflexivity. }
    unfold CardTilt_mousemove, AboutTilt_mousemove. rewrite E. split; reflexivity.
Qed.

Lemma tilt_is_bounded_witness :
  exists dx dy,
    offsets {| left := 10; top := 20; width := 200; height := 100 |} 210 20
    = Some (dx, dy)
    /\ -7 <= - dy * 7 <= 7 /\ -7 <= dx * 7 <= 7.
Proof.
  destruct (proj1 (tilt_is_bounded
              {| left := 10; top := 20; width := 200; height := 100 |} 210 20))
    as (dx & dy & E & _ & _ & _ & Hx & Hy & _).
  - reflexivity.
  - reflexivity.
  - unfold inside; cbn. repeat split; discriminate.
  - exists dx, dy. tauto.
Defined.

End TiltFacts.

(** ** Cursor glow *)

Section CursorFacts.
Import Capability Dom Cursor.
Local Open Scope Q_scope.

Lemma lag_range dev : 0 < lag dev < 1.
Proof. unfold lag. destruct (isMid dev); split; reflexivity. Qed.

Lemma loop_gap dev s :
  gx (loop dev s) = gx s /\ gy (loop dev s) = gy s
  /\ gx s - gax (loop dev s) == (1 - lag dev) * (gx s - gax s)
  /\ gy s - gay (loop dev s) == (1 - lag dev) * (gy s - gay s).
Proof. unfold loop; cbn. repeat split; ring. Qed.

Lemma loops_gap dev s n :
  let s' := Nat.iter n (loop dev) s in
  gx s' = gx s /\ gy s' = gy s
  /\ gx s - gax s' == (1 - lag dev) ^ Z.of_nat n * (gx s - gax s)
  /\ gy s - gay s' == (1 - lag dev) ^ Z.of_nat n * (gy s - gay s).
Proof.
  induction n as [|n (Hx & Hy & Gx & Gy)].
  - cbv zeta. change (Nat.iter 0 (loop dev) s) with s.
    change ((1 - lag dev) ^ Z.of_nat 0) with 1.
    split; [reflexivity|]. split; [reflexivity|]. split; ring.
  - cbv zeta in *.
    change (Nat.iter (S n) (loop dev) s) with (loop dev (Nat.iter n (loop dev) s)).
    set (s1 := Nat.iter n (loop dev) s) in *.
    destruct (loop_gap dev s1) as (Lx & Ly & Kx & Ky).
    assert (Hb : ~ 1 - lag dev == 0) by (pose proof (lag_range dev); lra).
    assert (Hp : (1 - lag dev) ^ Z.of_nat (S n)
                 == (1 - lag dev) * (1 - lag dev) ^ Z.of_nat n).
    { replace (Z.of_nat (S n)) with (1 + Z.of_nat n)%Z by lia.
      rewrite Qpower_plus by exact Hb. reflexivity. }
    split; [congruence|]. split; [congruence|].
    rewrite Hp. rewrite <- Hx, <- Hy in *.
    split.
    + rewrite Kx. rewrite Hx in *. rewrite Gx. ring.
    + rewrite Ky. rewrite Hy in *. rewrite Gy. ring.
Qed.

(** X11. While the pointer rests, every frame shrinks the glow's
    distance to it by the factor 1 - lag (0.82 on Mid, 0.88 otherwise)
    along each axis: after [n] frames the gap is (1 - lag)^n times the
    initial gap, and the glow never overshoots the pointer. *)
Theorem cursor_glow_closes_in (dev : DeviceT) (s : CursorGlowT) (n : nat) :
  let s' := Nat.iter n (loop dev) s in
  gx s - gax s' == (1 - lag dev) ^ Z.of_nat n * (gx s - gax s)
  /\ gy s - gay s' == (1 - lag dev) ^ Z.of_nat n * (gy s - gay s)
  /\ (gax s <= gx s -> gax s <= gax s' <= gx s)
  /\ (gx s <= gax s -> gx s <= gax s' <= gax s)
  /\ dx s' = dx s /\ dy s' = dy s.
Proof.
  intros s'. destruct (loops_gap dev s n) as (_ & _ & Gx & Gy). fold s' in Gx, Gy.
  assert (Hp : 0 <= (1 - lag dev) ^ Z.of_nat n <= 1).
  { pose proof (lag_range dev) as Hl. clear Gx Gy s'.
    induction n as [|n IH]; [cbn; split; discriminate|].
    assert (Hb : ~ 1 - lag dev == 0) by lra.
    replace (Z.of_nat (S n)) with (1 + Z.of_nat n)%Z by lia.
    rewrite Qpower_plus by exact Hb.
    change ((1 - lag dev) ^ 1) with (1 - lag dev). nra. }
  set (q := (1 - lag dev) ^ Z.of_nat n) in *.
  split; [exact Gx|]. split; [exact Gy|].
  split; [intros H; nra|]. split; [intros H; nra|].
  unfold s'. clear. induction n as [|n [IH1 IH2]]; [split; reflexivity|].
  change (Nat.iter (S n) (loop dev) s) with (loop dev (Nat.iter n (loop dev) s)).
  unfold loop at 1 3. cbn [dx dy]. tauto.
Qed.

Lemma cursor_glow_closes_in_witness :
  let s := {| gx := 100; gy := 50; gax := 0; gay := 0; dx := 100; dy := 50 |} in
  let s' := Nat.iter 2 (loop (Device Field.desktop)) s in
  gax s <= gax s' <= gx s.
Proof.
  intros s s'.
  refine (proj1 (proj2 (proj2 (cursor_glow_closes_in (Device Field.desktop) s 2))) _).
  discriminate.
Defined.

Lemma lookup_without a b p :
  dom (without a p) !! b = if decide (a = b) then None else dom p !! b.
Proof. unfold without; cbn. apply lookup_delete. Qed.

(** X12. [CursorGlow] starts only if [#cursorGlow] exists and the
    device is neither narrow nor hover-less. In every other case it
    takes both [#cursorGlow] and [#cursorDot] out of the document, sets
    the body cursor to "auto" and registers nothing. When it starts,
    its first [loop()] call places the glow, and the dot if there is
    one, at the origin (left and top 0 px) and changes nothing else in
    the document, and it registers one [mousemove] listener and one
    frame loop. *)
Theorem cursor_glow_starts_or_cleans_up (dev : DeviceT) (hoverNone : bool) (p : Page) :
  let r := CursorGlow_new dev hoverNone p in
  (dom p !! "cursorGlow" = None \/ mobile dev = true \/ hoverNone = true ->
     fst r = (None, Some "auto")
     /\ dom (snd r) !! "cursorGlow" = None /\ dom (snd r) !! "cursorDot" = None
     /\ (forall b, b <> "cursorGlow" -> b <> "cursorDot" -> dom (snd r) !! b = dom p !! b)
     /\ handles (snd r) = handles p)
  /\ (is_Some (dom p !! "cursorGlow") -> mobile dev = false -> hoverNone = false ->
        (exists s, fst r = (Some s, None) /\ gax s == 0 /\ gay s == 0
           /\ dom (snd r) !! "cursorGlow"
              = place (gax s) (gay s) <$> dom p !! "cursorGlow")
        /\ dom (snd r) !! "cursorDot" = place 0 0 <$> dom p !! "cursorDot"
        /\ (forall b, b <> "cursorGlow" -> b <> "cursorDot" -> dom (snd r) !! b = dom p !! b)
        /\ handles (snd r)
           = (handles p ++ [Listener "window" "mousemove"; FrameLoop "CursorGlow.loop"])%list).
Proof.
  assert (Clean : let q := without "cursorDot" (without "cursorGlow" p) in
     dom q !! "cursorGlow" = None /\ dom q !! "cursorDot" = None
     /\ (forall b, b <> "cursorGlow" -> b <> "cursorDot" -> dom q !! b = dom p !! b)
     /\ handles q = handles p).
  { cbv zeta. rewrite !lookup_without. repeat split.
    - intros b H1 H2. rewrite !lookup_without.
      destruct (decide ("cursorDot" = b)); [congruence|].
      destruct (decide ("cursorGlow" = b)); [congruence|reflexivity]. }
  unfold CursorGlow_new, getElement. split.
  - intros H. destruct (dom p !! "cursorGlow") eqn:E.
    + destruct H as [H|[H|H]]; [discriminate|rewrite H|rewrite H, orb_true_r];
        cbn [orb fst snd]; (split; [reflexivity|exact Clean]).
    + cbn [fst snd]. split; [reflexivity|exact Clean].
  - intros [e E] Hm Hh. rewrite E, Hm, Hh. cbn [orb].
    unfold paint.
    destruct (dom p !! "cursorDot") as [d|] eqn:D; cbn [fst snd];
      unfold update, register; cbn [dom handles with_dom].
    + split; [|split; [|split]].
      * eexists. split; [reflexivity|]. split; [reflexivity|]. split; [reflexivity|].
        rewrite lookup_alter_eq, lookup_alter_ne by discriminate. rewrite E. reflexivity.
      * rewrite lookup_alter_ne by discriminate. rewrite lookup_alter_eq, D. reflexivity.
      * intros b H1 H2. rewrite !lookup_alter_ne by congruence. reflexivity.
      * rewrite <- app_assoc. reflexivity.
    + split; [|split; [|split]].
      * eexists. split; [reflexivity|]. split; [reflexivity|]. split; [reflexivity|].
        rewrite lookup_alter_eq, E. reflexivity.
      * rewrite lookup_alter_ne by discriminate. exact D.
      * intros b H1 H2. rewrite !lookup_alter_ne by congruence. reflexivity.
      * rewrite <- app_assoc. reflexivity.
Qed.

Lemma cursor_glow_starts_or_cleans_up_witness :
  dom (snd (CursorGlow_new (Device Field.desktop) true
              (page_of ["cursorGlow"; "cursorDot"; "navbar"] Field.desktop)))
    !! "cursorDot" = None
  /\ dom (snd (CursorGlow_new (Device Field.desktop) false
                 (page_of ["cursorGlow"; "cursorDot"; "navbar"] Field.desktop)))
       !! "cursorDot" = Some (place 0 0 blank).
Proof.
  split.
  - refine (proj1 (proj2 (proj2 (proj1 (cursor_glow_starts_or_cleans_up
              (Device Field.desktop) true
              (page_of ["cursorGlow"; "cursorDot"; "navbar"] Field.desktop)) _)))).
    right. right. reflexivity.
  - refine (proj1 (proj2 (proj2 (cursor_glow_starts_or_cleans_up
              (Device Field.desktop) false
              (page_of ["cursorGlow"; "cursorDot"; "navbar"] Field.desktop))
              _ eq_refl eq_refl))).
    eexists. reflexivity.
Defined.

End CursorFacts.

(** ** Active section *)

Section SectionFacts.
Import Sections.
Local Open Scope Q_scope.

Lemma current_skips scrollY (l : list SectionT) (cur : string) :
  Forall (fun s => scrollY < offsetTop s - 220) l ->
  fold_left (fun cur s => if Qle_bool (offsetTop s - 220) scrollY then sid s else cur) l cur
  = cur.
Proof.
  intros H. revert cur. induction H as [|s l Hs Hl IH]; intros cur; [reflexivity|].
  cbn [fold_left]. destruct (Qle_bool (offsetTop s - 220) scrollY) eqn:E; [|apply IH].
  apply Qle_bool_iff in E. exfalso. exact (Qlt_not_le _ _ Hs E).
Qed.

Lemma ascending_from (a : SectionT) (l : list SectionT) :
  ascending (a :: l) -> Forall (fun b => offsetTop a <= offsetTop b) l.
Proof.
  revert a. induction l as [|b l IH]; intros a H; [constructor|].
  destruct H as [Hab Hl]. constructor; [exact Hab|].
  specialize (IH b Hl). eapply Forall_impl; [exact IH|].
  intros c Hc. cbn in Hc. apply Qle_trans with (offsetTop b); assumption.
Qed.

Lemma ascending_suffix (pre l : list SectionT) : ascending (pre ++ l) -> ascending l.
Proof.
  induction pre as [|a pre IH]; [tauto|]. intros H. apply IH.
  destruct pre as [|b pre]; [destruct l; [exact I|apply H]|apply H].
Qed.

(** X13. With the sections in document order of their tops, the
    current section is the one whose band contains the scroll
    position: its top is at most 220 px below it and the next
    section's top is more than 220 px below it. After [updateActive],
    exactly the links to that section are active. Above the first band
    no section is current. *)
Theorem active_section_is_the_band (scrollY : Q) (pre : list SectionT) (s : SectionT)
    (post : list SectionT) (links : list LinkT) :
  (ascending (pre ++ s :: post) ->
   offsetTop s - 220 <= scrollY ->
   (forall nxt rest, post = nxt :: rest -> scrollY < offsetTop nxt - 220) ->
   current scrollY (pre ++ s :: post) = sid s
   /\ Forall2 (fun l l' => section l' = section l
                           /\ (active l' = true <-> section l = Some (sid s)))
        links (updateActive scrollY (pre ++ s :: post) links))
  /\ (Forall (fun s0 => scrollY < offsetTop s0 - 220) (pre ++ s :: post) ->
      current scrollY (pre ++ s :: post) = "").
Proof.
  split.
  - intros Hasc Hs Hnext.
    assert (Hcur : current scrollY (pre ++ s :: post) = sid s).
    { unfold current. rewrite fold_left_app. cbn [fold_left].
      apply Qle_bool_iff in Hs. rewrite Hs.
      apply current_skips.
      destruct post as [|nxt rest]; [constructor|].
      specialize (Hnext nxt rest eq_refl).
      apply ascending_suffix in Hasc. destruct Hasc as [_ Hasc].
      constructor; [exact Hnext|].
      eapply Forall_impl; [exact (ascending_from nxt rest Hasc)|].
      intros c Hc. cbn in Hc. lra. }
    split; [exact Hcur|].
    unfold updateActive. rewrite Hcur.
    induction links as [|l links IH]; [constructor|].
    cbn [map]. constructor; [|exact IH]. cbn [section active].
    split; [reflexivity|apply strict_eq_eq].
  - intros H. unfold current. apply current_skips. exact H.
Qed.

Lemma active_section_is_the_band_witness :
  current 700 [{| sid := "home"; offsetTop := 0 |};
               {| sid := "about"; offsetTop := 900 |};
               {| sid := "work"; offsetTop := 1800 |}] = "about".
Proof.
  refine (proj1 (proj1 (active_section_is_the_band 700
            [{| sid := "home"; offsetTop := 0 |}]
            {| sid := "about"; offsetTop := 900 |}
            [{| sid := "work"; offsetTop := 1800 |}] []) _ _ _)).
  - cbn. repeat split; discriminate.
  - cbn. discriminate.
  - intros nxt rest [= <- <-]. reflexivity.
Defined.

End SectionFacts.

(** ** Scroll throttling *)

Section ScrollFacts.
Import Capability Dom Drivers Scrolling.

Lemma scrolls_once t k :
  ticking (navbar t) = false ->
  let t' := steps t (repeat Scroll (S k)) in
  requested t' = S (requested t) /\ thrown t' = thrown t
  /\ page t' = page t
  /\ navbar t' = {| nav := nav (navbar t); toggle := toggle (navbar t);
                    menu := menu (navbar t); ticking := true |}.
Proof.
  intros Ht. unfold steps. cbn [repeat fold_left].
  assert (H1 : step t Scroll
               = {| navbar := {| nav := nav (navbar t); toggle := toggle (navbar t);
                                 menu := menu (navbar t); ticking := true |};
                    page := page t; requested := S (requested t); thrown := thrown t |}).
  { unfold step, Navbar_onScroll. rewrite Ht. reflexivity. }
  rewrite H1. clear H1 Ht.
  set (t1 := {| navbar := _; page := page t; requested := S (requested t);
                thrown := thrown t |}).
  assert (H : forall k, fold_left step (repeat Scroll k) t1 = t1).
  { clear k. intros k. induction k as [|k IH]; [reflexivity|].
    cbn [repeat fold_left]. replace (step t1 Scroll) with t1; [exact IH|].
    reflexivity. }
  rewrite H. cbn. tauto.
Qed.

(** X14. However many scroll events arrive before the next frame, the
    navbar requests exactly one frame callback. With [#navbar] in the
    document the callback marks it "scrolled" exactly when the page is
    scrolled by more than 50 px and re-arms the listener. Without
    [#navbar] the callback throws before it re-arms, and no later
    scroll event ever requests a frame again. *)
Theorem scroll_requests_one_frame (nb : NavbarT) (p : Page) (k k' : nat) :
  ticking nb = false ->
  let t0 := {| navbar := nb; page := p; requested := 0; thrown := 0 |} in
  (forall n e, nav nb = Some n -> dom p !! n = Some e ->
     let t := steps t0 (repeat Scroll (S k) ++ [FrameFires])%list in
     requested t = 1%nat /\ thrown t = 0%nat /\ ticking (navbar t) = false
     /\ exists e', dom (page t) !! n = Some e'
                   /\ ("scrolled" ∈ classList e' <-> (50 < scrollY p)%Q))
  /\ (nav nb = None ->
      let t := steps t0 (repeat Scroll (S k) ++ FrameFires :: repeat Scroll k')%list in
      requested t = 1%nat /\ thrown t = 1%nat /\ ticking (navbar t) = true).
Proof.
  intros Ht t0.
  destruct (scrolls_once t0 k Ht) as (R & T & P & N). cbv zeta in R, T, P, N.
  cbn [requested thrown page navbar t0] in R, T, P, N.
  split.
  - intros n e Hn He. cbv zeta. unfold steps in *. rewrite fold_left_app.
    set (t1 := fold_left step (repeat Scroll (S k)) t0) in *.
    cbn [fold_left]. unfold step, Navbar_onFrame. rewrite N, P. cbn [nav]. rewrite Hn.
    cbn [requested thrown navbar page ticking].
    split; [exact R|]. split; [exact T|]. split; [reflexivity|].
    unfold update; cbn [dom with_dom]. rewrite lookup_alter_eq, He. cbn.
    eexists. split; [reflexivity|]. cbn [classList toggle_class].
    rewrite <- Qltb_lt. destruct (Capability.Qltb 50 (scrollY p)).
    + split; [reflexivity|]. intros _. set_solver.
    + split; [|discriminate]. intros H. set_solver.
  - intros Hn. cbv zeta. unfold steps in *. rewrite fold_left_app.
    set (t1 := fold_left step (repeat Scroll (S k)) t0) in *.
    cbn [fold_left].
    assert (H1 : step t1 FrameFires
                 = {| navbar := navbar t1; page := page t1; requested := requested t1;
                      thrown := S (thrown t1) |}).
    { unfold step, Navbar_onFrame. rewrite N. cbn [nav]. rewrite Hn. reflexivity. }
    rewrite H1. set (t2 := {| navbar := navbar t1; page := _; requested := _; thrown := _ |}).
    assert (H : forall j, fold_left step (repeat Scroll j) t2 = t2).
    { intros j. induction j as [|j IH]; [reflexivity|].
      cbn [repeat fold_left]. replace (step t2 Scroll) with t2; [exact IH|].
      unfold step, Navbar_onScroll, t2. cbn [navbar]. rewrite N. reflexivity. }
    rewrite H. unfold t2. cbn [requested thrown navbar]. rewrite N, R, T. tauto.
Qed.

Lemma scroll_requests_one_frame_witness :
  let nb := {| nav := None; toggle := Some "navToggle"; menu := Some "navMenu";
               ticking := false |} in
  let t := steps {| navbar := nb; page := page_of ["navToggle"; "navMenu"] Field.desktop;
                    requested := 0; thrown := 0 |}
             (repeat Scroll 3 ++ FrameFires :: repeat Scroll 4)%list in
  requested t = 1%nat /\ thrown t = 1%nat /\ ticking (navbar t) = true.
Proof.
  intros nb.
  exact (proj2 (scroll_requests_one_frame nb
                  (page_of ["navToggle"; "navMenu"] Field.desktop) 2 4 eq_refl) eq_refl).
Defined.

(** X15. A guarded driver whose anchor is missing leaves the page
    exactly as it was: nothing is registered, no element is touched and
    no random number is drawn. This holds for the matrix rain, the
    neural network, the glitch text, the scanlines and the back-to-top
    button, on every tier. *)
Theorem guarded_drivers_leave_page_untouched (dev : DeviceT) (p : Page) :
  (dom p !! "matrix-canvas" = None ->
     snd (MatrixRain_new dev p) = p
     /\ (fst (MatrixRain_new dev p) = MR_skipped \/ fst (MatrixRain_new dev p) = MR_noCanvas))
  /\ (dom p !! "neural-canvas" = None ->
        snd (NeuralNetwork_new dev p) = p
        /\ (fst (NeuralNetwork_new dev p) = NN_skipped
            \/ fst (NeuralNetwork_new dev p) = NN_noCanvas))
  /\ (dom p !! ".glitch-name" = None ->
        snd (GlitchText_new dev p) = p
        /\ (fst (GlitchText_new dev p) = GT_skipped
            \/ fst (GlitchText_new dev p) = GT_noTarget))
  /\ (dom p !! ".scanlines" = None -> ScanlineEffect_new dev p = p)
  /\ (dom p !! "backToTop" = None -> BackToTop_new p = p).
Proof.
  destruct (guarded_drivers_inert dev p) as (H1 & H2 & H3 & H4 & H5).
  split; [|split; [|split; [|split]]]; try assumption.
  - intros H. split; [exact (H1 H)|].
    unfold MatrixRain_new. rewrite (getElement_None _ _ H). destruct (isLow dev); auto.
  - intros H. split; [exact (H2 H)|].
    unfold NeuralNetwork_new. rewrite (getElement_None _ _ H). destruct (isLow dev); auto.
  - intros H. split; [exact (H3 H)|].
    unfold GlitchText_new. rewrite H. destruct (reduced dev); auto.
Qed.

Lemma guarded_drivers_leave_page_untouched_witness :
  snd (NeuralNetwork_new (Device Field.desktop) (page_of ["navbar"] Field.desktop))
  = page_of ["navbar"] Field.desktop.
Proof.
  exact (proj1 (proj1 (proj2 (guarded_drivers_leave_page_untouched
           (Device Field.desktop) (page_of ["navbar"] Field.desktop))) eq_refl)).
Defined.

End ScrollFacts.

(** ** Counter animation *)

Section CountingFacts.
Import Binary64 Counting.
Local Open Scope Q_scope.


Lemma Qmin_left (a b : Q) : a <= b -> Qmin a b = a.
Proof.
  intros H. unfold Qmin, GenericMinMax.gmin.
  destruct (Qcompare a b) eqn:C; try reflexivity.
  apply Qgt_alt in C. exfalso. exact (Qlt_not_le _ _ C H).
Qed.

Lemma Qmin_right (a b : Q) : b < a -> Qmin a b = b.
Proof.
  intros H. unfold Qmin, GenericMinMax.gmin.
  rewrite (proj1 (Qgt_alt a b) H). reflexivity.
Qed.

Lemma Qfloor_between (c : Q) (z : Z) :
  inject_Z z <= c -> c < inject_Z (z + 1) -> Qfloor c = z.
Proof.
  intros H1 H2.
  pose proof (Qfloor_resp_le _ _ H1) as F. rewrite Qfloor_Z in F.
  pose proof (Qfloor_le c) as L.
  assert (inject_Z (Qfloor c) < inject_Z (z + 1)) as K by lra.
  rewrite <- Zlt_Qlt in K. lia.
Qed.

Lemma steps_125 : steps == 125.
Proof. vm_compute. reflexivity. Qed.

(** The rounded step is within a relative 2^-53 of t / 125. *)
Lemma step_close (t : Z) :
  (t <> 0)%Z ->
  let sigma := inject_Z t / 125 in
  Qabs (div (inject_Z t) steps - sigma) <= pow2 (-53) * Qabs sigma.
Proof.
  intros Ht sigma. unfold div.
  assert (E : inject_Z t / steps == sigma).
  { unfold sigma. rewrite steps_125. reflexivity. }
  assert (A : 1 # 125 <= Qabs sigma).
  { unfold sigma. unfold Qdiv. rewrite Qabs_Qmult.
    assert (1 <= Qabs (inject_Z t)).
    { apply Qabs_case; intros H.
      - change 1 with (inject_Z 1). rewrite <- Zle_Qle.
        change 0 with (inject_Z 0) in H. rewrite <- Zle_Qle in H. lia.
      - change 1 with (inject_Z 1). rewrite <- inject_Z_opp, <- Zle_Qle.
        change 0 with (inject_Z 0) in H. rewrite <- Zle_Qle in H. lia. }
    change (Qabs (/ 125)) with (1 # 125). lra. }
  pose proof (round64_relative (inject_Z t / steps)) as R.
  set (r := round64 (inject_Z t / steps)) in *. clearbody r.
  rewrite E in R. apply R.
  apply (Qle_trans _ (1 # 125)); [discriminate|exact A].
Qed.

(** One more rounded addition of the rounded step: the error grows by
    at most 129 units of 2^-53 sigma. *)
Lemma add_close (c step sigma J : Q) :
  1 # 125 <= sigma -> 0 <= J -> J <= 126 ->
  Qabs (c - J * sigma) <= J * (129 * pow2 (-53) * sigma) ->
  Qabs (step - sigma) <= pow2 (-53) * sigma ->
  Qabs (add c step - (J + 1) * sigma) <= (J + 1) * (129 * pow2 (-53) * sigma).
Proof.
  intros Hs J0 J1 Hc Hst. unfold add.
  assert (N0 : pow2 (-1022) <= 1 # 250) by discriminate.
  pose proof (round64_relative (c + step)) as R.
  set (r := round64 (c + step)) in *. clearbody r.
  set (u := pow2 (-53)) in *.
  assert (Hu : 0 < u) by reflexivity.
  assert (Hu2 : 126 * 129 * u <= 1 # 100) by discriminate.
  clearbody u.
  set (d := u * sigma) in *.
  assert (Hd : 0 < d) by (unfold d; nra).
  assert (Hd2 : 126 * 129 * d <= sigma * (1 # 100)) by (unfold d; nra).
  assert (Ed : forall k, k * (129 * u * sigma) == 129 * (k * d)) by (intros k; unfold d; ring).
  rewrite Ed in Hc. rewrite Ed. clear Ed.
  assert (JD : 0 <= J * d <= 126 * d) by nra.
  set (P := J * d) in *.
  apply Qabs_diff_Qle_condition in Hc. apply Qabs_diff_Qle_condition in Hst.
  assert (Lo : sigma * (1 # 2) <= c + step) by nra.
  assert (Hi : c + step <= 128 * sigma) by nra.
  rewrite (Qabs_pos (c + step)) in R by lra.
  specialize (R ltac:(lra)).
  apply Qabs_diff_Qle_condition in R.
  assert (Ud : u * (c + step) <= 128 * d) by (unfold d; nra).
  apply Qabs_diff_Qle_condition.
  assert (E1 : (J + 1) * sigma == J * sigma + sigma) by ring.
  assert (E2 : (J + 1) * d == P + d) by (unfold P; ring).
  rewrite E1, E2. lra.
Qed.

Lemma share_decomposed (t : Z) (j : nat) :
  inject_Z (Z.of_nat j) * (inject_Z t / 125)
  == inject_Z (Z.of_nat j * t / 125) + inject_Z ((Z.of_nat j * t) mod 125) / 125.
Proof.
  pose proof (Z.div_mod (Z.of_nat j * t) 125 ltac:(discriminate)) as E.
  set (q := (Z.of_nat j * t / 125)%Z) in *. set (rho := ((Z.of_nat j * t) mod 125)%Z) in *.
  assert (E' : inject_Z (Z.of_nat j) * inject_Z t == 125 * inject_Z q + inject_Z rho).
  { rewrite <- inject_Z_mult, E, inject_Z_plus, inject_Z_mult. reflexivity. }
  field_simplify. rewrite E'. field.
Qed.

(** A sum within the accumulated error of j t / 125 has the integer
    part of j t / 125, or falls just short of it. *)
Lemma written_near (t : Z) (j : nat) (c : Q) :
  (1 <= t <= 1000000000)%Z -> (j <= 126)%nat ->
  on_track t j c ->
  near_share t j (Some (Qfloor c)).
Proof.
  intros Ht Hj Hc. unfold on_track in Hc.
  assert (J0 : 0 <= inject_Z (Z.of_nat j)) by (change 0 with (inject_Z 0); rewrite <- Zle_Qle; lia).
  assert (J1 : inject_Z (Z.of_nat j) <= 126)
    by (change 126 with (inject_Z 126); rewrite <- Zle_Qle; lia).
  assert (T0 : 1 <= inject_Z t) by (change 1 with (inject_Z 1); rewrite <- Zle_Qle; lia).
  assert (T1 : inject_Z t <= 1000000000)
    by (change 1000000000 with (inject_Z 1000000000); rewrite <- Zle_Qle; lia).
  rewrite share_decomposed in Hc.
  pose proof (Z.mod_pos_bound (Z.of_nat j * t) 125 ltac:(reflexivity)) as Hr.
  unfold near_share.
  set (q := (Z.of_nat j * t / 125)%Z) in *. set (rho := ((Z.of_nat j * t) mod 125)%Z) in *.
  clearbody q rho.
  assert (Q1 : inject_Z (q + 1) == inject_Z q + 1) by (rewrite inject_Z_plus; reflexivity).
  assert (Q2 : inject_Z (q - 1) == inject_Z q - 1)
    by (unfold Z.sub; rewrite inject_Z_plus; reflexivity).
  assert (D : inject_Z (Z.of_nat j) * (129 * pow2 (-53) * (inject_Z t / 125)) <= 1 # 250).
  { set (u := pow2 (-53)).
    assert (Hu : 0 < u) by reflexivity.
    assert (Hu2 : 126 * 129 * 8000000 * u <= 1 # 250) by discriminate.
    clearbody u.
    assert (S1 : 0 <= inject_Z t / 125 <= 8000000).
    { split; [apply Qle_shift_div_l; lra|apply Qle_shift_div_r; lra]. }
    set (sg := inject_Z t / 125) in *. clearbody sg.
    set (J := inject_Z (Z.of_nat j)) in *. clearbody J.
    assert (0 <= u * sg <= 8000000 * u) by nra.
    set (d := u * sg) in *.
    assert (E : J * (129 * u * sg) == 129 * (J * d)) by (unfold d; ring).
    rewrite E. nra. }
  set (dd := inject_Z (Z.of_nat j) * (129 * pow2 (-53) * (inject_Z t / 125))) in *.
  clearbody dd.
  apply Qabs_diff_Qle_condition in Hc. destruct Hc as [C1 C2].
  assert (R0 : 0 <= inject_Z rho) by (change 0 with (inject_Z 0); rewrite <- Zle_Qle; lia).
  assert (R1 : inject_Z rho <= 124)
    by (change 124 with (inject_Z 124); rewrite <- Zle_Qle; lia).
  destruct (Z.eq_dec rho 0) as [Z0|Z0].
  - rewrite Z0 in C1, C2.
    assert (E0 : inject_Z 0 / 125 == 0) by reflexivity. rewrite E0 in C1, C2.
    destruct (Qlt_le_dec c (inject_Z q)) as [B|B].
    + right. split; [|exact Z0]. f_equal. apply Qfloor_between.
      * rewrite Q2. lra.
      * replace (q - 1 + 1)%Z with q by lia. exact B.
    + left. f_equal. apply Qfloor_between; [exact B|]. rewrite Q1. lra.
  - left. f_equal.
    assert (R2 : 1 <= inject_Z rho) by (change 1 with (inject_Z 1); rewrite <- Zle_Qle; lia).
    assert (F1 : 1 # 125 <= inject_Z rho / 125) by (apply Qle_shift_div_l; lra).
    assert (F2 : inject_Z rho / 125 <= 124 # 125) by (apply Qle_shift_div_r; lra).
    apply Qfloor_between; [lra|]. rewrite Q1. lra.
Qed.

Lemma share_bounds (t : Z) :
  (1 <= t)%Z -> 1 # 125 <= inject_Z t / 125 /\ inject_Z t == 125 * (inject_Z t / 125).
Proof.
  intros Ht.
  assert (T0 : 1 <= inject_Z t) by (change 1 with (inject_Z 1); rewrite <- Zle_Qle; lia).
  split; [apply Qle_shift_div_l; lra|field].
Qed.

Lemma on_track_next (t : Z) (j : nat) (c : Q) :
  (1 <= t)%Z -> (j <= 126)%nat -> on_track t j c ->
  on_track t (S j) (add c (div (inject_Z t) steps)).
Proof.
  intros Ht Hj Hc. unfold on_track in *.
  destruct (share_bounds t Ht) as [S1 _].
  pose proof (step_close t ltac:(lia)) as St. cbv zeta in St.
  rewrite (Qabs_pos (inject_Z t / 125)) in St by lra.
  assert (J0 : 0 <= inject_Z (Z.of_nat j)) by (change 0 with (inject_Z 0); rewrite <- Zle_Qle; lia).
  assert (J1 : inject_Z (Z.of_nat j) <= 126)
    by (change 126 with (inject_Z 126); rewrite <- Zle_Qle; lia).
  pose proof (add_close c _ _ _ S1 J0 J1 Hc St) as H.
  replace (Z.of_nat (S j)) with (Z.of_nat j + 1)%Z by lia.
  rewrite inject_Z_plus. exact H.
Qed.

Lemma tick_rising (t : Z) (j : nat) (c : Q) :
  (1 <= t <= 1000000000)%Z -> (S j <= 124)%nat -> on_track t j c ->
  exists c1,
    tick (Some t) (Some c) = ((Some c1, Some (Qfloor c1)), false)
    /\ on_track t (S j) c1 /\ near_share t (S j) (Some (Qfloor c1)).
Proof.
  intros Ht Hj Hc.
  pose proof (on_track_next t j c ltac:(lia) ltac:(lia) Hc) as H1.
  set (c1 := add c (div (inject_Z t) steps)) in *.
  assert (Lt : c1 < inject_Z t).
  { unfold on_track in H1. destruct (share_bounds t ltac:(lia)) as [S1 S2].
    assert (J1 : inject_Z (Z.of_nat (S j)) <= 124)
      by (change 124 with (inject_Z 124); rewrite <- Zle_Qle; lia).
    assert (J0 : 0 <= inject_Z (Z.of_nat (S j)))
      by (change 0 with (inject_Z 0); rewrite <- Zle_Qle; lia).
    set (J := inject_Z (Z.of_nat (S j))) in *. clearbody J.
    set (sg := inject_Z t / 125) in *. clearbody sg. clearbody c1.
    set (u := pow2 (-53)) in *.
    assert (Hu : 0 < u) by reflexivity.
    assert (Hu2 : 124 * 129 * u <= 1 # 2) by discriminate.
    clearbody u.
    apply Qabs_diff_Qle_condition in H1.
    assert (0 <= u * sg) by nra.
    set (d := u * sg) in *.
    assert (E : J * (129 * u * sg) == 129 * (J * d)) by (unfold d; ring).
    rewrite E in H1.
    assert (0 <= J * d <= 124 * d) by nra.
    assert (J * sg <= 124 * sg) by nra.
    assert (124 * 129 * d <= sg * (1 # 2)) by (unfold d; nra).
    rewrite S2. lra. }
  exists c1. split; [|split; [exact H1|apply written_near; [exact Ht|lia|exact H1]]].
  unfold tick. fold c1. rewrite (Qmin_left c1 (inject_Z t)) by lra.
  f_equal. destruct (Qle_bool (inject_Z t) c1) eqn:C; [|reflexivity].
  apply Qle_bool_iff in C. lra.
Qed.

Lemma run_prefix (t : Z) : (1 <= t <= 1000000000)%Z ->
  forall (n j : nat) (c : Q),
    (j + n <= 124)%nat -> on_track t j c ->
    exists ws c',
      length ws = n
      /\ (forall i w, ws !! i = Some w -> near_share t (j + i + 1) w)
      /\ on_track t (j + n) c'
      /\ forall m, run (n + m) (Some t) (Some c)
                   = (let '(ws', b) := run m (Some t) (Some c') in ((ws ++ ws')%list, b)).
Proof.
  intros Ht. induction n as [|n IH]; intros j c Hjn Hc.
  - exists [], c. split; [reflexivity|]. split; [intros i w H; discriminate H|].
    split; [rewrite Nat.add_0_r; exact Hc|].
    intros m. cbn [Nat.add app]. destruct (run m (Some t) (Some c)). reflexivity.
  - destruct (tick_rising t j c Ht ltac:(lia) Hc) as (c1 & E & H1 & W).
    destruct (IH (S j) c1 ltac:(lia) H1) as (ws & c' & L & P & T & R).
    exists (Some (Qfloor c1) :: ws), c'.
    split; [cbn; rewrite L; reflexivity|].
    split; [|split].
    + intros [|i] w Hw.
      * injection Hw as <-. replace (j + 0 + 1)%nat with (S j) by lia. exact W.
      * replace (j + S i + 1)%nat with (S j + i + 1)%nat by lia. exact (P i w Hw).
    + replace (j + S n)%nat with (S j + n)%nat by lia. exact T.
    + intros m. cbn [Nat.add run]. rewrite E. rewrite R.
      destruct (run m (Some t) (Some c')). reflexivity.
Qed.

(** A callback whose sum has reached the target writes the target and
    clears the interval. *)
Lemma tick_reached (t : Z) (c : Q) :
  inject_Z t <= add c (div (inject_Z t) steps) ->
  exists c', tick (Some t) (Some c) = ((Some c', Some t), true).
Proof.
  intros H. unfold tick. cbv zeta.
  set (r := add c (div (inject_Z t) steps)) in *.
  pose proof (Q.min_r r (inject_Z t) H) as E.
  exists (Qmin r (inject_Z t)). f_equal; [f_equal; f_equal|].
  - rewrite E. apply Qfloor_Z.
  - apply Qle_bool_iff. rewrite E. apply Qle_refl.
Qed.

Lemma run_finish (t : Z) (c : Q) :
  (1 <= t <= 1000000000)%Z -> on_track t 124 c ->
  run 2 (Some t) (Some c) = ([Some t], true)
  \/ run 2 (Some t) (Some c) = ([Some (t - 1)%Z; Some t], true).
Proof.
  intros Ht Hc.
  pose proof (on_track_next t 124 c ltac:(lia) ltac:(lia) Hc) as H1.
  set (step := div (inject_Z t) steps) in *.
  set (r := add c step) in *.
  destruct (Qlt_le_dec r (inject_Z t)) as [C|C].
  - right.
    destruct (share_bounds t ltac:(lia)) as [S1 S2].
    assert (T1 : inject_Z t <= 1000000000)
      by (change 1000000000 with (inject_Z 1000000000); rewrite <- Zle_Qle; lia).
    pose proof (step_close t ltac:(lia)) as St. cbv zeta in St. fold step in St.
    rewrite (Qabs_pos (inject_Z t / 125)) in St by lra.
    assert (N0 : pow2 (-1022) <= 1 # 250) by discriminate.
    pose proof (round64_relative (r + step)) as R2. fold (add r step) in R2.
    unfold on_track in H1. change (inject_Z (Z.of_nat 125)) with 125 in H1.
    set (sg := inject_Z t / 125) in *.
    set (u := pow2 (-53)) in *.
    assert (Hu : 0 < u) by reflexivity.
    assert (Hu2 : 125 * 129 * 8000000 * u <= 1 # 250) by discriminate.
    assert (Sg : sg <= 8000000) by (unfold sg; apply Qle_shift_div_r; lra).
    clearbody u sg.
    assert (D0 : 0 <= u * sg <= 8000000 * u) by nra.
    set (d := u * sg) in *.
    assert (E : 125 * (129 * u * sg) == 125 * 129 * d) by (unfold d; ring).
    rewrite E in H1. clear E.
    apply Qabs_diff_Qle_condition in H1. apply Qabs_diff_Qle_condition in St.
    assert (Fl : Qfloor r = (t - 1)%Z).
    { apply Qfloor_between.
      - unfold Z.sub. rewrite inject_Z_plus, inject_Z_opp. change (inject_Z 1) with 1. lra.
      - replace (t - 1 + 1)%Z with t by lia. exact C. }
    assert (Up : inject_Z t <= add r step).
    { assert (Lo : sg * (1 # 2) <= r + step) by lra.
      rewrite (Qabs_pos (r + step)) in R2 by lra.
      specialize (R2 ltac:(lra)).
      apply Qabs_diff_Qle_condition in R2.
      assert (Hi : r + step <= 127 * sg) by lra.
      assert (U1 : u * (r + step) <= 127 * d) by (unfold d; nra).
      lra. }
    destruct (tick_reached t r Up) as (c' & E2).
    cbn [run]. unfold tick at 1. fold step. fold r.
    rewrite (Qmin_left r (inject_Z t)) by lra.
    replace (Qle_bool (inject_Z t) r) with false.
    + fold step in E2. rewrite E2, Fl. reflexivity.
    + symmetry. destruct (Qle_bool (inject_Z t) r) eqn:B; [|reflexivity].
      apply Qle_bool_iff in B. lra.
  - left. destruct (tick_reached t c C) as (c' & E2).
    cbn [run]. rewrite E2. reflexivity.
Qed.

Lemma run_nan fuel cur : run fuel None cur = (repeat None fuel, false).
Proof.
  revert cur. induction fuel as [|fuel IH]; intros cur; [reflexivity|].
  cbn [run]. unfold tick. destruct cur; rewrite IH; reflexivity.
Qed.

(** A target of zero or less is reached by the first sum. *)
Lemma tick_nonpositive (t : Z) :
  (t <= 0)%Z -> exists c', tick (Some t) (Some 0) = ((Some c', Some t), true).
Proof.
  intros Ht. destruct (Z.eq_dec t 0) as [->|Hn].
  - destruct (tick (Some 0%Z) (Some 0)) as [[c' w] b] eqn:E.
    vm_compute in E. injection E as <- <- <-. eexists. reflexivity.
  - unfold tick. cbv zeta.
    set (step := div (inject_Z t) steps).
    set (r := add 0 step).
    assert (Lt : inject_Z t < r).
    { pose proof (step_close t Hn) as St. cbv zeta in St. fold step in St.
      assert (T0 : inject_Z t <= -1).
      { change (-1) with (inject_Z (-1)). rewrite <- Zle_Qle. lia. }
      assert (S2 : inject_Z t == 125 * (inject_Z t / 125)) by field.
      assert (S1 : inject_Z t / 125 <= - (1 # 125)).
      { apply Qle_shift_div_r; [reflexivity|]. lra. }
      rewrite (Qabs_neg (inject_Z t / 125)) in St by lra.
      assert (N0 : pow2 (-1022) <= 1 # 250) by discriminate.
      pose proof (round64_relative (0 + step)) as R. fold (add 0 step) in R. fold r in R.
      set (sg := inject_Z t / 125) in *.
      set (u := pow2 (-53)) in *.
      assert (Hu : 0 < u) by reflexivity.
      assert (Hu2 : u <= 1 # 4) by discriminate.
      clearbody u sg. clearbody r. clearbody step.
      apply Qabs_diff_Qle_condition in St.
      assert (Sn : step <= sg * (1 # 2)) by nra.
      rewrite (Qabs_neg (0 + step)) in R by lra.
      specialize (R ltac:(lra)).
      apply Qabs_diff_Qle_condition in R.
      assert (B1 : 2 * sg <= step) by nra.
      assert (B2 : u * - (0 + step) <= - (1 # 4) * step) by nra.
      lra. }
    exists (inject_Z t). rewrite (Qmin_right r (inject_Z t) Lt).
    rewrite Qfloor_Z. f_equal. apply Qle_bool_iff. apply Qle_refl.
Qed.

(** X16. In binary64 a counter with a target [t] between 1 and 10^9
    clears its interval at the 125th callback or, when the rounded sum
    of 125 steps falls just short of [t], at the 126th, and not
    before; the last number written is [t]; the k-th callback before
    that writes the integer part of k t / 125, or one less where
    k t / 125 is itself an integer that the rounded sum misses. A
    target of 100 takes 126 callbacks and writes 7 at the tenth; a
    target of 250 takes 125 and writes 2 k at the k-th. A target of
    zero or less is written at the first callback, which clears the
    interval; and a missing or non-numeric [data-target] writes NaN at
    every callback and never clears the interval. *)
Theorem counter_reaches_target (fuel : nat) :
  (forall t, (0 < t <= 1000000000)%Z ->
     exists writes,
       animate 126 (Some t) = (writes, true)
       /\ (length writes = 125%nat
           \/ (length writes = 126%nat /\ writes !! 124%nat = Some (Some (t - 1)%Z)))
       /\ last writes = Some (Some t)
       /\ (forall k w, (1 <= k <= 124)%nat ->
             writes !! (k - 1)%nat = Some w -> near_share t k w)
       /\ ((fuel < 125)%nat -> snd (animate fuel (Some t)) = false))
  /\ (length (fst (animate 126 (Some 100%Z))) = 126%nat
      /\ fst (animate 126 (Some 100%Z)) !! 9%nat = Some (Some 7%Z))
  /\ animate 126 (Some 250%Z)
     = (map (fun k => Some (2 * Z.of_nat k)%Z) (seq 1 125), true)
  /\ (forall t, (t <= 0)%Z -> animate (S fuel) (Some t) = ([Some t], true))
  /\ animate fuel None = (repeat None fuel, false).
Proof.
  split; [|split; [|split; [|split]]].
  - intros t Ht.
    assert (Ht' : (1 <= t <= 1000000000)%Z) by lia.
    assert (H0 : on_track t 0 0).
    { unfold on_track. change (inject_Z (Z.of_nat 0)) with 0.
      apply Qabs_Qle_condition. split; [|]; ring_simplify; apply Qle_refl. }
    destruct (run_prefix t Ht' 124 0 0 ltac:(lia) H0) as (ws & c & L & P & T & R).
    specialize (R 2%nat). change (124 + 2)%nat with 126%nat in R.
    assert (Early : (fuel < 125)%nat -> snd (animate fuel (Some t)) = false).
    { intros Hf.
      destruct (run_prefix t Ht' fuel 0 0 ltac:(lia) H0) as (ws' & c'' & _ & _ & _ & R').
      specialize (R' 0%nat). rewrite Nat.add_0_r in R'. unfold animate. rewrite R'.
      reflexivity. }
    assert (Near : forall tl k w, (1 <= k <= 124)%nat ->
              (ws ++ tl)%list !! (k - 1)%nat = Some w -> near_share t k w).
    { intros tl k w Hk Hw. rewrite lookup_app_l in Hw by lia.
      pose proof (P (k - 1)%nat w Hw) as N.
      replace (0 + (k - 1) + 1)%nat with k in N by lia. exact N. }
    destruct (run_finish t c Ht' T) as [F|F]; rewrite F in R.
    + exists (ws ++ [Some t])%list. unfold animate. split; [exact R|].
      split; [left; rewrite length_app, L; reflexivity|].
      split; [apply last_snoc|]. split; [apply Near|exact Early].
    + exists (ws ++ [Some (t - 1)%Z; Some t])%list. unfold animate. split; [exact R|].
      split; [right; split|].
      * rewrite length_app, L. reflexivity.
      * rewrite lookup_app_r by lia. rewrite L. reflexivity.
      * split; [|split; [apply Near|exact Early]].
        change [Some (t - 1)%Z; Some t] with ([Some (t - 1)%Z] ++ [Some t])%list.
        rewrite app_assoc. apply last_snoc.
  - split; vm_compute; reflexivity.
  - vm_compute. reflexivity.
  - intros t Ht. unfold animate. cbn [run].
    destruct (tick_nonpositive t Ht) as (c' & E). rewrite E. reflexivity.
  - apply run_nan.
Qed.

Lemma counter_reaches_target_witness :
  exists writes,
    animate 126 (Some 100%Z) = (writes, true) /\ last writes = Some (Some 100%Z).
Proof.
  destruct (proj1 (counter_reaches_target 0) 100%Z) as (writes & E & _ & La & _).
  - split; [reflexivity|discriminate].
  - exists writes. split; assumption.
Defined.
End CountingFacts.

(** ** Terminal *)

Section TimerFacts.
Import Timers Terminal.

Lemma schedule_length {A} (d : N) (a : A) q : length (schedule d a q) = S (length q).
Proof.
  induction q as [|[d' b] q IH]; [reflexivity|]. cbn [schedule].
  destruct (d' <=? d)%N; cbn [length]; [rewrite IH|]; reflexivity.
Qed.

Lemma schedule_ordered {A} (d : N) (a : A) q : ordered q -> ordered (schedule d a q).
Proof.
  induction q as [|[d1 b1] q IH]; intros H; [exact I|]. cbn [schedule].
  destruct (N.leb_spec d1 d) as [L|L].
  - destruct q as [|[d2 b2] q].
    + cbn. split; [exact L|exact I].
    + destruct H as [H12 H]. specialize (IH H). cbn [schedule] in IH |- *.
      destruct (d2 <=? d)%N.
      * split; [exact H12|exact IH].
      * split; [exact L|exact IH].
  - split; [lia|exact H].
Qed.

Lemma schedule_after_all {A} (d : N) (a : A) q :
  Forall (fun e => (fst e <= d)%N) q -> schedule d a q = (q ++ [(d, a)])%list.
Proof.
  induction 1 as [|[d' b] q Hd Hq IH]; [reflexivity|]. cbn [schedule app].
  cbn in Hd. apply N.leb_le in Hd. rewrite Hd, IH. reflexivity.
Qed.

Lemma run_snoc queue item :
  run (queue ++ [item]) = schedule (delay item) (render item) (run queue).
Proof. unfold run. rewrite fold_left_app. reflexivity. Qed.

Lemma nondecreasing_snoc queue item :
  nondecreasing (queue ++ [item]) ->
  nondecreasing queue /\ Forall (fun it => (delay it <= delay item)%N) queue.
Proof.
  induction queue as [|a queue IH]; intros H; [split; [exact I|constructor]|].
  destruct queue as [|b queue].
  - cbn in H. split; [exact I|]. constructor; [apply H|constructor].
  - destruct H as [Hab H]. destruct (IH H) as [H1 H2].
    split; [split; assumption|]. constructor; [|exact H2].
    inversion H2; subst. lia.
Qed.

(** X17. The terminal gets one child per queue entry, appended in
    order of delay, entries with equal delays in queue order. So for a
    queue written with non-decreasing delays the terminal shows the
    entries exactly in queue order, each as a line break if it has
    neither text nor blink and as a line otherwise, and at time [t] it
    shows exactly the entries whose delay has passed. *)
Theorem terminal_lines_in_delay_order (queue : list Item) (t : N) :
  length (run queue) = length queue
  /\ ordered (run queue)
  /\ (nondecreasing queue ->
        run queue = map (fun it => (delay it, render it)) queue
        /\ shown_at t queue
           = map render (List.filter (fun it => (delay it <=? t)%N) queue)).
Proof.
  split; [|split].
  - induction queue as [|item queue IH] using rev_ind; [reflexivity|].
    rewrite run_snoc, schedule_length, IH, length_app. cbn. lia.
  - induction queue as [|item queue IH] using rev_ind; [exact I|].
    rewrite run_snoc. apply schedule_ordered. exact IH.
  - intros H.
    assert (E : run queue = map (fun it => (delay it, render it)) queue).
    { induction queue as [|item queue IH] using rev_ind; [reflexivity|].
      destruct (nondecreasing_snoc _ _ H) as [H1 H2].
      rewrite run_snoc, (IH H1), map_app. apply schedule_after_all.
      apply Forall_map. eapply Forall_impl; [exact H2|]. intros it Hit. exact Hit. }
    split; [exact E|]. unfold shown_at. rewrite E. clear.
    induction queue as [|item queue IH]; [reflexivity|].
    cbn [map List.filter fst]. destruct (delay item <=? t)%N; cbn [map snd]; rewrite IH;
      reflexivity.
Qed.

Lemma terminal_lines_in_delay_order_witness :
  shown_at 1000
    [{| text := "boot"; color := None; delay := 0; blink := false |};
     {| text := ""; color := None; delay := 700; blink := false |};
     {| text := "$ _"; color := Some "#00ff41"; delay := 1300; blink := true |}]
  = [Line "h-line" "#00ff41" "boot"; Br].
Proof.
  refine (proj2 (proj2 (proj2 (terminal_lines_in_delay_order _ 1000)) _)).
  cbn. repeat split; discriminate.
Defined.

End TimerFacts.

(** ** CV download button *)

Section DownloadFacts.
Import Timers Download.

Ltac decide_due :=
  unfold at_rest, click, enough;
  repeat (cbn [settle advance fire pending innerHTML schedule length Nat.mul Nat.add];
          match goal with
          | |- context [(?a <=? ?b)%N] =>
              first [ rewrite (proj2 (N.leb_le a b)) by lia
                    | rewrite (proj2 (N.leb_gt a b)) by lia ]
          end);
  cbn [settle advance fire pending innerHTML schedule length Nat.mul Nat.add].

(** X18. One click shows the "preparing" markup, then "ready", and puts
    the original markup back 3200 ms after the click. A second click
    before that captures the transient markup as its original: the
    button ends up showing "preparing" for good if the second click
    came less than 1200 ms after the first, and "ready" for good if it
    came 1200 ms to less than 3200 ms after it. From 3200 ms on the
    second click behaves like the first. (Timeouts due at the instant
    of a click run before its listener.) *)
Theorem download_button_second_click (preparing ready label : string) (t t' : N) :
  let b0 := {| innerHTML := label; pending := [] |} in
  let once := click preparing ready t b0 in
  let twice := click preparing ready t' once in
  innerHTML once = preparing
  /\ innerHTML (advance ready (enough once) (t + 1200) once) = ready
  /\ at_rest ready once = b0
  /\ ((t <= t' < t + 1200)%N -> at_rest ready twice = {| innerHTML := preparing; pending := [] |})
  /\ ((t + 1200 <= t' < t + 3200)%N ->
        at_rest ready twice = {| innerHTML := ready; pending := [] |})
  /\ ((t + 3200 <= t')%N -> at_rest ready twice = b0).
Proof.
  intros b0 once twice. unfold twice, once, b0.
  split; [reflexivity|]. split; [decide_due; reflexivity|].
  split; [decide_due; reflexivity|].
  split; [|split].
  - intros H. decide_due. reflexivity.
  - intros H. destruct (N.le_gt_cases (t + 2000) t') as [L|L]; decide_due; reflexivity.
  - intros H. decide_due. reflexivity.
Qed.

Lemma download_button_second_click_witness :
  at_rest "ready" (click "wait" "ready" 500 (click "wait" "ready" 0
                     {| innerHTML := "Download CV"; pending := [] |}))
  = {| innerHTML := "wait"; pending := [] |}.
Proof.
  refine (proj1 (proj2 (proj2 (proj2
            (download_button_second_click "wait" "ready" "Download CV" 0 500)))) _).
  lia.
Defined.

End DownloadFacts.

(** ** The older script: particles *)

Section StrayFacts.
Import Field Legacy Stray.
Local Open Scope R_scope.

Ltac by_sign := unfold Rabs in *; repeat destruct Rcase_abs; lra.

Lemma flip_or_keep (c : bool) s : Rabs (if c then s * -1 else s) = Rabs s.
Proof.
  destruct c; [|reflexivity]. replace (s * -1) with (- s) by ring. apply Rabs_Ropp.
Qed.

Lemma near_step w reach a s :
  reach <= w -> near w reach a s ->
  near w reach (a + s) (if Rltb (a + s) 0 || Rgtb (a + s) w then s * -1 else s).
Proof.
  intros Hw [Hs H]. split; [rewrite flip_or_keep; exact Hs|].
  unfold Rgtb.
  destruct (Rltb (a + s) 0) eqn:E1; cbn [orb].
  - apply Rltb_true in E1. right. left. by_sign.
  - apply Rltb_false in E1. destruct (Rltb w (a + s)) eqn:E2.
    + apply Rltb_true in E2. right. right. by_sign.
    + apply Rltb_false in E2. left. lra.
Qed.

Lemma updates_near w h q k :
  Rabs (speedX q) <= NR w -> Rabs (speedY q) <= NR h ->
  near (NR w) (Rabs (speedX q)) (x q) (speedX q) ->
  near (NR h) (Rabs (speedY q)) (y q) (speedY q) ->
  let q' := Nat.iter k (Particle_update w h) q in
  near (NR w) (Rabs (speedX q)) (x q') (speedX q')
  /\ near (NR h) (Rabs (speedY q)) (y q') (speedY q')
  /\ size q' = size q /\ opacity q' = opacity q.
Proof.
  intros Hw Hh Hx Hy. induction k as [|k (Ix & Iy & Is & Io)].
  - cbv zeta. change (Nat.iter 0 (Particle_update w h) q) with q. tauto.
  - cbv zeta in *.
    change (Nat.iter (S k) (Particle_update w h) q)
      with (Particle_update w h (Nat.iter k (Particle_update w h) q)).
    set (q1 := Nat.iter k (Particle_update w h) q) in *.
    unfold Particle_update. cbn [x y speedX speedY size opacity].
    split; [apply near_step; assumption|].
    split; [apply near_step; assumption|]. tauto.
Qed.

(** X19. A particle of the older script that starts inside the canvas
    with a step no longer than the canvas never strays further than one
    step outside it, on either axis, and its speed keeps its magnitude
    on both axes; its size and opacity never change. *)
Theorem legacy_particle_stays_near (w h : N) (q : Particle) (k : nat) :
  0 <= x q <= NR w -> 0 <= y q <= NR h ->
  Rabs (speedX q) <= NR w -> Rabs (speedY q) <= NR h ->
  let q' := Nat.iter k (Particle_update w h) q in
  - Rabs (speedX q) <= x q' <= NR w + Rabs (speedX q)
  /\ - Rabs (speedY q) <= y q' <= NR h + Rabs (speedY q)
  /\ Rabs (speedX q') = Rabs (speedX q)
  /\ Rabs (speedY q') = Rabs (speedY q)
  /\ size q' = size q /\ opacity q' = opacity q.
Proof.
  intros Hx Hy Hw Hh.
  destruct (updates_near w h q k Hw Hh) as ((Sx & Bx) & (Sy & By) & Hs & Ho).
  - split; [reflexivity|]. left. exact Hx.
  - split; [reflexivity|]. left. exact Hy.
  - cbv zeta. pose proof (Rabs_pos (speedX q)). pose proof (Rabs_pos (speedY q)).
    repeat split; try assumption; lra.
Qed.

Lemma legacy_particle_stays_near_witness :
  let q := {| x := 1; y := 2; size := 1; speedX := -3; speedY := 0; opacity := 1 |} in
  let q' := Nat.iter 5 (Particle_update 100 100) q in
  - Rabs (speedX q) <= x q' <= NR 100 + Rabs (speedX q).
Proof.
  intros q.
  assert (H100 : NR 100 = 100) by reflexivity.
  refine (proj1 (legacy_particle_stays_near 100 100 q 5 _ _ _ _)); cbn [x y speedX speedY q].
  - rewrite H100. lra.
  - rewrite H100. lra.
  - rewrite H100. unfold Rabs. destruct Rcase_abs; lra.
  - rewrite H100. unfold Rabs. destruct Rcase_abs; lra.
Defined.

(** X20. A particle of the older script that is further beyond the
    right or bottom edge than one step (as after the window is made
    smaller: the resize listener resizes the canvas and keeps the
    particles) never comes back: it reverses on every frame and
    alternates between two positions outside the canvas. *)
Theorem legacy_particle_stuck_outside (w h : N) (q : Particle) (k : nat) :
  NR w + Rabs (speedX q) < x q ->
  let q' := Nat.iter k (Particle_update w h) q in
  NR w < x q'
  /\ ((x q' = x q /\ speedX q' = speedX q)
      \/ (x q' = x q + speedX q /\ speedX q' = - speedX q)).
Proof.
  intros H. induction k as [|k [Hout IH]].
  - cbv zeta. change (Nat.iter 0 (Particle_update w h) q) with q.
    pose proof (Rabs_pos (speedX q)). split; [lra|]. left. tauto.
  - cbv zeta in *.
    change (Nat.iter (S k) (Particle_update w h) q)
      with (Particle_update w h (Nat.iter k (Particle_update w h) q)).
    set (q1 := Nat.iter k (Particle_update w h) q) in *.
    unfold Particle_update. cbn [x speedX].
    assert (Hgt : NR w < x q1 + speedX q1) by (destruct IH as [[-> ->]|[-> ->]]; by_sign).
    assert (E : Rltb (x q1 + speedX q1) 0 || Rgtb (x q1 + speedX q1) (NR w) = true).
    { apply orb_true_iff. right. apply Rltb_true. exact Hgt. }
    rewrite E. split; [exact Hgt|].
    destruct IH as [[-> ->]|[-> ->]]; [right|left]; split; ring.
Qed.

Lemma legacy_particle_stuck_outside_witness :
  let q := {| x := 500; y := 2; size := 1; speedX := 0.1; speedY := 0; opacity := 1 |} in
  NR 300 < x (Nat.iter 7 (Particle_update 300 200) q).
Proof.
  intros q.
  refine (proj1 (legacy_particle_stuck_outside 300 200 q 7 _)).
  assert (H300 : NR 300 = 300) by reflexivity.
  rewrite H300. cbn [x speedX q]. unfold Rabs. destruct Rcase_abs; lra.
Defined.

End StrayFacts.

(** ** Glitch text *)

Section GlitchFacts.
Import Stdlib.Strings.Ascii Capability Field Binary64 Glitch.


Local Open Scope Q_scope.

Lemma iter_at_S j : iter_at (S j) = add (iter_at j) (round64 0.45).
Proof. reflexivity. Qed.

(** The rounded sum of [j] steps stays near 0.45 j. *)
Lemma iter_track (j : nat) :
  (Z.of_nat j <= 4194304)%Z ->
  Qabs (iter_at j - inject_Z (Z.of_nat j) * (9 # 20))
  <= inject_Z (Z.of_nat j) * ((9 # 20) * pow2 (-53) * 4194307).
Proof.
  induction j as [|j IH]; intros Hj.
  - vm_compute. discriminate.
  - specialize (IH ltac:(lia)). rewrite iter_at_S. unfold add.
    set (s := iter_at j) in *. clearbody s.
    assert (J0 : 0 <= inject_Z (Z.of_nat j)) by (change 0 with (inject_Z 0); rewrite <- Zle_Qle; lia).
    assert (J1 : inject_Z (Z.of_nat j) <= 4194304)
      by (change 4194304 with (inject_Z 4194304); rewrite <- Zle_Qle; lia).
    replace (Z.of_nat (S j)) with (Z.of_nat j + 1)%Z by lia. rewrite inject_Z_plus.
    change (inject_Z 1) with 1.
    set (J := inject_Z (Z.of_nat j)) in *. clearbody J.
    assert (A1 : Qabs (round64 0.45 - (9 # 20)) <= pow2 (-53) * (9 # 20))
      by (apply Qle_bool_iff; vm_compute; reflexivity).
    set (a := round64 0.45) in *. clearbody a.
    assert (N0 : pow2 (-1022) <= 1 # 4) by discriminate.
    pose proof (round64_relative (s + a)) as R.
    set (r := round64 (s + a)) in *. clearbody r.
    set (u := pow2 (-53)) in *.
    assert (Hu : 0 < u) by reflexivity.
    assert (Hu2 : 4194304 * ((9 # 20) * u * 4194307) <= 1 # 1000) by discriminate.
    assert (Hu3 : u <= 1 # 1000) by discriminate.
    clearbody u.
    set (d := (9 # 20) * u * 4194307) in *.
    assert (Ed : d == (9 # 20) * u * 4194307) by reflexivity.
    clearbody d.
    assert (D0 : 0 <= d) by nra.
    assert (JD : 0 <= J * d <= 4194304 * d) by nra.
    set (P := J * d) in *.
    assert (JA : 0 <= J * (9 # 20) <= 4194304 * (9 # 20)) by nra.
    set (JJ := J * (9 # 20)) in *.
    apply Qabs_diff_Qle_condition in IH. apply Qabs_diff_Qle_condition in A1.
    assert (Lo : 1 # 4 <= s + a) by lra.
    assert (Hi : s + a <= (9 # 20) * 4194306) by lra.
    rewrite (Qabs_pos (s + a)) in R by lra.
    specialize (R ltac:(lra)).
    apply Qabs_diff_Qle_condition in R.
    assert (Ud : u * (s + a) <= u * ((9 # 20) * 4194306)) by nra.
    apply Qabs_diff_Qle_condition.
    assert (E1 : (J + 1) * (9 # 20) == JJ + (9 # 20)) by (unfold JJ; ring).
    assert (E2 : (J + 1) * d == P + d) by (unfold P; ring).
    rewrite E1, E2. lra.
Qed.

Lemma iter_near (j : nat) :
  (Z.of_nat j <= 4194304)%Z ->
  Qabs (iter_at j - inject_Z (Z.of_nat j) * (9 # 20)) <= 1 # 1000.
Proof.
  intros Hj. eapply Qle_trans; [apply (iter_track j Hj)|].
  assert (J0 : 0 <= inject_Z (Z.of_nat j)) by (change 0 with (inject_Z 0); rewrite <- Zle_Qle; lia).
  assert (J1 : inject_Z (Z.of_nat j) <= 4194304)
    by (change 4194304 with (inject_Z 4194304); rewrite <- Zle_Qle; lia).
  set (J := inject_Z (Z.of_nat j)) in *. clearbody J.
  assert (Hu2 : 4194304 * ((9 # 20) * pow2 (-53) * 4194307) <= 1 # 1000) by discriminate.
  assert (D0 : 0 <= (9 # 20) * pow2 (-53) * 4194307) by discriminate.
  set (d := (9 # 20) * pow2 (-53) * 4194307) in *. clearbody d. nra.
Qed.

Lemma nat_lt_Q (a b : nat) :
  (a < b)%nat -> inject_Z (Z.of_nat a) + 1 <= inject_Z (Z.of_nat b).
Proof.
  intros H. change 1 with (inject_Z 1). rewrite <- inject_Z_plus, <- Zle_Qle. lia.
Qed.

(** Positions below 0.45 j in exact arithmetic are below [iter]. *)
Lemma before_iter (k j : nat) :
  (Z.of_nat j <= 4194304)%Z -> (20 * k < 9 * j)%nat ->
  Qltb (inject_Z (Z.of_nat k)) (iter_at j) = true.
Proof.
  intros Hj H. apply Qltb_lt.
  pose proof (iter_near j Hj) as N. apply Qabs_diff_Qle_condition in N.
  pose proof (nat_lt_Q (20 * k) (9 * j) H) as L.
  rewrite !Nat2Z.inj_mul, !inject_Z_mult in L.
  change (inject_Z (Z.of_nat 20)) with 20 in L. change (inject_Z (Z.of_nat 9)) with 9 in L.
  lra.
Qed.

Lemma not_finished (len j : nat) :
  (Z.of_nat j <= 4194304)%Z -> (9 * j < 20 * len)%nat ->
  Qle_bool (inject_Z (Z.of_nat len)) (iter_at j) = false.
Proof.
  intros Hj H. destruct (Qle_bool _ (iter_at j)) eqn:E; [|reflexivity].
  apply Qle_bool_iff in E.
  pose proof (iter_near j Hj) as N. apply Qabs_diff_Qle_condition in N.
  pose proof (nat_lt_Q (9 * j) (20 * len) H) as L.
  rewrite !Nat2Z.inj_mul, !inject_Z_mult in L.
  change (inject_Z (Z.of_nat 20)) with 20 in L. change (inject_Z (Z.of_nat 9)) with 9 in L.
  lra.
Qed.

Lemma finished (len j : nat) :
  (Z.of_nat j <= 4194304)%Z -> (20 * len < 9 * j)%nat ->
  Qle_bool (inject_Z (Z.of_nat len)) (iter_at j) = true.
Proof.
  intros Hj H. apply Qle_bool_iff.
  pose proof (iter_near j Hj) as N. apply Qabs_diff_Qle_condition in N.
  pose proof (nat_lt_Q (20 * len) (9 * j) H) as L.
  rewrite !Nat2Z.inj_mul, !inject_Z_mult in L.
  change (inject_Z (Z.of_nat 20)) with 20 in L. change (inject_Z (Z.of_nat 9)) with 9 in L.
  lra.
Qed.

Lemma frames_least (len j : nat) : (j < frames len)%nat <-> (9 * j < 20 * len)%nat.
Proof.
  unfold frames.
  pose proof (Nat.div_mod_eq (20 * len + 8) 9) as E.
  pose proof (Nat.mod_upper_bound (20 * len + 8) 9 ltac:(discriminate)) as B.
  lia.
Qed.

(** The count in binary64: no callback before it finds the sum at
    [len], that callback does, and it is the exact count or, for a
    length that is a multiple of 9, possibly one more. *)
Lemma frames64_spec (len : nat) :
  (Z.of_nat len <= 1000000)%Z ->
  let F := frames64 len in
  (Z.of_nat F <= 4194304)%Z
  /\ (forall j, (j < F)%nat -> Qle_bool (inject_Z (Z.of_nat len)) (iter_at j) = false)
  /\ Qle_bool (inject_Z (Z.of_nat len)) (iter_at F) = true
  /\ (F = frames len \/ (F = S (frames len) /\ (len mod 9 = 0)%nat)).
Proof.
  intros Hl F.
  assert (Hf : (Z.of_nat (frames len) <= 2222224)%Z).
  { unfold frames. rewrite Nat2Z.inj_div, Nat2Z.inj_add, Nat2Z.inj_mul.
    change (Z.of_nat 20) with 20%Z. change (Z.of_nat 8) with 8%Z.
    change (Z.of_nat 9) with 9%Z.
    apply Z.div_le_upper_bound; lia. }
  assert (Low : forall j, (j < frames len)%nat ->
            Qle_bool (inject_Z (Z.of_nat len)) (iter_at j) = false).
  { intros j Hj. apply not_finished; [lia|]. apply frames_least. exact Hj. }
  assert (Ge : (20 * len <= 9 * frames len)%nat).
  { destruct (Nat.lt_ge_cases (9 * frames len) (20 * len)) as [C|C]; [|exact C].
    apply frames_least in C. lia. }
  unfold F, frames64.
  destruct (Qle_bool (inject_Z (Z.of_nat len)) (iter_at (frames len))) eqn:E.
  - split; [lia|]. split; [exact Low|]. split; [exact E|]. left. reflexivity.
  - split; [lia|]. split; [|split].
    + intros j Hj. destruct (Nat.eq_dec j (frames len)) as [->|Hn]; [exact E|].
      apply Low. lia.
    + apply finished; lia.
    + right. split; [reflexivity|].
      destruct (Nat.lt_ge_cases (20 * len) (9 * frames len)) as [C|C].
      * rewrite (finished len (frames len) ltac:(lia) C) in E. discriminate E.
      * assert (Eq : (9 * frames len = 20 * len)%nat) by lia.
        assert (K : exists k, len = (k * 9)%nat)
          by (exists (5 * frames len - 11 * len)%nat; lia).
        destruct K as [k K]. rewrite K. apply Nat.Div0.mod_mul.
Qed.

Lemma chars_nonempty : chars <> [].
Proof. intros H. apply (f_equal (@length ascii)) in H. vm_compute in H. discriminate H. Qed.

Lemma scramble_keeps (j : nat) (iter : Q) (cs : list ascii) :
  (forall k, (20 * k < 9 * j)%nat -> Qltb (inject_Z (Z.of_nat k)) iter = true) ->
  forall i g, unit_range g ->
    let r := scramble i iter cs g in
    length (fst r) = length cs
    /\ unit_range (snd r)
    /\ forall k ch, cs !! k = Some ch ->
         ((20 * (i + k) < 9 * j)%nat \/ ch = " "%char) -> fst r !! k = Some ch.
Proof.
  intros Hi. induction cs as [|c cs IH]; intros i g Hg.
  - cbn. split; [reflexivity|]. split; [exact Hg|]. intros k ch H. discriminate H.
  - cbn [scramble].
    assert (Step : forall g1, unit_range g1 ->
      let r := scramble (S i) iter cs g1 in
      length (fst r) = length cs /\ unit_range (snd r)
      /\ forall k ch, cs !! k = Some ch ->
           ((20 * (i + S k) < 9 * j)%nat \/ ch = " "%char) -> fst r !! k = Some ch).
    { intros g1 Hg1 r. destruct (IH (S i) g1 Hg1) as (L & U & K).
      split; [exact L|]. split; [exact U|].
      intros k ch Hk Hc. apply K; [exact Hk|].
      replace (S i + k)%nat with (i + S k)%nat by lia. exact Hc. }
    destruct (Qltb (inject_Z (Z.of_nat i)) iter) eqn:E1.
    + destruct (Step g Hg) as (L & U & K).
      destruct (scramble (S i) iter cs g) as [out g']. cbn [fst snd] in *.
      split; [cbn; rewrite L; reflexivity|]. split; [exact U|].
      intros [|k] ch Hk Hc; [exact Hk|]. apply (K k ch Hk Hc).
    + destruct (Stdlib.Strings.Ascii.eqb c " ") eqn:E2.
      * destruct (Step g Hg) as (L & U & K).
        destruct (scramble (S i) iter cs g) as [out g']. cbn [fst snd] in *.
        split; [cbn; rewrite L; reflexivity|]. split; [exact U|].
        intros [|k] ch Hk Hc; [exact Hk|]. apply (K k ch Hk Hc).
      * unfold Math_random. cbv beta iota zeta.
        destruct (random_pick chars (g 0%nat) (Hg 0%nat) chars_nonempty) as [p Hp].
        rewrite Hp.
        destruct (Step (fun n => g (S n)) (fun n => Hg (S n))) as (L & U & K).
        destruct (scramble (S i) iter cs (fun n => g (S n))) as [out g']. cbn [fst snd] in *.
        split; [cbn; rewrite L; reflexivity|]. split; [exact U|].
        intros [|k] ch Hk Hc; [|apply (K k ch Hk Hc)].
        exfalso. injection Hk as ->. destruct Hc as [Hc|Hc].
        -- rewrite Nat.add_0_r in Hc. rewrite (Hi i Hc) in E1. discriminate E1.
        -- subst ch. rewrite Stdlib.Strings.Ascii.eqb_refl in E2. discriminate E2.
Qed.

Lemma ticks_stopped n st g : interval st = false -> ticks n st g = ((st, []), g).
Proof. intros H. destruct n; cbn [ticks]; [|rewrite H]; reflexivity. Qed.

Lemma ticks_course (o : list ascii) (extra F : nat) :
  (Z.of_nat F <= 4194304)%Z ->
  (forall j, (j < F)%nat ->
     Qle_bool (inject_Z (Z.of_nat (length o))) (iter_at j) = false) ->
  Qle_bool (inject_Z (Z.of_nat (length o))) (iter_at F) = true ->
  forall m j st g,
    (j + m = F)%nat ->
    original st = o -> glitching st = true -> interval st = true ->
    iter st = iter_at j ->
    unit_range g ->
    let r := ticks (m + 1 + extra) st g in
    glitching (fst (fst r)) = false /\ interval (fst (fst r)) = false
    /\ original (fst (fst r)) = o
    /\ length (snd (fst r)) = (m + 1)%nat
    /\ snd (fst r) !! m = Some o
    /\ (forall i txt, (i < m)%nat -> snd (fst r) !! i = Some txt -> keeps o (j + i) txt)
    /\ unit_range (snd r).
Proof.
  intros HF Low Stop.
  induction m as [|m IH]; intros j st g Hjm Ho Hgl Hiv Hit Hg.
  - cbn [Nat.add ticks]. rewrite Hiv. unfold tick.
    assert (Hb : forall k, (20 * k < 9 * j)%nat ->
              Qltb (inject_Z (Z.of_nat k)) (iter st) = true).
    { intros k Hk. rewrite Hit. apply before_iter; [lia|exact Hk]. }
    destruct (scramble_keeps j (iter st) (original st) Hb 0 g Hg) as (_ & U & _).
    destruct (scramble 0 (iter st) (original st) g) as [scr g1]. cbn [fst snd] in U.
    assert (Fin : Qle_bool (inject_Z (Z.of_nat (length (original st)))) (iter st) = true).
    { rewrite Ho, Hit. replace j with F by lia. exact Stop. }
    rewrite Fin, ticks_stopped by reflexivity. cbn. rewrite Ho.
    do 5 (split; [reflexivity|]). split; [intros i0 txt Hi0; lia|exact U].
  - replace (S m + 1 + extra)%nat with (S (m + 1 + extra)) by lia.
    cbn [ticks]. rewrite Hiv. unfold tick.
    assert (Hb : forall k, (20 * k < 9 * j)%nat ->
              Qltb (inject_Z (Z.of_nat k)) (iter st) = true).
    { intros k Hk. rewrite Hit. apply before_iter; [lia|exact Hk]. }
    destruct (scramble_keeps j (iter st) (original st) Hb 0 g Hg) as (L & U & K).
    destruct (scramble 0 (iter st) (original st) g) as [scr g1]. cbn [fst snd] in L, U, K.
    assert (Fin : Qle_bool (inject_Z (Z.of_nat (length (original st)))) (iter st) = false).
    { rewrite Ho, Hit. apply Low. lia. }
    rewrite Fin.
    set (st1 := {| original := original st; glitching := glitching st;
                   iter := add (iter st) (round64 0.45); interval := interval st |}).
    assert (Hit1 : iter st1 = iter_at (S j)).
    { cbn [iter st1]. rewrite Hit. reflexivity. }
    specialize (IH (S j) st1 g1 ltac:(lia) Ho Hgl Hiv Hit1 U). cbv zeta in IH.
    destruct (ticks (m + 1 + extra) st1 g1) as [[st2 texts] g2]. cbn [fst snd] in *.
    destruct IH as (I1 & I2 & I3 & I4 & I5 & I6 & I7).
    split; [exact I1|]. split; [exact I2|]. split; [exact I3|].
    split; [cbn; rewrite I4; reflexivity|]. split; [exact I5|]. split; [|exact I7].
    intros [|i] txt Hi Ht.
    + injection Ht as <-. rewrite Nat.add_0_r. split; [rewrite L, Ho; reflexivity|].
      intros k ch Hk Hc. rewrite <- Ho in Hk. apply (K k ch Hk). exact Hc.
    + replace (j + S i)%nat with (S j + i)%nat by lia.
      apply (I6 i txt ltac:(lia) Ht).
Qed.

(** X21. With [Math.random] in its range, a glitch on a text of [n]
    characters, [n] at most 10^6, shows [frames64 n] scrambled texts
    and then the original one, at which point the interval is cleared
    and the driver is ready for the next glitch. In binary64 the count
    is ceil(n / 0.45), or one more when [n] is a multiple of 9 and the
    rounded sum of 0.45s has not reached [n] by then: 18 characters
    take 41 scrambled texts, not 40, and 9 characters take 20. Every
    scrambled text has the length of the original, keeps its spaces,
    and at the j-th callback already shows the original characters at
    the positions below 0.45 j. Triggering a glitch while one is
    running does nothing. *)
Theorem glitch_runs_its_course (o : list ascii) (g : Rng) (extra : nat) :
  unit_range g -> (Z.of_nat (length o) <= 1000000)%Z ->
  let idle := {| original := o; glitching := false; iter := 0; interval := false |} in
  let F := frames64 (length o) in
  let r := ticks (F + 1 + extra) (triggerGlitch idle) g in
  let texts := snd (fst r) in
  glitching (fst (fst r)) = false /\ interval (fst (fst r)) = false
  /\ original (fst (fst r)) = o
  /\ length texts = (F + 1)%nat
  /\ texts !! F = Some o
  /\ (forall j txt, (j < F)%nat -> texts !! j = Some txt -> keeps o j txt)
  /\ (F = frames (length o) \/ (F = S (frames (length o)) /\ (length o mod 9 = 0)%nat))
  /\ (frames 18 = 40%nat /\ frames64 18 = 41%nat /\ frames64 9 = frames 9)
  /\ triggerGlitch (triggerGlitch idle) = triggerGlitch idle.
Proof.
  intros Hg Hl idle F r texts.
  destruct (frames64_spec (length o) Hl) as (HF & Low & Stop & Cases). fold F in HF, Low, Stop, Cases.
  destruct (ticks_course o extra F HF Low Stop F 0 (triggerGlitch idle) g)
    as (H1 & H2 & H3 & H4 & H5 & H6 & _); try reflexivity; try exact Hg.
  fold r in H1, H2, H3, H4, H5, H6. fold texts in H4, H5, H6.
  split; [exact H1|]. split; [exact H2|]. split; [exact H3|]. split; [exact H4|].
  split; [exact H5|]. split; [|split; [exact Cases|split; [|reflexivity]]].
  - intros j txt Hj Ht. exact (H6 j txt Hj Ht).
  - split; [reflexivity|]. split; vm_compute; reflexivity.
Qed.

Lemma glitch_runs_its_course_witness :
  let idle := {| original := ["M"; "d"; " "; "A"]%char; glitching := false; iter := 0;
                 interval := false |} in
  length (snd (fst (ticks (frames64 4 + 1 + 3) (triggerGlitch idle) (fun _ => 0%R))))
  = (frames64 4 + 1)%nat.
Proof.
  intros idle.
  refine (proj1 (proj2 (proj2 (proj2 (glitch_runs_its_course
            ["M"; "d"; " "; "A"]%char (fun _ => 0%R) 3 _ _))))).
  - intros i. lra.
  - discriminate.
Defined.
End GlitchFacts.

(** ** The older script: typing headline *)

Section LegacyTypingFacts.
Import Typing LegacyTyping.

Lemma typeRoles_S roles k st :
  typeRoles roles (S k) st
  = match typeRole roles st with
    | None => None
    | Some (st1, out) =>
        match typeRoles roles k st1 with
        | None => None
        | Some (st2, outs) => Some (st2, out :: outs)
        end
    end.
Proof. reflexivity. Qed.

Lemma typeRoles_app roles k1 k2 st st1 st2 o1 o2 :
  typeRoles roles k1 st = Some (st1, o1) ->
  typeRoles roles k2 st1 = Some (st2, o2) ->
  typeRoles roles (k1 + k2) st = Some (st2, (o1 ++ o2)%list).
Proof.
  revert st st1 o1. induction k1 as [|k1 IH]; intros st st1 o1; simpl.
  - intros [= <- <-]. simpl. tauto.
  - destruct (typeRole roles st) as [[sa out]|]; [|discriminate].
    destruct (typeRoles roles k1 sa) as [[sb outs]|] eqn:E; [|discriminate].
    intros [= <- <-] H2. rewrite (IH _ _ _ E H2). reflexivity.
Qed.

Lemma growing_from roles i cur :
  roles !! i = Some cur ->
  forall n j, (j + S n = length cur)%nat ->
  typeRoles roles (S n) {| idx := i; c := Z.of_nat j; del := false |}
  = Some ({| idx := i; c := Z.of_nat (length cur); del := true |},
          map (fun k => (firstn k cur, if (k =? length cur)%nat then 2500%N else 120%N))
              (seq (S j) (S n))).
Proof.
  intros Hcur. induction n as [|n IH]; intros j Hj.
  - rewrite typeRoles_S. unfold typeRole. cbn [idx c del]. rewrite Hcur. cbn [negb andb].
    replace (Z.of_nat j + 1 =? Z.of_nat (length cur))%Z with true
      by (symmetry; apply Z.eqb_eq; lia).
    cbn [typeRoles seq map]. unfold substring0.
    replace (Z.to_nat (Z.of_nat j + 1)) with (S j) by lia.
    replace (S j =? length cur)%nat with true by (symmetry; apply Nat.eqb_eq; lia).
    replace (Z.of_nat j + 1)%Z with (Z.of_nat (length cur)) by lia.
    reflexivity.
  - rewrite typeRoles_S. unfold typeRole at 1. cbn [idx c del]. rewrite Hcur.
    cbn [negb andb].
    replace (Z.of_nat j + 1 =? Z.of_nat (length cur))%Z with false
      by (symmetry; apply Z.eqb_neq; lia).
    replace (Z.of_nat j + 1)%Z with (Z.of_nat (S j)) by lia.
    rewrite (IH (S j)) by lia.
    unfold substring0. rewrite Nat2Z.id. cbn [seq map].
    replace (S j =? length cur)%nat with false by (symmetry; apply Nat.eqb_neq; lia).
    reflexivity.
Qed.

Lemma shrinking_from roles i cur :
  roles !! i = Some cur ->
  forall j,
  typeRoles roles (S j) {| idx := i; c := Z.of_nat (S j); del := true |}
  = Some ({| idx := (i + 1) mod length roles; c := 0; del := false |},
          map (fun k => (firstn k cur, if (k =? 0)%nat then 300%N else 50%N))
              (rev (seq 0 (S j)))).
Proof.
  intros Hcur. induction j as [|j IH].
  - rewrite typeRoles_S. unfold typeRole. cbn [idx c del]. rewrite Hcur. reflexivity.
  - rewrite typeRoles_S. unfold typeRole at 1. cbn [idx c del]. rewrite Hcur.
    cbn [negb andb].
    replace (Z.of_nat (S (S j)) - 1 =? 0)%Z with false
      by (symmetry; apply Z.eqb_neq; lia).
    replace (Z.of_nat (S (S j)) - 1)%Z with (Z.of_nat (S j)) by lia.
    rewrite IH. unfold substring0. rewrite Nat2Z.id.
    rewrite (seq_S (S j) 0), rev_app_distr. cbn [rev app map Nat.add].
    reflexivity.
Qed.

(** X22. The older headline spends 2n calls on a role of length n > 0:
    it writes the prefixes of length 1..n (120 ms apart, 2500 ms after
    the full role), then those of length n-1..0 (50 ms apart, 300 ms
    after the empty one), and moves on to the next role, wrapping
    around. On an empty role it never gets there: the counter already
    passed the length, so every call writes the empty text, waits
    120 ms and stays on that role. *)
Theorem legacy_headline_round (roles : list Text) (i : nat) (cur : Text) (k : nat) :
  roles !! i = Some cur ->
  (cur <> [] ->
     typeRoles roles (2 * length cur) {| idx := i; c := 0; del := false |}
     = Some ({| idx := (i + 1) mod length roles; c := 0; del := false |},
             (growing cur ++ shrinking cur)%list))
  /\ (cur = [] ->
      typeRoles roles k {| idx := i; c := 0; del := false |}
      = Some ({| idx := i; c := Z.of_nat k; del := false |}, repeat ([], 120%N) k)).
Proof.
  intros Hcur. split.
  - intros Hne. destruct cur as [|u cur']; [contradiction|].
    set (cur := u :: cur') in *.
    replace (2 * length cur)%nat with (length cur + length cur)%nat by lia.
    eapply typeRoles_app.
    + exact (growing_from roles i cur Hcur (length cur') 0 eq_refl).
    + exact (shrinking_from roles i cur Hcur (length cur')).
  - intros ->.
    assert (H : forall k j,
      typeRoles roles k {| idx := i; c := Z.of_nat j; del := false |}
      = Some ({| idx := i; c := Z.of_nat (j + k); del := false |}, repeat ([], 120%N) k)).
    { clear k. induction k as [|k IH]; intros j.
      - rewrite Nat.add_0_r. reflexivity.
      - rewrite typeRoles_S. unfold typeRole. cbn [idx c del]. rewrite Hcur.
        cbn [negb andb length].
        replace (Z.of_nat j + 1 =? Z.of_nat 0)%Z with false
          by (symmetry; apply Z.eqb_neq; lia).
        replace (Z.of_nat j + 1)%Z with (Z.of_nat (S j)) by lia.
        rewrite IH. unfold substring0. rewrite firstn_nil.
        replace (S j + k)%nat with (j + S k)%nat by lia. reflexivity. }
    exact (H k 0%nat).
Qed.

Lemma legacy_headline_round_witness :
  typeRoles [[72; 105]; [79]]%N 4 start
  = Some ({| idx := 1; c := 0; del := false |},
          [([72], 120); ([72; 105], 2500); ([72], 50); ([], 300)]%N).
Proof.
  refine (proj1 (legacy_headline_round [[72; 105]; [79]]%N 0 [72; 105]%N 0 eq_refl) _).
  discriminate.
Defined.

End LegacyTypingFacts.

(** ** Neural network: the constructor *)

Section ConstructorFacts.
Import Capability Field Dom Drivers.

(** X23. On a device that is not Low, with [#neural-canvas] in the
    document and [Math.random] in its range, the constructor starts
    the field in a state the frame loop can rely on: the canvas has
    the window's size, the pointer is parked at the sentinel, there
    are [node_count] nodes, all settled; it registers the resize
    listener, the pointer listeners of the device (mouse, or touch on
    a narrow viewport) and one throttled frame at 30 fps on Mid and
    60 fps otherwise, and touches no other element. *)
Theorem neural_network_starts_settled (dev : DeviceT) (p : Page) (e : Element) :
  isLow dev = false ->
  dom p !! "neural-canvas" = Some e ->
  unit_range (random p) ->
  exists net p',
    NeuralNetwork_new dev p = (NN_running net, p')
    /\ canvas net = resize (window p)
    /\ mouse net = sentinel
    /\ length (nodes net)
       = N.to_nat (node_count dev (innerWidth (window p)) (innerHeight (window p)))
    /\ Forall (settled (canvas net)) (nodes net)
    /\ dom p' !! "neural-canvas"
       = Some (set_size (innerWidth (window p)) (innerHeight (window p)) e)
    /\ (forall b, b <> "neural-canvas" -> dom p' !! b = dom p !! b)
    /\ handles p'
       = (handles p
          ++ Listener "window" "resize"
             :: (if mobile dev then [Listener "window" "touchmove"]
                 else [Listener "window" "mousemove"; Listener "window" "mouseleave"])
          ++ [ThrottledFrame "NeuralNetwork.draw"
                (Throttle.createThrottledRAF (if isMid dev then 30 else 60))])%list
    /\ unit_range (random p').
Proof.
  intros HL He Hg. unfold NeuralNetwork_new. rewrite HL, (getElement_Some _ _ _ He).
  set (cv := resize (window p)).
  set (p1 := update "neural-canvas" (set_size (width cv) (height cv)) p).
  change (window p1) with (window p). change (random p1) with (random p).
  pose proof (spawnNodes_length dev (window p) cv (random p)) as HN.
  pose proof (spawnNodes_settled dev (window p) cv (random p) Hg) as HS.
  assert (HR : unit_range (snd (spawnNodes dev (window p) cv (random p)))).
  { unfold spawnNodes. apply Array_from_range; [|exact Hg].
    intros g0 Hg0. apply spawnNode_settled. exact Hg0. }
  destruct (spawnNodes dev (window p) cv (random p)) as [ns g]. cbn [fst snd] in HN, HS, HR.
  eexists. eexists. split; [reflexivity|]. cbn [canvas mouse nodes].
  split; [reflexivity|]. split; [reflexivity|]. split; [exact HN|]. split; [exact HS|].
  unfold NeuralNetwork_bindEvents.
  destruct (mobile dev); cbn [negb].
  - split; [cbn; rewrite lookup_alter_eq, He; reflexivity|].
    split; [intros b Hb; cbn; apply lookup_alter_ne; congruence|].
    split; [cbn; rewrite <- !app_assoc; reflexivity|exact HR].
  - split; [cbn; rewrite lookup_alter_eq, He; reflexivity|].
    split; [intros b Hb; cbn; apply lookup_alter_ne; congruence|].
    split; [cbn; rewrite <- !app_assoc; reflexivity|exact HR].
Qed.

Lemma neural_network_starts_settled_witness :
  exists net p',
    NeuralNetwork_new (Device desktop) (page_of ["neural-canvas"] desktop)
    = (NN_running net, p')
    /\ length (nodes net) = 65%nat.
Proof.
  destruct (neural_network_starts_settled (Device desktop)
              (page_of ["neural-canvas"] desktop) blank)
    as (net & p' & E & _ & _ & L & _).
  - reflexivity.
  - reflexivity.
  - intros i. cbn. lra.
  - exists net, p'. split; [exact E|exact L].
Defined.

End ConstructorFacts.
